(** * dota-vision-simulation: the obstruction model of src/vision-simulation.js

    A shallow embedding of the JavaScript module [src/vision-simulation.js]
    (key conversions, elevation walls, tree walls, initialisation from the
    five-band map image, [updateVisibility], [isValidXY], [toggleTree]) and
    the properties of it that the specification states.

    JavaScript objects used as dictionaries are finite maps ([gmap]) keyed by
    the same ["x,y"] strings the source builds; the one object whose
    enumeration order is observable ([tree], walked by [for .. in]) is an
    insertion-ordered association list.  A method that can raise returns a
    [completion], which carries the instance as it is at that moment. *)

From Stdlib Require Import ZArith Lia String Ascii.
From stdpp Require Import base tactics option list sorting numbers strings pretty gmap fin_maps.

Local Open Scope Z_scope.
Local Open Scope string_scope.
Local Open Scope list_scope.

(** ** JavaScript values that end up in a point's coordinates *)

Module JS.

(** The numbers the module handles are integers (grid cells, pixels) and
    half-integers (a tree origin is a grid corner minus 0.5).  [Half z] is
    the number [z + 0.5].  [parseInt] can also produce [NaN], and indexing the
    result of [split] past its end gives [undefined]. *)
Inductive coord :=
  | Int (z : Z)
  | Half (z : Z)
  | NaN
  | Undefined.

#[global] Instance coord_eq_dec : EqDecision coord.
Proof. solve_decision. Defined.

(** [Number.prototype.toString] on those values (radix 10), and the strings
    [+] produces for the other two. *)
Definition to_string (c : coord) : string :=
  match c with
  | Int z => pretty z
  | Half z => if decide (0 <= z) then pretty z +:+ ".5"
              else "-" +:+ pretty (- z - 1) +:+ ".5"
  | NaN => "NaN"
  | Undefined => "undefined"
  end.

(** [c - 0.5], [c + i] for an integer [i], [Math.floor] and [Math.ceil]. *)
Definition sub_half (c : coord) : coord :=
  match c with
  | Int z => Half (z - 1)
  | Half z => Int z
  | _ => NaN
  end.

Definition add_int (c : coord) (i : Z) : coord :=
  match c with
  | Int z => Int (z + i)
  | Half z => Half (z + i)
  | _ => NaN
  end.

Definition floor (c : coord) : coord :=
  match c with
  | Half z => Int z
  | Undefined => NaN
  | _ => c
  end.

Definition ceil (c : coord) : coord :=
  match c with
  | Half z => Int (z + 1)
  | Undefined => NaN
  | _ => c
  end.

(** Loose equality [a == b] between two such values. *)
Definition loose_eq (a b : coord) : bool :=
  match a, b with
  | Int x, Int y => bool_decide (x = y)
  | Half x, Half y => bool_decide (x = y)
  | Undefined, Undefined => true
  | _, _ => false
  end.

(** *** [String.prototype.split(',')] *)

Fixpoint split_comma_go (cur : string) (s : string) : list string :=
  match s with
  | EmptyString => [String.rev cur]
  | String c s' =>
      if Ascii.eqb c "," then String.rev cur :: split_comma_go "" s'
      else split_comma_go (String c cur) s'
  end.

Definition split_comma (s : string) : list string := split_comma_go "" s.

(** *** [parseInt(s)] with no radix argument

    Leading white space is skipped, a sign is read, a [0x]/[0X] prefix
    selects base 16, then the longest run of digits is converted; no digit
    at all gives [NaN].  Whatever follows the digits is ignored, so
    [parseInt("3.5")] is [3]. *)

Definition is_space (c : ascii) : bool :=
  let n := nat_of_ascii c in
  (Nat.eqb n 32 || (Nat.leb 9 n && Nat.leb n 13))%bool.

Fixpoint skip_space (s : string) : string :=
  match s with
  | String c s' => if is_space c then skip_space s' else s
  | EmptyString => s
  end.

Definition digit_value (c : ascii) : option Z :=
  let n := Z.of_nat (nat_of_ascii c) in
  if decide (48 <= n <= 57) then Some (n - 48)
  else if decide (97 <= n <= 102) then Some (n - 87)
  else if decide (65 <= n <= 70) then Some (n - 55)
  else None.

Fixpoint digits (base : Z) (acc : option Z) (s : string) : option Z :=
  match s with
  | String c s' =>
      match digit_value c with
      | Some d =>
          if decide (d < base) then digits base (Some (default 0 acc * base + d)) s'
          else acc
      | None => acc
      end
  | EmptyString => acc
  end.

Definition unsigned (s : string) : option Z :=
  match s with
  | String "0" (String "x" s') | String "0" (String "X" s') => digits 16 None s'
  | _ => digits 10 None s
  end.

Definition parseInt (s : string) : coord :=
  let s := skip_space s in
  let '(neg, s) :=
    match s with
    | String "-" s' => (true, s')
    | String "+" s' => (false, s')
    | _ => (false, s)
    end in
  match unsigned s with
  | Some n => Int (if neg then - n else n)
  | None => NaN
  end.

End JS.

Export JS.

(** ** Data model *)

(** A point object [{x, y, key}] as built by [xy2pt], [key2pt] and
    [ImageXYtoGridXY]. *)
Record point := Point { pt_x : coord; pt_y : coord; pt_key : string }.

(** A cell of the elevation grid: the point [elevationPixelHandler] builds
    and extends with [z], the red channel of its pixel. *)
Record cell := Cell { c_x : coord; c_y : coord; c_key : string; c_z : Z }.

(** A tree-wall descriptor [['tree', x, y, Math.SQRT2]]; the tag and the
    radius are the same in every descriptor the module creates. *)
Record wall := TreeWall { w_x : coord; w_y : coord }.

#[global] Instance point_eq_dec : EqDecision point.
Proof. solve_decision. Defined.
#[global] Instance cell_eq_dec : EqDecision cell.
Proof. solve_decision. Defined.
#[global] Instance wall_eq_dec : EqDecision wall.
Proof. solve_decision. Defined.

(** [this.walls] is either the empty object [initialize] creates or the very
    object stored at [treeWalls[e]] (an alias, not a copy). *)
Inductive walls_ref :=
  | WallsEmpty
  | WallsOf (e : Z).

(** The properties [initialize] assigns (lines 229-244).  The four maps
    read from the image are [null] ([None]) until a load succeeds. *)
Record Terrain := {
  grid : list (list point);
  gridnav : option (gmap string point);
  ent_fow_blocker_node : option (gmap string point);
  tools_no_wards : option (gmap string point);
  elevationValues : list Z;
  elevationGrid : option (gmap string cell);
  elevationWalls : gmap Z (gmap string cell);
  treeWalls : gmap Z (gmap string (list wall));
  tree : list (string * point);
  tree_blocks : gmap string (list point);
  tree_relations : gmap string (list point);
  tree_elevations : gmap string Z;
  tree_state : gmap string bool;
  walls : walls_ref;
  lights : gmap string Z;
  area : Z;
}.

(** An instance.  [terrain] is [None] as long as [initialize] has never been
    called: every property of [Terrain] is then [undefined].  [elevation] and
    [lightArea] are assigned by [updateVisibility] only. *)
Record VisionSimulation := {
  radius : Z;
  worldMinX : Z;
  worldMinY : Z;
  worldMaxX : Z;
  worldMaxY : Z;
  gridWidth : Z;
  gridHeight : Z;
  ready : bool;
  elevation : option Z;
  lightArea : option Z;
  terrain : option Terrain;
}.

Definition set_terrain (T : Terrain) (s : VisionSimulation) : VisionSimulation :=
  {| radius := radius s; worldMinX := worldMinX s; worldMinY := worldMinY s;
     worldMaxX := worldMaxX s; worldMaxY := worldMaxY s;
     gridWidth := gridWidth s; gridHeight := gridHeight s; ready := ready s;
     elevation := elevation s; lightArea := lightArea s; terrain := Some T |}.

Definition set_ready (b : bool) (s : VisionSimulation) : VisionSimulation :=
  {| radius := radius s; worldMinX := worldMinX s; worldMinY := worldMinY s;
     worldMaxX := worldMaxX s; worldMaxY := worldMaxY s;
     gridWidth := gridWidth s; gridHeight := gridHeight s; ready := b;
     elevation := elevation s; lightArea := lightArea s; terrain := terrain s |}.

Definition set_elevation (e : Z) (s : VisionSimulation) : VisionSimulation :=
  {| radius := radius s; worldMinX := worldMinX s; worldMinY := worldMinY s;
     worldMaxX := worldMaxX s; worldMaxY := worldMaxY s;
     gridWidth := gridWidth s; gridHeight := gridHeight s; ready := ready s;
     elevation := Some e; lightArea := lightArea s; terrain := terrain s |}.

Definition set_lightArea (n : Z) (s : VisionSimulation) : VisionSimulation :=
  {| radius := radius s; worldMinX := worldMinX s; worldMinY := worldMinY s;
     worldMaxX := worldMaxX s; worldMaxY := worldMaxY s;
     gridWidth := gridWidth s; gridHeight := gridHeight s; ready := ready s;
     elevation := elevation s; lightArea := Some n; terrain := terrain s |}.

Definition set_tree_state (m : gmap string bool) (T : Terrain) : Terrain :=
  {| grid := grid T; gridnav := gridnav T;
     ent_fow_blocker_node := ent_fow_blocker_node T;
     tools_no_wards := tools_no_wards T; elevationValues := elevationValues T;
     elevationGrid := elevationGrid T; elevationWalls := elevationWalls T;
     treeWalls := treeWalls T; tree := tree T; tree_blocks := tree_blocks T;
     tree_relations := tree_relations T; tree_elevations := tree_elevations T;
     tree_state := m; walls := walls T; lights := lights T; area := area T |}.

Definition set_treeWalls (m : gmap Z (gmap string (list wall))) (T : Terrain) : Terrain :=
  {| grid := grid T; gridnav := gridnav T;
     ent_fow_blocker_node := ent_fow_blocker_node T;
     tools_no_wards := tools_no_wards T; elevationValues := elevationValues T;
     elevationGrid := elevationGrid T; elevationWalls := elevationWalls T;
     treeWalls := m; tree := tree T; tree_blocks := tree_blocks T;
     tree_relations := tree_relations T; tree_elevations := tree_elevations T;
     tree_state := tree_state T; walls := walls T; lights := lights T;
     area := area T |}.

Definition set_lights (m : gmap string Z) (T : Terrain) : Terrain :=
  {| grid := grid T; gridnav := gridnav T;
     ent_fow_blocker_node := ent_fow_blocker_node T;
     tools_no_wards := tools_no_wards T; elevationValues := elevationValues T;
     elevationGrid := elevationGrid T; elevationWalls := elevationWalls T;
     treeWalls := treeWalls T; tree := tree T; tree_blocks := tree_blocks T;
     tree_relations := tree_relations T; tree_elevations := tree_elevations T;
     tree_state := tree_state T; walls := walls T; lights := m; area := area T |}.

Definition set_area (a : Z) (T : Terrain) : Terrain :=
  {| grid := grid T; gridnav := gridnav T;
     ent_fow_blocker_node := ent_fow_blocker_node T;
     tools_no_wards := tools_no_wards T; elevationValues := elevationValues T;
     elevationGrid := elevationGrid T; elevationWalls := elevationWalls T;
     treeWalls := treeWalls T; tree := tree T; tree_blocks := tree_blocks T;
     tree_relations := tree_relations T; tree_elevations := tree_elevations T;
     tree_state := tree_state T; walls := walls T; lights := lights T; area := a |}.

(** The three assignments [updateVisibility] makes before it runs the
    field-of-view engine: [walls], [elevationWalls] and [lights]. *)
Definition set_query (w : walls_ref) (ew : gmap Z (gmap string cell))
    (T : Terrain) : Terrain :=
  {| grid := grid T; gridnav := gridnav T;
     ent_fow_blocker_node := ent_fow_blocker_node T;
     tools_no_wards := tools_no_wards T; elevationValues := elevationValues T;
     elevationGrid := elevationGrid T; elevationWalls := ew;
     treeWalls := treeWalls T; tree := tree T; tree_blocks := tree_blocks T;
     tree_relations := tree_relations T; tree_elevations := tree_elevations T;
     tree_state := tree_state T; walls := w; lights := ∅; area := area T |}.

(** ** Completions: a method returns normally or raises *)

Inductive js_error := TypeError.

Inductive completion (S A : Type) :=
  | Normal (a : A) (s : S)
  | Throw (e : js_error) (s : S).
Arguments Normal {S A} a s.
Arguments Throw {S A} e s.

(** The instance a call leaves behind, however it ended. *)
Definition state_of {S A} (c : completion S A) : S :=
  match c with Normal _ s => s | Throw _ s => s end.

Definition M (S A : Type) : Type := S → completion S A.

Definition ret {S A} (a : A) : M S A := λ s, Normal a s.
Definition raise {S A} (e : js_error) : M S A := λ s, Throw e s.
Definition bind {S A B} (m : M S A) (k : A → M S B) : M S B :=
  λ s, match m s with
       | Normal a s' => k a s'
       | Throw e s' => Throw e s'
       end.
Definition get {S} : M S S := λ s, Normal s s.
Definition modify {S} (f : S → S) : M S unit := λ s, Normal tt (f s).

(** Dereferencing a value that may be [undefined] or [null]. *)
Definition deref {S A} (o : option A) : M S A :=
  match o with Some a => ret a | None => raise TypeError end.

Declare Scope js_scope.
Delimit Scope js_scope with js.
Notation "'let!' x ':=' m 'in' k" := (bind m (λ x, k))
  (at level 10, x pattern, m at level 100, k at level 200) : js_scope.
Notation "m ';;;' k" := (bind m (λ _, k))
  (at level 100, k at level 200, right associativity) : js_scope.

(** [Array.prototype.forEach], and a counting [for] loop over a list of
    indices: the body runs on each element in order until one raises. *)
Fixpoint forEach {S A} (f : A → M S unit) (l : list A) : M S unit :=
  match l with
  | [] => ret tt
  | a :: l' => bind (f a) (λ _, forEach f l')
  end.

(** ** Key conversions (lines 12-64) *)

Definition xy2key (x y : coord) : string :=
  to_string x +:+ "," +:+ to_string y.

Definition xy2pt (x y : coord) : point :=
  {| pt_x := x; pt_y := y; pt_key := to_string x +:+ "," +:+ to_string y |}.

Definition pt2key (pt : point) : string :=
  to_string (pt_x pt) +:+ "," +:+ to_string (pt_y pt).

(** [key2pt_cache] is a variable of the module, not a property of an
    instance: [key2pt] takes the cache and returns it updated.  ([in] also
    sees the properties of [Object.prototype]; none of their names is a
    key this module builds.) *)
Definition key2pt (key : string) (key2pt_cache : gmap string point)
    : point * gmap string point :=
  match key2pt_cache !! key with
  | Some pt => (pt, key2pt_cache)
  | None =>
      let p := parseInt <$> split_comma key in
      let pt := {| pt_x := default Undefined (p !! 0%nat);
                   pt_y := default Undefined (p !! 1%nat);
                   pt_key := key |} in
      (pt, <[key := pt]> key2pt_cache)
  end.

Local Open Scope js_scope.

(** [VisionSimulation.prototype.key2pt = key2pt] (line 541): called as a
    method, [key2pt] ignores the instance it is called on and works on the
    module's cache. *)
Definition method_key2pt (this : VisionSimulation) (key : string)
    (key2pt_cache : gmap string point) : point * gmap string point :=
  key2pt key key2pt_cache.

(** ** Elevation walls (lines 74-96) *)

(** The labelled double loop over [i, j] in [-1..1]: does some neighbour
    other than the cell itself exist in [data] with [z <= elevation]? *)
Definition lower_neighbour (data : gmap string cell) (elevation : Z) (pt : cell) : bool :=
  existsb (λ i, existsb (λ j,
    bool_decide (0 ≠ i ∨ 0 ≠ j) &&
    match data !! xy2key (add_int (c_x pt) i) (add_int (c_y pt) j) with
    | Some q => bool_decide (c_z q <= elevation)
    | None => false
    end) [-1; 0; 1]) [-1; 0; 1].

Definition generateElevationWalls (data : gmap string cell) (elevation : Z)
    : gmap string cell :=
  map_fold (λ _ pt walls,
    if bool_decide (c_z pt > elevation) && lower_neighbour data elevation pt
    then <[c_key pt := pt]> walls else walls) ∅ data.

(** ** Tree walls (lines 138-150) *)

(** [obj[k] = v] on an object whose enumeration order matters: an existing
    property keeps its place, a new one goes last. *)
Fixpoint alist_set {A} (k : string) (v : A) (l : list (string * A)) : list (string * A) :=
  match l with
  | [] => [(k, v)]
  | (k', v') :: l' => if decide (k' = k) then (k, v) :: l' else (k', v') :: alist_set k v l'
  end.

(** [obj[k] = (obj[k] || []).concat(v)]: the idiom that appends [v] to the
    array at [k], creating the array when the property is missing. *)
Definition push {A} (k : string) (v : A) (obj : gmap string (list A))
    : gmap string (list A) :=
  <[k := default [] (obj !! k) ++ [v]]> obj.

(** [elevation < tree_elevations[i]]; the comparison with [undefined] is
    false. *)
Definition below (elevation : Z) (tree_elevation : option Z) : bool :=
  match tree_elevation with
  | Some e => bool_decide (elevation < e)
  | None => false
  end.

(** [for (var i in tree)] walks the trees in insertion order.  A missing
    [tree_elevations[i]] makes the comparison false, a missing
    [tree_state[i]] is falsy, a missing [tree_blocks[i]] raises. *)
Definition setTreeWalls (elevation : Z) (tree : list (string * point))
    (tree_elevations : gmap string Z) (tree_state : gmap string bool)
    (tree_blocks : gmap string (list point))
    : M (gmap string (list wall)) unit :=
  forEach (λ '(i, origin),
    if below elevation (tree_elevations !! i)
    then
      if default false (tree_state !! i)
      then let! blocks := deref (tree_blocks !! i) in
           forEach (λ pt,
             modify (push (xy2key (pt_x pt) (pt_y pt))
                          (TreeWall (pt_x origin) (pt_y origin)))) blocks
      else ret tt
    else ret tt) tree.

(** ** The map image and its scan *)

(** A pixel [[r, g, b]]; an image gives the pixel at column [x], row [y]. *)
Definition pixel : Type := Z * Z * Z.
Definition red (p : pixel) : Z := p.1.1.
Definition green (p : pixel) : Z := p.1.2.
Definition blue (p : pixel) : Z := p.2.
Definition image : Type := Z → Z → pixel.

(** [ImageHandler.prototype.scan]: rows top to bottom, each row left to
    right from column [offset]; the handler gets the column relative to
    [offset]. *)
Definition scan {A} (img : image) (offset width height : Z)
    (pixelHandler : Z → Z → pixel → A → A) (grid : A) : A :=
  foldl (λ acc y,
    foldl (λ acc x, pixelHandler (x - offset) y (img x y) acc)
          acc (seqZ offset width))
    grid (seqZ 0 height).

(** ** Coordinate conversions (lines 508-523) *)

Definition GridXYtoImageXY (s : VisionSimulation) (gX gY : Z) : Z * Z :=
  (gX, gridHeight s - gY - 1).

Definition ImageXYtoGridXY (s : VisionSimulation) (x y : Z) : point :=
  let gY := gridHeight s - y - 1 in
  {| pt_x := Int x; pt_y := Int gY; pt_key := to_string (Int x) +:+ "," +:+ to_string (Int gY) |}.

(** ** Pixel handlers (lines 291-347) *)

Definition blackPixelHandler (s : VisionSimulation) (x y : Z) (p : pixel)
    (grid : gmap string point) : gmap string point :=
  let pt := ImageXYtoGridXY s x y in
  if decide (red p = 0) then <[xy2key (pt_x pt) (pt_y pt) := pt]> grid else grid.

(** The handler also records each new red value in [this.elevationValues]:
    its accumulator is the grid together with that array. *)
Definition elevationPixelHandler (s : VisionSimulation) (x y : Z) (p : pixel)
    (acc : gmap string cell * list Z) : gmap string cell * list Z :=
  let pt := ImageXYtoGridXY s x y in
  let pt := {| c_x := pt_x pt; c_y := pt_y pt; c_key := pt_key pt; c_z := red p |} in
  (<[xy2key (c_x pt) (c_y pt) := pt]> acc.1,
   if decide (red p ∈ acc.2) then acc.2 else acc.2 ++ [red p]).

(** The four footprint corners, in the order of the nested
    [[Math.floor, Math.ceil].forEach]. *)
Definition tree_corners (treeOrigin : point) : list point :=
  i ← [JS.floor; JS.ceil];
  j ← [JS.floor; JS.ceil];
  [xy2pt (i (pt_x treeOrigin)) (j (pt_y treeOrigin))].

Definition treeElevationPixelHandler (s : VisionSimulation) (x y : Z) (p : pixel)
    (T : Terrain) : Terrain :=
  let pt := ImageXYtoGridXY s x y in
  if decide (green p = 0 ∧ blue p = 0) then
    let treeOrigin := xy2pt (sub_half (pt_x pt)) (sub_half (pt_y pt)) in
    let treeElevation := red p + 40 in
    let kC := pt_key treeOrigin in
    {| grid := grid T; gridnav := gridnav T;
       ent_fow_blocker_node := ent_fow_blocker_node T;
       tools_no_wards := tools_no_wards T;
       elevationValues := elevationValues T;
       elevationGrid := elevationGrid T; elevationWalls := elevationWalls T;
       treeWalls := treeWalls T;
       tree := alist_set kC treeOrigin (tree T);
       tree_blocks := <[kC := tree_corners treeOrigin]> (tree_blocks T);
       tree_relations :=
         foldl (λ rel treeCorner, push (pt_key treeCorner) treeOrigin rel)
               (tree_relations T) (tree_corners treeOrigin);
       tree_elevations := <[kC := treeElevation]> (tree_elevations T);
       tree_state := <[kC := true]> (tree_state T);
       walls := walls T; lights := lights T; area := area T |}
  else T.

(** ** Constructor (lines 181-216) and [setRadius] *)

Record worlddata := {
  wd_worldMinX : Z;
  wd_worldMinY : Z;
  wd_worldMaxX : Z;
  wd_worldMaxY : Z;
}.

(** [a || b] for an optional number [a]: [undefined] and [0] are falsy. *)
Definition or_else (a : option Z) (b : Z) : Z :=
  match a with
  | Some r => if decide (r = 0) then b else r
  | None => b
  end.

(** [new VisionSimulation(worlddata, opts)]; [opts_radius] is [opts.radius].
    The grid dimensions divide the world size by 64: the quotient is exact
    for world bounds that are multiples of 64, as in worlddata.json. *)
Definition construct (wd : worlddata) (opts_radius : option Z) : VisionSimulation :=
  {| radius := or_else opts_radius 25;
     worldMinX := wd_worldMinX wd; worldMinY := wd_worldMinY wd;
     worldMaxX := wd_worldMaxX wd; worldMaxY := wd_worldMaxY wd;
     gridWidth := (wd_worldMaxX wd - wd_worldMinX wd) / 64 + 1;
     gridHeight := (wd_worldMaxY wd - wd_worldMinY wd) / 64 + 1;
     ready := false; elevation := None; lightArea := None; terrain := None |}.

Definition setRadius (r : Z) : M VisionSimulation unit :=
  modify (λ s,
    {| radius := r; worldMinX := worldMinX s; worldMinY := worldMinY s;
       worldMaxX := worldMaxX s; worldMaxY := worldMaxY s;
       gridWidth := gridWidth s; gridHeight := gridHeight s; ready := ready s;
       elevation := elevation s; lightArea := lightArea s; terrain := terrain s |}).

(** ** [initialize] (lines 226-280) *)

(** The assignments at the top of [initialize]. *)
Definition reset_terrain : Terrain :=
  {| grid := []; gridnav := None; ent_fow_blocker_node := None;
     tools_no_wards := None; elevationValues := []; elevationGrid := None;
     elevationWalls := ∅; treeWalls := ∅; tree := []; tree_blocks := ∅;
     tree_relations := ∅; tree_elevations := ∅; tree_state := ∅;
     walls := WallsEmpty; lights := ∅; area := 0 |}.

(** The body of [elevationValues.forEach]: a fresh object is stored at
    [treeWalls[elevation]] and [setTreeWalls] fills it in place. *)
Definition init_treeWalls (elevation : Z) : M Terrain unit := λ T,
  match setTreeWalls elevation (tree T) (tree_elevations T) (tree_state T)
                     (tree_blocks T) ∅ with
  | Normal _ obj => Normal tt (set_treeWalls (<[elevation := obj]> (treeWalls T)) T)
  | Throw e obj => Throw e (set_treeWalls (<[elevation := obj]> (treeWalls T)) T)
  end.

(** The five [parseImage] calls of the load callback, then the tree walls
    of every elevation level.  The handlers of one band never read what
    another band produced, so the four maps are stored at the end. *)
Definition load_terrain (s : VisionSimulation) (img : image) : M Terrain unit := λ T,
  let W := gridWidth s in
  let H := gridHeight s in
  let gn := scan img (W * 2) W H (blackPixelHandler s) ∅ in
  let fow := scan img (W * 3) W H (blackPixelHandler s) ∅ in
  let nw := scan img (W * 4) W H (blackPixelHandler s) ∅ in
  let T1 := scan img W W H (treeElevationPixelHandler s) T in
  let eg := scan img 0 W H (elevationPixelHandler s) (∅, elevationValues T1) in
  let T2 :=
    {| grid := grid T1; gridnav := Some gn; ent_fow_blocker_node := Some fow;
       tools_no_wards := Some nw; elevationValues := eg.2;
       elevationGrid := Some eg.1; elevationWalls := elevationWalls T1;
       treeWalls := treeWalls T1; tree := tree T1; tree_blocks := tree_blocks T1;
       tree_relations := tree_relations T1;
       tree_elevations := tree_elevations T1; tree_state := tree_state T1;
       walls := walls T1; lights := lights T1; area := area T1 |} in
  forEach init_treeWalls eg.2 T2.

(** The "cache prime" loop: [this.grid] receives one column of points per
    [i], and every point is also stored in the module's [key2pt_cache]. *)
Definition prime_grid (W H : Z) : list (list point) :=
  (λ i, (λ j, xy2pt (Int i) (Int j)) <$> seqZ 0 H) <$> seqZ 0 W.

Definition prime_cache (W H : Z) (key2pt_cache : gmap string point)
    : gmap string point :=
  foldl (λ cache i,
    foldl (λ cache j, <[pt_key (xy2pt (Int i) (Int j)) := xy2pt (Int i) (Int j)]> cache)
          cache (seqZ 0 H))
    key2pt_cache (seqZ 0 W).

Definition set_grid (g : list (list point)) (T : Terrain) : Terrain :=
  {| grid := g; gridnav := gridnav T;
     ent_fow_blocker_node := ent_fow_blocker_node T;
     tools_no_wards := tools_no_wards T; elevationValues := elevationValues T;
     elevationGrid := elevationGrid T; elevationWalls := elevationWalls T;
     treeWalls := treeWalls T; tree := tree T; tree_blocks := tree_blocks T;
     tree_relations := tree_relations T; tree_elevations := tree_elevations T;
     tree_state := tree_state T; walls := walls T; lights := lights T;
     area := area T |}.

(** [initialize(mapDataImagePath, onReady)].  [load] is what the image
    handler delivers: [Some img] when the image was read, [None] when the
    load failed (or has not completed yet: the instance is the same).  The
    result pairs the instance with the module's [key2pt_cache]. *)
Definition initialize (load : option image) (s : VisionSimulation)
    (key2pt_cache : gmap string point)
    : completion VisionSimulation unit * gmap string point :=
  let s0 := set_terrain reset_terrain (set_ready false s) in
  match load with
  | None => (Normal tt s0, key2pt_cache)
  | Some img =>
      match load_terrain s0 img reset_terrain with
      | Throw e T => (Throw e (set_terrain T s0), key2pt_cache)
      | Normal _ T =>
          (Normal tt (set_ready true
             (set_terrain (set_grid (prime_grid (gridWidth s) (gridHeight s)) T) s0)),
           prime_cache (gridWidth s) (gridHeight s) key2pt_cache)
      end
  end.

(** ** [lightPassesCallback] (lines 205-208)

    [None] is the [TypeError] of applying [in] to [undefined] or [null]. *)
Definition lightPassesCallback (s : VisionSimulation) (x y : Z) : option bool :=
  let key := xy2key (Int x) (Int y) in
  T ← terrain s;
  e ← elevation s;
  ew ← elevationWalls T !! e;
  if bool_decide (is_Some (ew !! key)) then Some false else
  fow ← ent_fow_blocker_node T;
  if bool_decide (is_Some (fow !! key)) then Some false else
  tw ← treeWalls T !! e;
  Some (negb (match tw !! key with
              | Some l => bool_decide (0 < length l)%nat
              | None => false
              end)).

(** ** [updateVisibility] (lines 357-389) *)

(** One invocation [callback(x2, y2, r, vis)] made by the field-of-view
    engine. *)
Record visit := Visit { v_x : Z; v_y : Z; v_r : Z; v_vis : Z }.

(** [ROT.FOV.PreciseShadowcasting.prototype.compute] lives in rot6.js.  What
    [updateVisibility] needs of a call [fov.compute(gX, gY, radius, callback)]
    is the sequence of callback invocations it makes and the number it
    returns ([None] when it raises instead of returning).  The engine is
    given [fov.walls] and the [lightPasses] callback. *)
Definition fov_engine : Type :=
  option (gmap string (list wall)) → (Z → Z → option bool) → Z → Z → Z →
  list visit * option Z.

(** The [for] loop over [treePts] with its [break]: is some tree registered
    at the corner standing and higher than the active elevation? *)
Fixpoint tree_blocking (T : Terrain) (elevation : Z) (treePts : list point) : bool :=
  match treePts with
  | [] => false
  | treePt :: rest =>
      if default false (tree_state T !! pt_key treePt)
         && below elevation (tree_elevations T !! pt_key treePt)
      then true
      else tree_blocking T elevation rest
  end.

(** The callback [updateVisibility] hands to [fov.compute]. *)
Definition light_callback (elevation : Z) (v : visit) : M Terrain unit :=
  let key := xy2key (Int (v_x v)) (Int (v_y v)) in
  let! T := get in
  let! g := deref (elevationGrid T) in
  match g !! key with
  | None => ret tt
  | Some _ =>
      let treeBlocking :=
        match tree_relations T !! key with
        | Some treePts => tree_blocking T elevation treePts
        | None => false
        end in
      if bool_decide (v_vis v = 1) then
        let! fow := deref (ent_fow_blocker_node T) in
        match fow !! key with
        | None =>
            if negb treeBlocking
            then modify (λ T, set_lights (<[key := 255]> (lights T)) T)
            else ret tt
        | Some _ => ret tt
        end
      else ret tt
  end.

(** The terrain and the instance as [updateVisibility] has them when it
    calls [fov.compute] for an origin of elevation [e] on the grid [g]:
    [elevation] and [walls] are set, the elevation walls of [e] are
    generated unless cached, and [lights] is a fresh empty object. *)
Definition prepare_terrain (e : Z) (g : gmap string cell) (T : Terrain) : Terrain :=
  let ew :=
    match elevationWalls T !! e with
    | Some _ => elevationWalls T
    | None => <[e := generateElevationWalls g e]> (elevationWalls T)
    end in
  set_query (WallsOf e) ew T.

Definition prepare (e : Z) (g : gmap string cell) (T : Terrain)
    (s : VisionSimulation) : VisionSimulation :=
  set_terrain (prepare_terrain e g T) (set_elevation e s).

Section WithEngine.

Variable compute : fov_engine.

Definition updateVisibility (gX gY : Z) (radius0 : option Z)
    : M VisionSimulation unit := λ s,
  let key := xy2key (Int gX) (Int gY) in
  let radius := or_else radius0 (radius s) in
  match terrain s with
  | None => Throw TypeError s
  | Some T =>
  match elevationGrid T with
  | None => Throw TypeError s
  | Some g =>
  match g !! key with
  | None => Throw TypeError s
  | Some pt =>
      let e := c_z pt in
      let s1 := prepare e g T s in
      let run := compute (treeWalls T !! e) (lightPassesCallback s1) gX gY radius in
      match forEach (light_callback e) run.1 (prepare_terrain e g T) with
      | Throw err T2 => Throw err (set_terrain T2 s1)
      | Normal _ T2 =>
          match run.2 with
          | None => Throw TypeError (set_terrain T2 s1)
          | Some a =>
              Normal tt (set_lightArea (Z.of_nat (size (lights T2)))
                           (set_terrain (set_area a T2) s1))
          end
      end
  end end end.

End WithEngine.

(** ** [isValidXY] (lines 402-420) *)

(** The loop of [isValidXY]: is some tree registered at the corner
    standing? *)
Fixpoint any_standing (T : Terrain) (treePts : list point) : bool :=
  match treePts with
  | [] => false
  | treePt :: rest =>
      if default false (tree_state T !! pt_key treePt) then true
      else any_standing T rest
  end.

(** [!flag || !map[key]], dereferencing [map] only when [flag] is set. *)
Definition unblocked {A} (flag : bool) (map : option (gmap string A)) (key : string)
    : M VisionSimulation bool :=
  if flag then let! m := deref map in ret (bool_decide (m !! key = None))
  else ret true.

Definition isValidXY (x y : Z) (bCheckGridnav bCheckToolsNoWards bCheckTreeState : bool)
    : M VisionSimulation bool := λ s,
  if negb (ready s) then Normal false s else
  let key := xy2key (Int x) (Int y) in
  (let! treeBlocking :=
     if bCheckTreeState then
       let! T := deref (terrain s) in
       ret match tree_relations T !! key with
           | Some treePts => any_standing T treePts
           | None => false
           end
     else ret false in
   if bool_decide (x >= 0) && bool_decide (x < gridWidth s)
      && bool_decide (y >= 0) && bool_decide (y < gridHeight s)
   then
     let! nav := unblocked bCheckGridnav (terrain s ≫= gridnav) key in
     if nav then
       let! wards := unblocked bCheckToolsNoWards (terrain s ≫= tools_no_wards) key in
       if wards then ret (negb bCheckTreeState || negb treeBlocking)
       else ret false
     else ret false
   else ret false) s.

(** ** [toggleTree] (lines 430-460) *)

(** [pt.x == d[1] && pt.y == d[2]]: is [d] a descriptor of the tree [pt]? *)
Definition wall_of (pt : point) (d : wall) : bool :=
  loose_eq (pt_x pt) (w_x d) && loose_eq (pt_y pt) (w_y d).

(** The backwards loop [for (j = arr.length - 1; j >= 0; j--)] that splices
    out every descriptor of the tree [pt]; [n] is [j + 1]. *)
Fixpoint remove_walls (pt : point) (n : nat) (arr : list wall) : list wall :=
  match n with
  | O => arr
  | S j =>
      remove_walls pt j
        match arr !! j with
        | Some d => if wall_of pt d then delete j arr else arr
        | None => arr
        end
  end.

(** The body of [elevationValues.forEach] for the tree [pt]. *)
Definition toggle_walls (pt : point) (elevation : Z) : M Terrain unit :=
  let! T := get in
  if below elevation (tree_elevations T !! pt_key pt) then
    let! blocks := deref (tree_blocks T !! pt_key pt) in
    forEach (λ ptB,
      let! T := get in
      let! tw := deref (treeWalls T !! elevation) in
      let! arr := deref (tw !! pt_key ptB) in
      modify (set_treeWalls
        (<[elevation := <[pt_key ptB := remove_walls pt (length arr) arr]> tw]>
           (treeWalls T)))) blocks ;;;
    let! T := get in
    if default false (tree_state T !! pt_key pt) then
      forEach (λ ptB,
        let! T := get in
        let! tw := deref (treeWalls T !! elevation) in
        modify (set_treeWalls
          (<[elevation := push (pt_key ptB) (TreeWall (pt_x pt) (pt_y pt)) tw]>
             (treeWalls T)))) blocks
    else ret tt
  else ret tt.

(** The body of the loop over [treePts]: flip the tree, then patch the
    walls of every elevation level. *)
Definition toggle_tree (pt : point) : M Terrain unit :=
  modify (λ T,
    set_tree_state
      (<[pt_key pt := negb (default false (tree_state T !! pt_key pt))]> (tree_state T)) T) ;;;
  let! T := get in
  forEach (toggle_walls pt) (elevationValues T).

Definition toggleTree (x y : Z) : M VisionSimulation bool := λ s,
  let key := xy2key (Int x) (Int y) in
  match terrain s with
  | None => Throw TypeError s
  | Some T =>
      match tree_relations T !! key with
      | None => Normal false s
      | Some treePts =>
          match forEach toggle_tree treePts T with
          | Normal _ T' => Normal true (set_terrain T' s)
          | Throw e T' => Throw e (set_terrain T' s)
          end
      end
  end.

(** ** Characters of printed numbers *)

Fixpoint str_all (P : ascii → bool) (s : string) : bool :=
  match s with
  | EmptyString => true
  | String c s' => P c && str_all P s'
  end.

Definition is_digit (c : ascii) : bool :=
  bool_decide (48 ≤ nat_of_ascii c ≤ 57)%nat.

(** A character of a printed integer: a digit or the sign. *)
Definition is_int_char (c : ascii) : bool := is_digit c || Ascii.eqb c "-".


Definition not_char (sep c : ascii) : bool := negb (Ascii.eqb c sep).

(** A character of a printed number: a digit, the sign or the point. *)
Definition is_num_char (c : ascii) : bool := is_int_char c || Ascii.eqb c ".".

(** ** Vocabulary of the properties *)

(** An elevation grid as [elevationPixelHandler] builds it: the entry at a
    key is the integer cell with that key. *)
Definition grid_wf (data : gmap string cell) : Prop :=
  ∀ k c, data !! k = Some c →
    c_key c = k ∧ ∃ x y, c_x c = Int x ∧ c_y c = Int y ∧ k = xy2key (Int x) (Int y).

(** The elevation of the cell [(x, y)], if the grid has it. *)
Definition elevation_at (data : gmap string cell) (x y : Z) : option Z :=
  c_z <$> data !! xy2key (Int x) (Int y).

(** [(x', y')] is one of the 8 neighbours of [(x, y)]. *)
Definition neighbour8 (x y x' y' : Z) : Prop :=
  (x' ≠ x ∨ y' ≠ y) ∧ -1 <= x' - x <= 1 ∧ -1 <= y' - y <= 1.

(** The cell [(x, y)] lies on the contour of threshold [E]. *)
Definition on_contour (data : gmap string cell) (E : Z) (x y : Z) : Prop :=
  ∃ z, elevation_at data x y = Some z ∧ z > E ∧
    ∃ x' y' z', neighbour8 x y x' y' ∧ elevation_at data x' y' = Some z' ∧ z' <= E.

(** The pixels of one band in scan order: column inside the band, row. *)
Definition band_pixels (W H : Z) : list (Z * Z) :=
  y ← seqZ 0 H; i ← seqZ 0 W; [(i, y)].

(** [k] is the key of one of the four footprint corners of the tree whose
    origin is [o]. *)
Definition corner_of (k : string) (o : point) : Prop :=
  k ∈ pt_key <$> tree_corners o.

#[global] Instance corner_of_dec k o : Decision (corner_of k o).
Proof. unfold corner_of. apply _. Defined.

(** The descriptor [['tree', o.x, o.y, Math.SQRT2]] of the tree at [o]. *)
Definition descriptor (o : point) : wall := TreeWall (pt_x o) (pt_y o).

(** [tree_state[kC]] read as a condition. *)
Definition standing (T : Terrain) (kC : string) : bool :=
  default false (tree_state T !! kC).

(** The tree registry as the tree band leaves it: every tree has a
    half-integer origin, is stored under the key of that origin, has its
    four corners, an elevation and a state; the reverse index lists at
    each key the trees that have it as a corner, in registration order. *)
Record registry_ok (T : Terrain) : Prop := {
  reg_nodup : NoDup (tree T).*1;
  reg_origin : ∀ kC o, (kC, o) ∈ tree T →
    kC = pt_key o ∧ ∃ a b, o = xy2pt (Half a) (Half b);
  reg_fields : ∀ kC o, (kC, o) ∈ tree T →
    tree_blocks T !! kC = Some (tree_corners o) ∧
    is_Some (tree_elevations T !! kC) ∧ is_Some (tree_state T !! kC);
  reg_relations : ∀ k,
    default [] (tree_relations T !! k) = filter (corner_of k) (tree T).*2;
}.

(** The tree [p] of the registry is standing, blocks at a level above [L]
    and has [k] among its corners. *)
Definition qualifies (T : Terrain) (L : Z) (k : string) (p : string * point) : Prop :=
  standing T p.1 = true ∧ below L (tree_elevations T !! p.1) = true ∧ corner_of k p.2.

#[global] Instance qualifies_dec T L k p : Decision (qualifies T L k p).
Proof. unfold qualifies, corner_of. apply _. Defined.

(** One descriptor for each qualifying tree, in registration order. *)
Definition expected_walls (T : Terrain) (L : Z) (k : string) : list wall :=
  (λ p, descriptor p.2) <$> filter (qualifies T L k) (tree T).

(** The entry of [TreeWallSet(L)] at [k]; a missing entry holds no
    descriptor. *)
Definition tree_walls_at (T : Terrain) (L : Z) (k : string) : list wall :=
  default [] (treeWalls T !! L ≫= (.!! k)).

(** The tree-wall cache agrees with the registry at every known level, and
    has an entry (possibly empty) wherever a tree reaches above the level. *)
Definition walls_ok (T : Terrain) : Prop :=
  NoDup (elevationValues T) ∧
  ∀ L, L ∈ elevationValues T →
    ∃ tw, treeWalls T !! L = Some tw ∧
      ∀ k,
        (∀ p, p ∈ tree T → below L (tree_elevations T !! p.1) = true →
              corner_of k p.2 → is_Some (tw !! k)) ∧
        NoDup (default [] (tw !! k)) ∧
        ∀ d, d ∈ default [] (tw !! k) ↔ d ∈ expected_walls T L k.

(** ** Ready instances *)

Inductive operation :=
  | OpUpdateVisibility (gX gY : Z) (radius : option Z)
  | OpToggleTree (x y : Z)
  | OpIsValidXY (x y : Z) (bCheckGridnav bCheckToolsNoWards bCheckTreeState : bool)
  | OpSetRadius (r : Z).

(** The instance an operation leaves behind, whether it returned or
    raised. *)
Definition perform (compute : fov_engine) (op : operation) (s : VisionSimulation)
    : VisionSimulation :=
  match op with
  | OpUpdateVisibility gX gY r => state_of (updateVisibility compute gX gY r s)
  | OpToggleTree x y => state_of (toggleTree x y s)
  | OpIsValidXY x y g w t => state_of (isValidXY x y g w t s)
  | OpSetRadius r => state_of (setRadius r s)
  end.

(** An instance is ready once an [initialize] has loaded an image, and
    stays so under the operations above. *)
Inductive ready_instance (compute : fov_engine) : VisionSimulation → Prop :=
  | ready_initialize s0 img cache s :
      (initialize (Some img) s0 cache).1 = Normal tt s →
      ready_instance compute s
  | ready_perform s op :
      ready_instance compute s →
      ready_instance compute (perform compute op s).

(** The elevation-grid cell and the tree origin that the pixel [(i, y)] of
    a band gives rise to. *)
Definition grid_cell (s : VisionSimulation) (img : image) (i y : Z) : cell :=
  let pt := ImageXYtoGridXY s i y in
  {| c_x := pt_x pt; c_y := pt_y pt; c_key := pt_key pt; c_z := red (img i y) |}.

Definition tree_origin (s : VisionSimulation) (i y : Z) : point :=
  let pt := ImageXYtoGridXY s i y in
  xy2pt (sub_half (pt_x pt)) (sub_half (pt_y pt)).

(** Everything in a [Terrain] but the tree registry. *)
Definition outside_registry (T : Terrain) :=
  (grid T, gridnav T, ent_fow_blocker_node T, tools_no_wards T,
   elevationValues T, elevationGrid T, elevationWalls T, treeWalls T,
   walls T, lights T, area T).

(** What holds of a ready instance [s] with terrain [T] and elevation
    grid [g]. *)
Record instance_ok (s : VisionSimulation) (T : Terrain) (g : gmap string cell) : Prop := {
  ok_ready : ready s = true;
  ok_terrain : terrain s = Some T;
  ok_grid : elevationGrid T = Some g;
  ok_grid_wf : grid_wf g;
  ok_cells : ∀ x y,
    is_Some (g !! xy2key (Int x) (Int y)) ↔
    0 <= x < gridWidth s ∧ 0 <= y < gridHeight s;
  ok_levels : ∀ k c, g !! k = Some c → c_z c ∈ elevationValues T;
  ok_maps :
    is_Some (gridnav T) ∧ is_Some (ent_fow_blocker_node T) ∧
    is_Some (tools_no_wards T);
  ok_registry : registry_ok T;
  ok_walls : walls_ok T;
  ok_cache : ∀ E w, elevationWalls T !! E = Some w → w = generateElevationWalls g E;
}.

(** What [toggleTree] makes of one corner's entry for the tree [o]: its
    old descriptors go, and one comes back if the tree now stands. *)
Definition patch_entry (o : point) (stand : bool) (arr : list wall) : list wall :=
  filter (λ d, ¬ wall_of o d) arr ++ (if stand then [descriptor o] else []).

(** A computation that leaves the state as it found it, however it ends. *)
Definition read_only {S A} (m : M S A) : Prop := ∀ s, state_of (m s) = s.

(** ** The field-of-view engine *)

(** Modelled from the spec: [ROT.FOV.PreciseShadowcasting] (rot6.js) is not
    among the sources.  The specification describes it as precise
    shadowcasting with 8-directional topology around the origin: cells are
    visited ring by ring (Chebyshev distance 1, 2, .. R), a cell is visible
    unless the slope interval it spans is entirely blocked by opaque cells
    met earlier, an opaque cell is itself still visited and may be visible,
    and the number returned ([area]) is the number of cells visited.  The
    origin is always visited as visible; the specification gives it no
    slope interval, so it casts no shadow here.  A direction is measured
    along the perimeter of the ring, starting at the corner [(x-r, y+r)]:
    [(a, r)] is the direction at [a / (16 r)] of the perimeter, so that the
    cell number [i] of ring [r] (which has [8 r] cells) spans the
    directions [(2i-1, r) .. (2i+1, r)]. *)
Definition direction : Type := Z * Z.

Definition dir_le (p q : direction) : bool := bool_decide (p.1 * q.2 <= q.1 * p.2).
Definition dir_lt (p q : direction) : bool := bool_decide (p.1 * q.2 < q.1 * p.2).

(** Is the interval [lo .. hi] inside the union of the shadows?  Each step
    jumps to the end of a shadow that contains [lo]. *)
Fixpoint covered (fuel : nat) (shadows : list (direction * direction))
    (lo hi : direction) : bool :=
  if dir_le hi lo then true else
  match fuel with
  | O => false
  | S fuel' =>
      existsb (λ sh, dir_le sh.1 lo && dir_lt lo sh.2 && covered fuel' shadows sh.2 hi)
              shadows
  end.

(** The intervals the cell [i] of ring [r] spans; the cell at the starting
    corner straddles the origin of directions and spans two. *)
Definition cell_arcs (i r : Z) : list (direction * direction) :=
  if decide (i = 0) then [((16 * r - 1, r), (16 * r, r)); ((0, r), (1, r))]
  else [((2 * i - 1, r), (2 * i + 1, r))].

Definition arc_visible (shadows : list (direction * direction)) (i r : Z) : bool :=
  existsb (λ arc, negb (covered (S (length shadows)) shadows arc.1 arc.2)) (cell_arcs i r).

(** The cells at Chebyshev distance [r] from [(x, y)], walking the
    perimeter of the square from the corner [(x-r, y+r)]. *)
Definition ring (x y r : Z) : list (Z * Z) :=
  ((λ i, (x - r, y + r - i)) <$> seqZ 0 (2 * r)) ++
  ((λ i, (x - r + i, y - r)) <$> seqZ 0 (2 * r)) ++
  ((λ i, (x + r, y - r + i)) <$> seqZ 0 (2 * r)) ++
  ((λ i, (x + r - i, y + r)) <$> seqZ 0 (2 * r)).

(** Ring number, index in the ring and cell, for every cell of the rings
    [1 .. R] in visiting order. *)
Definition worklist (x y R : Z) : list (Z * Z * (Z * Z)) :=
  r ← seqZ 1 R; zip ((λ i, (r, i)) <$> seqZ 0 (8 * r)) (ring x y r).

(** The sweep proper: the visits made and whether the sweep ran to its
    end ([false]: [lightPasses] raised). *)
Fixpoint sweep (lightPasses : Z → Z → option bool)
    (work : list (Z * Z * (Z * Z))) (shadows : list (direction * direction))
    : list visit * bool :=
  match work with
  | [] => ([], true)
  | (r, i, (cx, cy)) :: rest =>
      match lightPasses cx cy with
      | None => ([], false)
      | Some passes =>
          let vis := arc_visible shadows i r in
          let shadows' := if passes then shadows else cell_arcs i r ++ shadows in
          let out := sweep lightPasses rest shadows' in
          (Visit cx cy r (if vis then 1 else 0) :: out.1, out.2)
      end
  end.

Definition PreciseShadowcasting : fov_engine := λ walls lightPasses x y R,
  let out := sweep lightPasses (worklist x y R) [] in
  let visits := Visit x y 0 1 :: out.1 in
  (visits, if out.2 then Some (Z.of_nat (length visits)) else None).

(** What the specification lets [updateVisibility] expect of any engine: it
    returns when [lightPasses] never raises, and the number it returns is
    the number of callback invocations it made. *)
Definition engine_returns (compute : fov_engine) : Prop :=
  ∀ walls lightPasses x y R,
    (∀ a b, is_Some (lightPasses a b)) → is_Some (compute walls lightPasses x y R).2.

Definition engine_counts (compute : fov_engine) : Prop :=
  ∀ walls lightPasses x y R a,
    (compute walls lightPasses x y R).2 = Some a →
    a = Z.of_nat (length (compute walls lightPasses x y R).1).

(** ** Vocabulary of the visibility properties *)

(** Some tree registered at the corner [k] stands and blocks above [E]. *)
Definition tree_blocked (T : Terrain) (E : Z) (k : string) : Prop :=
  Exists (λ o, standing T (pt_key o) = true ∧
               below E (tree_elevations T !! pt_key o) = true)
         (default [] (tree_relations T !! k)).

(** [k] is in the FowBlocker set. *)
Definition fow_blocker (T : Terrain) (k : string) : Prop :=
  match ent_fow_blocker_node T with
  | Some fow => is_Some (fow !! k)
  | None => False
  end.

#[global] Instance tree_blocked_dec T E k : Decision (tree_blocked T E k).
Proof. unfold tree_blocked. apply _. Defined.

#[global] Instance fow_blocker_dec T k : Decision (fow_blocker T k).
Proof. unfold fow_blocker. destruct (ent_fow_blocker_node T); apply _. Defined.

(** The sweep [updateVisibility] runs for the origin [(gX, gY)] of
    elevation [E]. *)
Definition sweep_of (compute : fov_engine) (s : VisionSimulation) (T : Terrain)
    (g : gmap string cell) (E gX gY : Z) (radius0 : option Z) : list visit * option Z :=
  compute (treeWalls T !! E) (lightPassesCallback (prepare E g T s)) gX gY
          (or_else radius0 (radius s)).

(** Chebyshev distance between two cells. *)
Definition chebyshev (x y cx cy : Z) : Z := Z.max (Z.abs (cx - x)) (Z.abs (cy - y)).

(** The post-filter of [updateVisibility]: the visit [v] is a visible one,
    its cell has an elevation entry, is not a FowBlocker cell and is not a
    corner of a standing tree that blocks above [E]. *)
Definition lit (T : Terrain) (g : gmap string cell) (E : Z) (v : visit) : Prop :=
  let k := xy2key (Int (v_x v)) (Int (v_y v)) in
  v_vis v = 1 ∧ is_Some (g !! k) ∧ ¬ fow_blocker T k ∧ ¬ tree_blocked T E k.

#[global] Instance lit_dec T g E v : Decision (lit T g E v).
Proof. unfold lit. apply _. Defined.

(** The cell with key [k] is opaque at a level whose elevation walls are
    [ew] and whose tree walls are [tw]: it is an elevation wall, or holds at
    least one tree-wall descriptor, or is a FowBlocker cell. *)
Definition opaque_at (ew : gmap string cell) (tw : gmap string (list wall))
    (fow : gmap string point) (k : string) : Prop :=
  is_Some (ew !! k) ∨ default [] (tw !! k) ≠ [] ∨ is_Some (fow !! k).

(** The terrain with other GridNav and NoWards sets. *)
Definition set_validity (gn nw : option (gmap string point)) (T : Terrain) : Terrain :=
  {| grid := grid T; gridnav := gn;
     ent_fow_blocker_node := ent_fow_blocker_node T;
     tools_no_wards := nw; elevationValues := elevationValues T;
     elevationGrid := elevationGrid T; elevationWalls := elevationWalls T;
     treeWalls := treeWalls T; tree := tree T; tree_blocks := tree_blocks T;
     tree_relations := tree_relations T; tree_elevations := tree_elevations T;
     tree_state := tree_state T; walls := walls T; lights := lights T;
     area := area T |}.

(** ** Instances that are not ready *)

(** A completion that is a failure. *)
Definition fails {S A} (c : completion S A) : Prop :=
  match c with
  | Throw _ _ => True
  | Normal _ _ => False
  end.

(** An instance is not ready when it comes from the constructor, or from an
    [initialize] whose image has not been (or could not be) loaded, and it
    stays so under the operations. *)
Inductive unready_instance (compute : fov_engine) : VisionSimulation → Prop :=
  | unready_construct wd opts_radius :
      unready_instance compute (construct wd opts_radius)
  | unready_initialize s cache :
      unready_instance compute (state_of (initialize None s cache).1)
  | unready_perform s op :
      unready_instance compute s →
      unready_instance compute (perform compute op s).

(** The keys the "cache prime" loop of [initialize] writes. *)
Definition grid_key (W H : Z) (k : string) : Prop :=
  ∃ i j, 0 <= i < W ∧ 0 <= j < H ∧ k = xy2key (Int i) (Int j).

(** ** Sample instances *)

(** World bounds that give a 3 x 3 grid. *)
Definition small_world : worlddata :=
  {| wd_worldMinX := 0; wd_worldMinY := 0; wd_worldMaxX := 128; wd_worldMaxY := 128 |}.

(** A 15 x 3 image: elevation 10 everywhere but 20 at the top-right cell,
    one tree marker (red 10) in the middle of the tree band, and no pixel
    with a zero red channel in the three blocker bands. *)
Definition forest_image : image := λ x y,
  if decide (x < 3) then
    if decide (x = 2 ∧ y = 0) then (20, 20, 20) else (10, 10, 10)
  else if decide (x = 4 ∧ y = 1) then (10, 0, 0)
  else (255, 255, 255).

(** A 15 x 3 image of a flat map: elevation 10, no tree, no blocker. *)
Definition flat_image : image := λ x y,
  if decide (x < 3) then (10, 10, 10) else (255, 255, 255).

Definition forest : VisionSimulation :=
  state_of (initialize (Some forest_image) (construct small_world None) ∅).1.

Definition flat : VisionSimulation :=
  state_of (initialize (Some flat_image) (construct small_world None) ∅).1.

(** The terrain and the elevation grid of an instance that has them. *)
Definition terrain_of (s : VisionSimulation) : Terrain :=
  default reset_terrain (terrain s).

Definition grid_of (s : VisionSimulation) : gmap string cell :=
  default ∅ (elevationGrid (terrain_of s)).

(** An instance whose image is still loading. *)
Definition pending : VisionSimulation :=
  state_of (initialize None (construct small_world None) ∅).1.

(** An engine that visits nothing and returns the radius it was given. *)
Definition probe : fov_engine := λ _ _ _ _ R, ([], Some R).

(** ** Numbers the embedding is exact for

    The source computes with double-precision numbers; the embedding
    computes with integers.  The two agree as long as every number that
    occurs is an integer below [2^53] in absolute value (a "safe" integer:
    sums and differences are then exact, and [toString] prints all the
    digits, which it does below [10^21]).  The properties of the
    conversions below carry such a bound. *)
Definition within (n z : Z) : Prop := Z.abs z < 2 ^ n.
Definition safe_integer (z : Z) : Prop := within 53 z.

#[global] Instance within_dec n z : Decision (within n z).
Proof. unfold within. apply _. Defined.

(** ** World coordinates (lines 479-536) *)

(** [parseInt(Math.round(n / 64))] for an integer [n]: [Math.round] gives
    the nearest integer, a tie going up, and [parseInt] of an integer is
    that integer.  (Exact for a safe integer [n]: the quotient by 64 is
    then exact, and [parseInt] reads all the digits of the rounded
    number.) *)
Definition round64 (n : Z) : Z := (n + 32) / 64.

(** The [x] and [y] that [WorldXYtoGridXY(wX, wY)] computes for integer
    world coordinates when [bNoRound] is omitted or false.  (With
    [bNoRound] set the two quotients are returned as they are, which are
    not cells of the grid; that branch is not embedded.) *)
Definition world_cell (s : VisionSimulation) (wX wY : Z) : Z * Z :=
  (round64 (wX - worldMinX s), round64 (wY - worldMinY s)).

Definition WorldXYtoGridXY (s : VisionSimulation) (wX wY : Z) : point :=
  let '(x, y) := world_cell s wX wY in
  {| pt_x := Int x; pt_y := Int y;
     pt_key := to_string (Int x) +:+ "," +:+ to_string (Int y) |}.

Definition GridXYtoWorldXY (s : VisionSimulation) (gX gY : Z) : Z * Z :=
  (gX * 64 + worldMinX s, gY * 64 + worldMinY s).

(** [WorldXYtoImageXY] hands the [x] and [y] of the point
    [WorldXYtoGridXY] returns to [GridXYtoImageXY]. *)
Definition WorldXYtoImageXY (s : VisionSimulation) (wX wY : Z) : Z * Z :=
  let '(x, y) := world_cell s wX wY in GridXYtoImageXY s x y.

(** ** Vocabulary of the further properties *)

(** The integer [parseInt] reads in a printed number: an integer comes
    back, a half-integer loses its fraction towards zero. *)
Definition truncated (c : coord) : coord :=
  match c with
  | Int z => Int z
  | Half z => Int (if decide (0 <= z) then z else z + 1)
  | _ => NaN
  end.

(** The cell [(x, y)] lies in the grid of [s]. *)
Definition in_grid (s : VisionSimulation) (x y : Z) : Prop :=
  0 <= x < gridWidth s ∧ 0 <= y < gridHeight s.

#[global] Instance in_grid_dec s x y : Decision (in_grid s x y).
Proof. unfold in_grid. apply _. Defined.

(** The pixel of band number [band] (0 elevation, 1 trees, 2 GridNav,
    3 FowBlocker, 4 NoWards) that the scan hands over for the cell
    [(x, y)]: bands lie side by side and rows run from the top. *)
Definition band_pixel (s : VisionSimulation) (img : image) (band x y : Z) : pixel :=
  img (gridWidth s * band + x) (gridHeight s - y - 1).

(** A pixel of the tree band marks a tree when its green and blue
    channels are 0. *)
Definition tree_marker (p : pixel) : Prop := green p = 0 ∧ blue p = 0.

#[global] Instance tree_marker_dec p : Decision (tree_marker p).
Proof. unfold tree_marker. apply _. Defined.

(** What no operation on a ready instance assigns: the data read from the
    image, the tree registry but for the states, and the dimensions. *)
Definition static_terrain (T : Terrain) :=
  (grid T, gridnav T, ent_fow_blocker_node T, tools_no_wards T,
   elevationValues T, elevationGrid T,
   tree T, tree_blocks T, tree_relations T, tree_elevations T).

(** The part of a terrain that only [toggleTree] assigns, and the part
    that only [updateVisibility] assigns. *)
Definition tree_part (T : Terrain) := (tree_state T, treeWalls T).
Definition query_part (T : Terrain) := (elevationWalls T, walls T, lights T, area T).

(** The properties of an instance outside its terrain; the first six are
    assigned by the constructor and [setRadius] only. *)
Definition dimensions (s : VisionSimulation) :=
  (worldMinX s, worldMinY s, worldMaxX s, worldMaxY s, gridWidth s, gridHeight s).
Definition query_result (s : VisionSimulation) := (elevation s, lightArea s).

(** Some registered tree has a corner at the key [k]; every such tree is
    cut. *)
Definition tree_corner (T : Terrain) (k : string) : Prop :=
  ∃ p, p ∈ tree T ∧ corner_of k p.2.
Definition trees_cut (T : Terrain) (k : string) : Prop :=
  ∀ p, p ∈ tree T → corner_of k p.2 → standing T p.1 = false.

(** The memo cache serves the right point for every cell key it holds
    (cells with safe integer coordinates). *)
Definition cache_coherent (cache : gmap string point) : Prop :=
  ∀ x y pt, safe_integer x → safe_integer y →
    cache !! xy2key (Int x) (Int y) = Some pt → pt = xy2pt (Int x) (Int y).


(** * Properties *)

(** ** Keys are injective *)

Lemma str_all_app P a b : str_all P (a +:+ b) = str_all P a && str_all P b.
Proof. induction a as [|c a IH]; simpl; [done|]. by rewrite IH, andb_assoc. Qed.

Lemma str_all_impl (P Q : ascii → bool) s :
  (∀ c, P c = true → Q c = true) → str_all P s = true → str_all Q s = true.
Proof.
  intros HPQ. induction s as [|c s IH]; simpl; [done|].
  rewrite !andb_true_iff. intros [??]; auto.
Qed.

Lemma pretty_N_char_digit x : is_digit (pretty_N_char x) = true.
Proof. unfold pretty_N_char. by repeat case_match. Qed.

Lemma pretty_N_go_digits x s :
  str_all is_digit s = true → str_all is_digit (pretty_N_go x s) = true.
Proof.
  revert s. induction (N.lt_wf_0 x) as [x _ IH]; intros s Hs.
  destruct (decide (x = 0%N)) as [->|].
  - by rewrite pretty_N_go_0.
  - rewrite pretty_N_go_step by lia. apply IH.
    + apply N.div_lt; lia.
    + simpl. by rewrite pretty_N_char_digit.
Qed.

Lemma pretty_N_digits (n : N) : str_all is_digit (pretty n) = true.
Proof.
  unfold pretty, pretty_N. case_decide; [done|]. by apply pretty_N_go_digits.
Qed.

Lemma pretty_nonneg_digits (z : Z) : (0 <= z)%Z → str_all is_digit (pretty z) = true.
Proof.
  destruct z as [|p|p]; intros; [done| |lia]. apply (pretty_N_digits (N.pos p)).
Qed.

Lemma pretty_Z_chars (z : Z) : str_all is_int_char (pretty z) = true.
Proof.
  destruct z as [|p|p]; [done| |].
  - eapply str_all_impl, (pretty_N_digits (N.pos p)).
    intros c Hc. unfold is_int_char. by rewrite Hc.
  - change (pretty (Z.neg p)) with ("-" +:+ pretty (N.pos p)).
    simpl. eapply str_all_impl, (pretty_N_digits (N.pos p)).
    intros c Hc. unfold is_int_char. by rewrite Hc.
Qed.

Lemma split_at_inj (sep : ascii) a a' b b' :
  str_all (λ c, negb (Ascii.eqb c sep)) a = true →
  str_all (λ c, negb (Ascii.eqb c sep)) a' = true →
  a +:+ String sep b = a' +:+ String sep b' → a = a' ∧ b = b'.
Proof.
  revert a'. induction a as [|c a IH]; intros [|c' a']; simpl;
    rewrite ?andb_true_iff; intros Ha Ha' Heq.
  - by simplify_eq.
  - simplify_eq. destruct Ha' as [Hc _]. by rewrite Ascii.eqb_refl in Hc.
  - simplify_eq. destruct Ha as [Hc _]. by rewrite Ascii.eqb_refl in Hc.
  - simplify_eq. destruct Ha, Ha'. destruct (IH a') as [-> ->]; auto.
Qed.

Lemma int_char_not (sep : ascii) c :
  is_int_char sep = false → is_int_char c = true → not_char sep c = true.
Proof.
  intros Hsep Hc. unfold not_char. destruct (Ascii.eqb_spec c sep); [|done].
  congruence.
Qed.

Lemma pretty_Z_not (sep : ascii) (z : Z) :
  is_int_char sep = false → str_all (not_char sep) (pretty z) = true.
Proof.
  intros Hsep. eapply str_all_impl, pretty_Z_chars. intros c. by apply int_char_not.
Qed.

Lemma pretty_Z_num_chars (z : Z) : str_all is_num_char (pretty z) = true.
Proof.
  eapply str_all_impl, pretty_Z_chars. intros c Hc. unfold is_num_char. by rewrite Hc.
Qed.

Lemma to_string_no_comma c : str_all (not_char ",") (to_string c) = true.
Proof.
  destruct c as [z|z| |]; simpl; [by apply pretty_Z_not| |done|done].
  case_decide; simpl; rewrite !str_all_app, pretty_Z_not by done; done.
Qed.

Lemma to_string_Int_chars z : str_all is_num_char (to_string (Int z)) = true.
Proof. apply pretty_Z_num_chars. Qed.

Lemma to_string_Half_chars z : str_all is_num_char (to_string (Half z)) = true.
Proof.
  simpl. case_decide; simpl; rewrite !str_all_app, pretty_Z_num_chars; done.
Qed.

Lemma to_string_Half_dot z : str_all (not_char ".") (to_string (Half z)) = false.
Proof.
  simpl. case_decide; simpl; rewrite !str_all_app; simpl;
    by rewrite ?andb_false_r.
Qed.

Lemma pretty_nonneg_no_dash (z : Z) s : (0 <= z)%Z → pretty z +:+ ".5" ≠ "-" +:+ s.
Proof.
  intros Hz Heq. pose proof (pretty_nonneg_digits z Hz) as Hd.
  destruct (pretty z) as [|c r]; simpl in *; [done|].
  by simplify_eq.
Qed.

#[global] Instance to_string_inj : Inj (=) (=) to_string.
Proof.
  assert (∀ z s, (s = "NaN" ∨ s = "undefined") →
                 to_string (Int z) ≠ s ∧ to_string (Half z) ≠ s) as Hnum.
  { intros z s Hs. split; intros Heq.
    - pose proof (to_string_Int_chars z) as H. rewrite Heq in H.
      by destruct Hs as [-> | ->].
    - pose proof (to_string_Half_chars z) as H. rewrite Heq in H.
      by destruct Hs as [-> | ->]. }
  assert (∀ z z', to_string (Int z) ≠ to_string (Half z')) as Hih.
  { intros z z' Heq. pose proof (to_string_Half_dot z') as H.
    rewrite <- Heq in H. simpl in H. by rewrite pretty_Z_not in H. }
  intros [z|z| |] [z'|z'| |] Heq; try done.
  - f_equal. by apply (inj pretty).
  - by destruct (Hih z z').
  - by destruct (Hnum z "NaN") as [? _]; [left|].
  - by destruct (Hnum z "undefined") as [? _]; [right|].
  - by destruct (Hih z' z).
  - f_equal. simpl in Heq. repeat case_decide.
    + apply (split_at_inj ".") in Heq as [Heq _]; [|by apply pretty_Z_not..].
      by apply (inj pretty) in Heq.
    + by apply pretty_nonneg_no_dash in Heq.
    + symmetry in Heq. by apply pretty_nonneg_no_dash in Heq.
    + simpl in Heq. simplify_eq.
      match goal with H : _ +:+ _ = _ +:+ _ |- _ =>
        apply (split_at_inj ".") in H as [H _]; [|by apply pretty_Z_not..];
        apply (inj pretty) in H end.
      lia.
  - by destruct (Hnum z "NaN") as [_ ?]; [left|].
  - by destruct (Hnum z "undefined") as [_ ?]; [right|].
  - by destruct (Hnum z' "NaN") as [? _]; [left|].
  - by destruct (Hnum z' "NaN") as [_ ?]; [left|].
  - by destruct (Hnum z' "undefined") as [? _]; [right|].
  - by destruct (Hnum z' "undefined") as [_ ?]; [right|].
Qed.

Lemma xy2key_inj x y x' y' : xy2key x y = xy2key x' y' → x = x' ∧ y = y'.
Proof.
  unfold xy2key. intros Heq.
  apply (split_at_inj ",") in Heq as [Hx Hy]; [|by apply to_string_no_comma..].
  split; by apply (inj to_string).
Qed.


(** ** Elevation walls *)

Lemma lower_neighbour_spec data E c x y :
  c_x c = Int x → c_y c = Int y →
  lower_neighbour data E c = true ↔
  ∃ x' y' z', neighbour8 x y x' y' ∧ elevation_at data x' y' = Some z' ∧ z' <= E.
Proof.
  intros Hx Hy. unfold lower_neighbour. rewrite Hx, Hy. split.
  - intros H. apply existsb_exists in H as (i & Hi & H).
    apply existsb_exists in H as (j & Hj & H).
    apply andb_true_iff in H as [Hij H]. apply bool_decide_eq_true in Hij.
    simpl in H. unfold elevation_at.
    destruct (data !! xy2key (Int (x + i)) (Int (y + j))) as [q|] eqn:Hq; [|done].
    apply bool_decide_eq_true in H.
    exists (x + i), (y + j), (c_z q). rewrite Hq. split_and!; [|done..].
    apply list_elem_of_In in Hi, Hj. unfold neighbour8.
    set_unfold. lia.
  - intros (x' & y' & z' & (Hne & Hdx & Hdy) & Hz & Hle).
    apply existsb_exists. exists (x' - x). split.
    { apply list_elem_of_In. set_unfold. lia. }
    apply existsb_exists. exists (y' - y). split.
    { apply list_elem_of_In. set_unfold. lia. }
    apply andb_true_iff. split; [apply bool_decide_eq_true; lia|].
    simpl. replace (x + (x' - x)) with x' by lia.
    replace (y + (y' - y)) with y' by lia.
    unfold elevation_at in Hz.
    destruct (data !! xy2key (Int x') (Int y')) as [q|]; simplify_eq/=.
    by apply bool_decide_eq_true.
Qed.

(** What [generateElevationWalls] stores: the cells of [data] above the
    threshold that have a neighbour at or below it, each under its own key. *)
Lemma generateElevationWalls_lookup data E k c :
  grid_wf data →
  generateElevationWalls data E !! k = Some c ↔
  data !! k = Some c ∧ c_z c > E ∧ lower_neighbour data E c = true.
Proof.
  unfold generateElevationWalls.
  generalize (lower_neighbour data E). intros near. revert k c.
  apply (map_fold_weak_ind (λ walls m, ∀ k c, grid_wf m →
    walls !! k = Some c ↔ m !! k = Some c ∧ c_z c > E ∧ near c = true)).
  - intros k c _. rewrite !lookup_empty. split; [done | by intros [? _]].
  - intros i x m walls Hi IH k c Hwf.
    assert (grid_wf m) as Hwfm.
    { intros k' c' Hk'. apply Hwf. rewrite lookup_insert_ne; [done|]. congruence. }
    destruct (Hwf i x) as [Hkey _]; [by rewrite lookup_insert_eq|].
    destruct (decide (i = k)) as [->|Hne].
    + rewrite lookup_insert_eq. case_match eqn:Hc.
      * rewrite Hkey, lookup_insert_eq.
        apply andb_true_iff in Hc as [Hz Hn]. apply bool_decide_eq_true in Hz.
        split; [by intros [= ->] | by intros [? _]].
      * rewrite IH, Hi by done. apply andb_false_iff in Hc.
        rewrite bool_decide_eq_false in Hc.
        split; [by intros [? _]|]. intros ([= ->] & Hz & Hn).
        destruct Hc; [done | congruence].
    + rewrite (lookup_insert_ne m) by done. case_match.
      * rewrite Hkey, lookup_insert_ne by done. by apply IH.
      * by apply IH.
Qed.

Lemma generateElevationWalls_contour data E x y :
  grid_wf data →
  is_Some (generateElevationWalls data E !! xy2key (Int x) (Int y)) ↔
  on_contour data E x y.
Proof.
  intros Hwf. unfold on_contour, elevation_at, is_Some. split.
  - intros [c Hc]. apply generateElevationWalls_lookup in Hc as (Hc & Hz & Hn); [|done].
    destruct (Hwf _ _ Hc) as (_ & x0 & y0 & Hx & Hy & Hk).
    apply xy2key_inj in Hk as [??]; simplify_eq.
    exists (c_z c). rewrite Hc. split_and!; [done..|].
    by eapply lower_neighbour_spec.
  - intros (z & Hz & Hgt & Hn).
    destruct (data !! xy2key (Int x) (Int y)) as [c|] eqn:Hc; simplify_eq/=.
    exists c. apply generateElevationWalls_lookup; [done|]. split_and!; [done..|].
    destruct (Hwf _ _ Hc) as (_ & x0 & y0 & Hx & Hy & Hk).
    apply xy2key_inj in Hk as [??]; simplify_eq.
    by eapply lower_neighbour_spec.
Qed.

Lemma generateElevationWalls_dom data E k :
  grid_wf data →
  is_Some (generateElevationWalls data E !! k) →
  ∃ x y, k = xy2key (Int x) (Int y) ∧ on_contour data E x y.
Proof.
  intros Hwf [c Hc]. pose proof Hc as Hc'.
  apply generateElevationWalls_lookup in Hc as (Hd & _); [|done].
  destruct (Hwf _ _ Hd) as (_ & x & y & _ & _ & ->).
  exists x, y. split; [done|]. apply generateElevationWalls_contour; eauto.
Qed.

(** ** Loops *)

(** A fold keeps an invariant that may mention the elements already
    processed. *)
Lemma foldl_prefix_ind {A B} (P : list B → A → Prop) (f : A → B → A) l a :
  P [] a →
  (∀ pre x post a', l = pre ++ x :: post → P pre a' → P (pre ++ [x]) (f a' x)) →
  P l (foldl f a l).
Proof.
  intros H0 Hstep.
  cut (∀ post pre a', l = pre ++ post → P pre a' → P (pre ++ post) (foldl f a' post)).
  { intros Hcut. by apply (Hcut l [] a). }
  induction post as [|x post IH]; intros pre a' Hl Hpre; simpl.
  - by rewrite app_nil_r.
  - rewrite (assoc_L (++) pre [x] post : pre ++ x :: post = (pre ++ [x]) ++ post).
    apply IH; [by rewrite <- (assoc_L (++))|]. by eapply Hstep.
Qed.

(** The same for [forEach], when no iteration raises. *)
Lemma forEach_prefix_ind {S A} (P : list A → S → Prop) (f : A → M S unit) l s :
  P [] s →
  (∀ pre x post s', l = pre ++ x :: post → P pre s' →
     ∃ s'', f x s' = Normal tt s'' ∧ P (pre ++ [x]) s'') →
  ∃ s', forEach f l s = Normal tt s' ∧ P l s'.
Proof.
  intros H0 Hstep.
  cut (∀ post pre s0, l = pre ++ post → P pre s0 →
         ∃ s', forEach f post s0 = Normal tt s' ∧ P (pre ++ post) s').
  { intros Hcut. by apply (Hcut l [] s). }
  induction post as [|x post IH]; intros pre s0 Hl Hpre; simpl.
  - rewrite app_nil_r. by exists s0.
  - destruct (Hstep pre x post s0 Hl Hpre) as (s1 & Hf & H1).
    unfold bind. rewrite Hf.
    rewrite (assoc_L (++) pre [x] post : pre ++ x :: post = (pre ++ [x]) ++ post).
    apply IH; [by rewrite <- (assoc_L (++))|done].
Qed.

Lemma forEach_modify {S A} (g : A → S → S) l (s : S) :
  forEach (λ a, modify (g a)) l s = Normal tt (foldl (λ s a, g a s) s l).
Proof. revert s. induction l as [|a l IH]; intros s; [done|]. simpl. unfold bind. simpl. apply IH. Qed.

(** Appending [v] at every key of a duplicate-free list of keys. *)
Lemma foldl_push_lookup {A} (ks : list string) (v : A) (m : gmap string (list A)) k :
  NoDup ks →
  foldl (λ m k', push k' v m) m ks !! k =
  if decide (k ∈ ks) then Some (default [] (m !! k) ++ [v]) else m !! k.
Proof.
  revert m. induction ks as [|k0 ks IH]; intros m Hnd; simpl.
  - destruct (decide (k ∈ [])) as [Hin|]; [by apply elem_of_nil in Hin|done].
  - apply NoDup_cons in Hnd as [Hk0 Hnd]. rewrite IH by done.
    unfold push. destruct (decide (k = k0)) as [->|Hne].
    + rewrite lookup_insert_eq, decide_False, decide_True by set_solver. done.
    + rewrite lookup_insert_ne by done.
      destruct (decide (k ∈ ks)); [rewrite decide_True | rewrite decide_False];
        set_solver.
Qed.

(** The splice loop removes exactly the descriptors of the tree. *)
Lemma remove_walls_take pt n arr :
  (n ≤ length arr)%nat →
  remove_walls pt n arr = filter (λ d, ¬ wall_of pt d) (take n arr) ++ drop n arr.
Proof.
  revert arr. induction n as [|j IH]; intros arr Hn; simpl.
  - by rewrite drop_0.
  - destruct (lookup_lt_is_Some_2 arr j) as [d Hd]; [lia|]. rewrite Hd.
    rewrite (take_S_r _ _ _ Hd), filter_app.
    destruct (wall_of pt d) eqn:Hw.
    + rewrite IH by (rewrite length_delete; [lia|eauto]).
      rewrite delete_take_drop.
      rewrite take_app_le, take_take, Nat.min_id by (rewrite length_take; lia).
      rewrite drop_app_length' by (rewrite length_take; lia).
      rewrite filter_cons_False, filter_nil, app_nil_r; [done|].
      rewrite Hw. intros Hf. by apply Hf.
    + rewrite IH by lia. rewrite (drop_S _ _ _ Hd).
      rewrite filter_cons_True by (rewrite Hw; intros []).
      by rewrite <- (assoc_L (++)).
Qed.

Lemma remove_walls_filter pt arr :
  remove_walls pt (length arr) arr = filter (λ d, ¬ wall_of pt d) arr.
Proof. by rewrite remove_walls_take, firstn_all, drop_all, app_nil_r. Qed.

(** ** The band scan *)

Lemma elem_of_band_pixels W H i y :
  (i, y) ∈ band_pixels W H ↔ 0 <= i < W ∧ 0 <= y < H.
Proof.
  unfold band_pixels. rewrite list_elem_of_bind. split.
  - intros (y' & Hin & Hy). apply list_elem_of_bind in Hin as (i' & Hin & Hi).
    apply list_elem_of_singleton in Hin. simplify_eq.
    apply elem_of_seqZ in Hy, Hi. lia.
  - intros [Hi Hy]. exists y. split; [|apply elem_of_seqZ; lia].
    apply list_elem_of_bind. exists i. split; [by apply list_elem_of_singleton|].
    apply elem_of_seqZ; lia.
Qed.

Lemma NoDup_band_pixels W H : NoDup (band_pixels W H).
Proof.
  unfold band_pixels. apply NoDup_bind; [| |apply NoDup_seqZ].
  - intros y1 y2 p _ _ H1 H2.
    apply list_elem_of_bind in H1 as (? & H1 & _), H2 as (? & H2 & _).
    apply list_elem_of_singleton in H1, H2. by simplify_eq.
  - intros y _. apply NoDup_bind; [| |apply NoDup_seqZ].
    + intros i1 i2 p _ _ H1 H2. apply list_elem_of_singleton in H1, H2. by simplify_eq.
    + intros i _. apply NoDup_singleton.
Qed.

Lemma scan_band {A} img offset W H (h : Z → Z → pixel → A → A) acc :
  scan img offset W H h acc =
  foldl (λ acc p, h p.1 p.2 (img (offset + p.1) p.2) acc) acc (band_pixels W H).
Proof.
  unfold scan, band_pixels. revert acc.
  induction (seqZ 0 H) as [|y ys IH]; intros acc; [done|].
  rewrite bind_cons, foldl_app. cbn [foldl]. rewrite IH. f_equal.
  replace (seqZ offset W) with (Z.add offset <$> seqZ 0 W)
    by (by rewrite fmap_add_seqZ, Z.add_0_r).
  rewrite foldl_fmap. generalize (seqZ 0 W). clear. intros l. revert acc.
  induction l as [|i l IH]; intros acc; [done|].
  cbn. rewrite <- IH. do 3 f_equal. lia.
Qed.

(** ** What [initialize] builds *)

(** *** The elevation band *)

Lemma elevation_band s img W H :
  let r := scan img 0 W H (elevationPixelHandler s) (∅, []) in
  (∀ k c, r.1 !! k = Some c ↔
     ∃ i y, (i, y) ∈ band_pixels W H ∧ c = grid_cell s img i y ∧ k = c_key c) ∧
  NoDup r.2 ∧
  (∀ L, L ∈ r.2 ↔ ∃ i y, (i, y) ∈ band_pixels W H ∧ red (img i y) = L).
Proof.
  intros r. unfold r. rewrite scan_band.
  apply (foldl_prefix_ind (λ pre (acc : gmap string cell * list Z),
    (∀ k c, acc.1 !! k = Some c ↔
       ∃ i y, (i, y) ∈ pre ∧ c = grid_cell s img i y ∧ k = c_key c) ∧
    NoDup acc.2 ∧
    (∀ L, L ∈ acc.2 ↔ ∃ i y, (i, y) ∈ pre ∧ red (img i y) = L))).
  - simpl. split_and!.
    + intros k c. rewrite lookup_empty. split; [done|].
      intros (i & y & Hin & _). by apply elem_of_nil in Hin.
    + constructor.
    + intros L. split; [by intros ?%elem_of_nil|].
      intros (i & y & Hin & _). by apply elem_of_nil in Hin.
  - intros pre [i y] post [g ev] _ (Hg & Hnd & Hev). cbn [fst snd] in *.
    unfold elevationPixelHandler. cbn [fst snd]. split_and!.
    + intros k c. fold (grid_cell s img i y).
      change (xy2key (c_x (grid_cell s img i y)) (c_y (grid_cell s img i y)))
        with (c_key (grid_cell s img i y)).
      destruct (decide (k = c_key (grid_cell s img i y))) as [->|Hne].
      * rewrite lookup_insert_eq. split.
        -- intros [= <-]. exists i, y. split_and!; [|done..].
           apply elem_of_app. right. by apply list_elem_of_singleton.
        -- intros (i' & y' & _ & -> & Hk). f_equal.
           apply xy2key_inj in Hk as [[= ->] [= Hy]].
           by replace y' with y by lia.
      * rewrite lookup_insert_ne by done. rewrite Hg. split.
        -- intros (i' & y' & Hin & ? & ?). exists i', y'. split_and!; [|done..].
           apply elem_of_app. by left.
        -- intros (i' & y' & Hin & -> & ->). exists i', y'. split_and!; [|done..].
           apply elem_of_app in Hin as [?|Hin]; [done|].
           apply list_elem_of_singleton in Hin. by simplify_eq.
    + case_decide; [done|]. apply NoDup_app. split_and!; [done| |apply NoDup_singleton].
      intros L HL ->%list_elem_of_singleton. done.
    + intros L. case_decide as Hin.
      * rewrite Hev. split.
        -- intros (i' & y' & ? & ?). exists i', y'. split; [|done].
           apply elem_of_app. by left.
        -- intros (i' & y' & [?|Heq%list_elem_of_singleton]%elem_of_app & HL); [by eauto|].
           simplify_eq. by apply Hev.
      * rewrite elem_of_app, list_elem_of_singleton, Hev. split.
        -- intros [(i' & y' & ? & ?)| ->].
           ++ exists i', y'. split; [|done]. apply elem_of_app. by left.
           ++ exists i, y. split; [|done]. apply elem_of_app. right.
              by apply list_elem_of_singleton.
        -- intros (i' & y' & [?|Heq%list_elem_of_singleton]%elem_of_app & HL); [by eauto|].
           simplify_eq. by right.
Qed.

Lemma grid_cell_wf s img i y :
  c_key (grid_cell s img i y) = xy2key (Int i) (Int (gridHeight s - y - 1)) ∧
  c_x (grid_cell s img i y) = Int i ∧
  c_y (grid_cell s img i y) = Int (gridHeight s - y - 1).
Proof. done. Qed.

(** *** The tree band *)

Lemma alist_set_fresh {A} k (v : A) l : k ∉ l.*1 → alist_set k v l = l ++ [(k, v)].
Proof.
  induction l as [|[k' v'] l IH]; intros Hk; simpl; [done|].
  rewrite fmap_cons, not_elem_of_cons in Hk. destruct Hk as [Hne Hk].
  rewrite decide_False by done. by rewrite IH.
Qed.

Lemma tree_corners_half a b :
  tree_corners (xy2pt (Half a) (Half b)) =
  [xy2pt (Int a) (Int b); xy2pt (Int a) (Int (b + 1));
   xy2pt (Int (a + 1)) (Int b); xy2pt (Int (a + 1)) (Int (b + 1))].
Proof. done. Qed.

Lemma corner_key a b c :
  c ∈ tree_corners (xy2pt (Half a) (Half b)) → pt_key c = xy2key (pt_x c) (pt_y c).
Proof.
  rewrite tree_corners_half. rewrite !elem_of_cons, elem_of_nil.
  intros [->|[->|[->|[->|[]]]]]; done.
Qed.

Lemma corner_keys_nodup a b :
  NoDup (pt_key <$> tree_corners (xy2pt (Half a) (Half b))).
Proof.
  rewrite tree_corners_half. cbn [fmap list_fmap pt_key xy2pt].
  repeat (apply NoDup_cons; split);
    [..|apply NoDup_nil_2]; set_unfold;
    intros H; repeat destruct H as [H|H]; try done;
    apply (xy2key_inj (Int _) (Int _) (Int _) (Int _)) in H as [[=] [=]]; lia.
Qed.

Lemma tree_origin_half s i y :
  tree_origin s i y = xy2pt (Half (i - 1)) (Half (gridHeight s - y - 1 - 1)).
Proof. done. Qed.

Lemma tree_origin_inj s i y i' y' :
  pt_key (tree_origin s i y) = pt_key (tree_origin s i' y') → i = i' ∧ y = y'.
Proof.
  rewrite !tree_origin_half. intros H.
  apply (xy2key_inj (Half _) (Half _) (Half _) (Half _)) in H as [[=] [=]]. lia.
Qed.

Lemma tree_band s img offset W H :
  let T := scan img offset W H (treeElevationPixelHandler s) reset_terrain in
  registry_ok T ∧
  (∀ p, p ∈ tree T → tree_state T !! p.1 = Some true) ∧
  outside_registry T = outside_registry reset_terrain.
Proof.
  intros T. unfold T. rewrite scan_band. clear T.
  pose proof (NoDup_band_pixels W H) as Hnd.
  cut (let T := foldl (λ acc p, treeElevationPixelHandler s p.1 p.2 (img (offset + p.1) p.2) acc)
                  reset_terrain (band_pixels W H) in
       (registry_ok T ∧
        (∀ p, p ∈ tree T → tree_state T !! p.1 = Some true) ∧
        outside_registry T = outside_registry reset_terrain) ∧
       (∀ kC, kC ∈ (tree T).*1 →
          ∃ i y, (i, y) ∈ band_pixels W H ∧ kC = pt_key (tree_origin s i y))).
  { intros [? _]. done. }
  apply (foldl_prefix_ind (λ pre T,
    (registry_ok T ∧
     (∀ p, p ∈ tree T → tree_state T !! p.1 = Some true) ∧
     outside_registry T = outside_registry reset_terrain) ∧
    (∀ kC, kC ∈ (tree T).*1 →
       ∃ i y, (i, y) ∈ pre ∧ kC = pt_key (tree_origin s i y)))).
  - split; [split_and!|].
    + split; simpl.
      * constructor.
      * intros ?? Hin. by apply elem_of_nil in Hin.
      * intros ?? Hin. by apply elem_of_nil in Hin.
      * intros k. by rewrite lookup_empty.
    + intros p Hin. by apply elem_of_nil in Hin.
    + done.
    + intros kC Hin. by apply elem_of_nil in Hin.
  - intros pre [i y] post T Hl ((Hreg & Hst & Hout) & Hkeys).
    cbn [fst snd]. unfold treeElevationPixelHandler.
    case_decide as Hmark; cycle 1.
    { split; [done|]. intros kC Hin. destruct (Hkeys kC Hin) as (i' & y' & ? & ?).
      exists i', y'. split; [|done]. apply elem_of_app. by left. }
    fold (tree_origin s i y). set (o := tree_origin s i y).
    assert (pt_key o ∉ (tree T).*1) as Hfresh.
    { intros Hin. destruct (Hkeys _ Hin) as (i' & y' & Hpre & Heq).
      apply tree_origin_inj in Heq as [-> ->].
      rewrite Hl in Hnd. apply NoDup_app in Hnd as (_ & Hnd & _).
      apply (Hnd _ Hpre). by left. }
    rewrite alist_set_fresh by done.
    destruct Hreg as [R1 R2 R3 R4].
    split; [split_and!|]; cbn [tree tree_blocks tree_relations tree_elevations tree_state].
    + split; cbn [tree tree_blocks tree_relations tree_elevations tree_state].
      * rewrite fmap_app. apply NoDup_app. split_and!; [done| |apply NoDup_singleton].
        intros k Hk ->%list_elem_of_singleton. done.
      * intros kC o' [Hin|Hin%list_elem_of_singleton]%elem_of_app; [by eauto|].
        simplify_eq. split; [done|]. unfold o. rewrite tree_origin_half. eauto.
      * intros kC o' [Hin|Hin%list_elem_of_singleton]%elem_of_app.
        -- assert (kC ≠ pt_key o) as Hne.
           { intros ->. apply Hfresh. apply list_elem_of_fmap. by exists (pt_key o, o'). }
           rewrite !lookup_insert_ne by done. by apply R3.
        -- simplify_eq. rewrite !lookup_insert_eq. eauto.
      * intros k. rewrite fmap_app, filter_app, <- R4.
        rewrite <- (foldl_fmap (λ rel k', push k' o rel) (tree_relations T) (tree_corners o) pt_key).
        rewrite foldl_push_lookup by (unfold o; rewrite tree_origin_half; apply corner_keys_nodup).
        cbn [fmap list_fmap snd]. case_decide as Hk.
        -- by rewrite filter_cons_True, filter_nil by done.
        -- by rewrite filter_cons_False, filter_nil, app_nil_r by done.
    + intros p [Hin|Hin%list_elem_of_singleton]%elem_of_app.
      * assert (p.1 ≠ pt_key o) as Hne.
        { intros Heq. apply Hfresh. rewrite <- Heq. apply list_elem_of_fmap. by exists p. }
        rewrite lookup_insert_ne by done. by apply Hst.
      * simplify_eq. cbn [fst]. by rewrite lookup_insert_eq.
    + exact Hout.
    + intros kC. rewrite fmap_app, elem_of_app.
      intros [Hin|Hin%list_elem_of_singleton].
      * destruct (Hkeys kC Hin) as (i' & y' & ? & ?).
        exists i', y'. split; [|done]. apply elem_of_app. by left.
      * simplify_eq/=. exists i, y. split; [|done]. apply elem_of_app. right.
        by apply list_elem_of_singleton.
Qed.

(** ** Tree walls at initialisation *)

Lemma descriptor_inj T p q :
  registry_ok T → p ∈ tree T → q ∈ tree T → descriptor p.2 = descriptor q.2 → p = q.
Proof.
  intros Hreg Hp Hq Hd. destruct p as [kp op], q as [kq oq].
  destruct (reg_origin T Hreg kp op Hp) as (-> & a & b & ->).
  destruct (reg_origin T Hreg kq oq Hq) as (-> & a' & b' & ->).
  cbn in Hd. by simplify_eq.
Qed.

Lemma NoDup_tree T : registry_ok T → NoDup (tree T).
Proof. intros Hreg. eapply NoDup_fmap_1, reg_nodup, Hreg. Qed.

Lemma NoDup_expected_walls T L k : registry_ok T → NoDup (expected_walls T L k).
Proof.
  intros Hreg. unfold expected_walls. apply NoDup_fmap_2_strong.
  - intros p q Hp%list_elem_of_filter Hq%list_elem_of_filter Hd.
    eapply descriptor_inj; naive_solver.
  - apply NoDup_filter. by apply NoDup_tree.
Qed.

Lemma elem_of_expected_walls T L k d :
  d ∈ expected_walls T L k ↔ ∃ p, p ∈ tree T ∧ qualifies T L k p ∧ d = descriptor p.2.
Proof.
  unfold expected_walls. rewrite list_elem_of_fmap. split.
  - intros (p & -> & Hp%list_elem_of_filter). naive_solver.
  - intros (p & Hp & Hq & ->). exists p. split; [done|]. by apply list_elem_of_filter.
Qed.

(** [setTreeWalls] on a fresh object never raises and leaves at each key
    the descriptors of the qualifying trees, in registration order. *)
Lemma setTreeWalls_spec T L :
  registry_ok T →
  ∃ obj,
    setTreeWalls L (tree T) (tree_elevations T) (tree_state T) (tree_blocks T) ∅
      = Normal tt obj ∧
    ∀ k, default [] (obj !! k) = expected_walls T L k ∧
         (is_Some (obj !! k) ↔ ∃ p, p ∈ tree T ∧ qualifies T L k p).
Proof.
  intros Hreg. unfold setTreeWalls, expected_walls.
  apply (forEach_prefix_ind (λ pre obj, ∀ k,
    default [] (obj !! k) = (λ p, descriptor p.2) <$> filter (qualifies T L k) pre ∧
    (is_Some (obj !! k) ↔ ∃ p, p ∈ pre ∧ qualifies T L k p))).
  { intros k. rewrite lookup_empty. split; [done|]. split; [by intros [??]|].
    intros (p & Hp & _). by apply elem_of_nil in Hp. }
  intros pre [kC o] post obj Hl IH.
  assert ((kC, o) ∈ tree T) as Hin.
  { rewrite Hl. apply elem_of_app. right. by left. }
  destruct (reg_origin T Hreg kC o Hin) as (-> & a & b & ->).
  destruct (reg_fields T Hreg _ _ Hin) as (Hblocks & _ & _).
  set (o := xy2pt (Half a) (Half b)) in *.
  assert (∀ k, ¬ qualifies T L k (pt_key o, o) →
    default [] (obj !! k) =
      (λ p, descriptor p.2) <$> filter (qualifies T L k) (pre ++ [(pt_key o, o)]) ∧
    (is_Some (obj !! k) ↔ ∃ p, p ∈ pre ++ [(pt_key o, o)] ∧ qualifies T L k p)) as Hskip.
  { intros k Hq. destruct (IH k) as [IH1 IH2].
    rewrite filter_app, filter_cons_False, filter_nil, app_nil_r by done.
    split; [done|]. rewrite IH2. split.
    - intros (p & ? & ?). exists p. split; [|done]. apply elem_of_app. by left.
    - intros (p & [?|Heq%list_elem_of_singleton]%elem_of_app & ?); [by eauto|by subst]. }
  destruct (below L (tree_elevations T !! pt_key o)) eqn:Hbelow; cycle 1.
  { eexists. split; [done|]. intros k. apply Hskip. intros (_ & Hb & _).
    cbn [fst] in Hb. congruence. }
  destruct (default false (tree_state T !! pt_key o)) eqn:Hstand; cycle 1.
  { eexists. split; [done|]. intros k. apply Hskip. intros (Hs & _).
    unfold standing in Hs. cbn [fst] in Hs. congruence. }
  rewrite Hblocks. unfold bind, deref, ret.
  rewrite forEach_modify. eexists. split; [done|]. intros k.
  rewrite <- (foldl_fmap (λ obj' k', push k' (TreeWall (pt_x o) (pt_y o)) obj') obj
                (tree_corners o) (λ pt, xy2key (pt_x pt) (pt_y pt))).
  change ((λ pt, xy2key (pt_x pt) (pt_y pt)) <$> tree_corners o)
    with (pt_key <$> tree_corners o).
  rewrite foldl_push_lookup by apply corner_keys_nodup.
  case_decide as Hk; [|by apply Hskip; intros (_ & _ & ?)].
  destruct (IH k) as [IH1 IH2].
  assert (qualifies T L k (pt_key o, o)) as Hq by done.
  cbn [default]. rewrite IH1.
  rewrite filter_app, filter_cons_True, filter_nil, fmap_app by done.
  split; [done|]. split; [|by eauto].
  intros _. exists (pt_key o, o). split; [|done]. apply elem_of_app. right. by left.
Qed.

Lemma init_treeWalls_spec T L :
  registry_ok T →
  ∃ obj,
    init_treeWalls L T = Normal tt (set_treeWalls (<[L := obj]> (treeWalls T)) T) ∧
    ∀ k, default [] (obj !! k) = expected_walls T L k ∧
         (is_Some (obj !! k) ↔ ∃ p, p ∈ tree T ∧ qualifies T L k p).
Proof.
  intros Hreg. destruct (setTreeWalls_spec T L Hreg) as (obj & Hobj & Hspec).
  exists obj. unfold init_treeWalls. by rewrite Hobj.
Qed.

Lemma registry_ok_set_treeWalls m T : registry_ok T → registry_ok (set_treeWalls m T).
Proof. intros []. by split. Qed.

Lemma init_treeWalls_loop T :
  registry_ok T →
  ∃ m,
    forEach init_treeWalls (elevationValues T) T = Normal tt (set_treeWalls m T) ∧
    ∀ L, L ∈ elevationValues T →
      ∃ obj, m !! L = Some obj ∧
        ∀ k, default [] (obj !! k) = expected_walls T L k ∧
             (is_Some (obj !! k) ↔ ∃ p, p ∈ tree T ∧ qualifies T L k p).
Proof.
  intros Hreg.
  destruct (forEach_prefix_ind (λ pre T', ∃ m,
      T' = set_treeWalls m T ∧
      ∀ L, L ∈ pre →
        ∃ obj, m !! L = Some obj ∧
          ∀ k, default [] (obj !! k) = expected_walls T L k ∧
               (is_Some (obj !! k) ↔ ∃ p, p ∈ tree T ∧ qualifies T L k p))
    init_treeWalls (elevationValues T) T) as (T' & Hrun & m & -> & Hm).
  - exists (treeWalls T). split; [by destruct T|].
    intros L HL. by apply elem_of_nil in HL.
  - intros pre L post T' _ (m & -> & Hm).
    destruct (init_treeWalls_spec (set_treeWalls m T) L) as (obj & Hobj & Hspec);
      [by apply registry_ok_set_treeWalls|].
    eexists. split; [exact Hobj|]. eexists. split; [done|].
    cbn [treeWalls set_treeWalls].
    intros L' [HL'|HL'%list_elem_of_singleton]%elem_of_app.
    + destruct (decide (L' = L)) as [->|Hne].
      * exists obj. by rewrite lookup_insert_eq.
      * rewrite lookup_insert_ne by done. by apply Hm.
    + subst. exists obj. by rewrite lookup_insert_eq.
  - by exists m.
Qed.

(** ** A successful [initialize] gives a ready instance *)

Lemma initialize_ok img s0 cache :
  ∃ s T g,
    (initialize (Some img) s0 cache).1 = Normal tt s ∧ instance_ok s T g ∧
    gridWidth s = gridWidth s0 ∧ gridHeight s = gridHeight s0 ∧
    radius s = radius s0 ∧ elevationWalls T = ∅ ∧
    ∀ p, p ∈ tree T → tree_state T !! p.1 = Some true.
Proof.
  unfold initialize, load_terrain.
  set (s' := set_terrain reset_terrain (set_ready false s0)).
  set (W := gridWidth s0). set (H := gridHeight s0).
  change (gridWidth s') with W. change (gridHeight s') with H.
  destruct (tree_band s' img W W H) as (Hreg & Hst & Hout).
  set (T1 := scan img W W H (treeElevationPixelHandler s') reset_terrain) in *.
  assert (elevationValues T1 = [] ∧ elevationWalls T1 = ∅) as [Hev0 Hew0].
  { unfold outside_registry in Hout. by simplify_eq. }
  rewrite Hev0.
  destruct (elevation_band s' img W H) as (Hg & Hnd & Hev).
  set (eg := scan img 0 W H (elevationPixelHandler s') (∅, [])) in *.
  match goal with |- context [forEach init_treeWalls _ ?T] => set (T2 := T) end.
  assert (registry_ok T2) as Hreg2 by (by destruct Hreg).
  destruct (init_treeWalls_loop T2 Hreg2) as (m & Hrun & Hm).
  change (elevationValues T2) with eg.2 in Hrun, Hm. rewrite Hrun.
  set (T := set_grid (prime_grid W H) (set_treeWalls m T2)).
  exists (set_ready true (set_terrain T s')), T, eg.1.
  split; [done|]. split_and!; [|done..|exact Hst].
  split; try done.
  - intros k c Hc. apply Hg in Hc as (i & y & _ & -> & ->).
    split; [done|]. by exists i, (H - y - 1).
  - intros x y. change (gridWidth _) with W. change (gridHeight _) with H. split.
    + intros [c Hc]. apply Hg in Hc as (i & y' & Hin & -> & Hk).
      apply elem_of_band_pixels in Hin.
      apply (xy2key_inj (Int _) (Int _) (Int _) (Int _)) in Hk as [[=] [= Hy]].
      unfold W, H in *. lia.
    + intros [Hx Hy]. exists (grid_cell s' img x (H - y - 1)).
      apply Hg. exists x, (H - y - 1). split_and!; [|done|].
      * apply elem_of_band_pixels. lia.
      * destruct (grid_cell_wf s' img x (H - y - 1)) as (-> & _).
        change (gridHeight s') with H. do 2 f_equal. lia.
  - intros k c Hc. apply Hg in Hc as (i & y & Hin & -> & _).
    apply Hev. by exists i, y.
  - pose proof (registry_ok_set_treeWalls m _ Hreg2) as Hreg3.
    clear -Hreg3. destruct Hreg3. by split.
  - split; [done|]. intros L HL. destruct (Hm L HL) as (obj & Hobj & Hspec).
    exists obj. split; [done|]. intros k. destruct (Hspec k) as [Hl Hsome].
    split_and!.
    + intros p Hp Hb Hc. apply Hsome. exists p. split; [done|].
      split_and!; [|done..]. unfold standing. cbn. by rewrite (Hst p Hp).
    + rewrite Hl. by apply NoDup_expected_walls.
    + intros d. by rewrite Hl.
  - intros E w. cbn. rewrite Hew0, lookup_empty. done.
Qed.

(** ** [toggleTree] *)

Lemma set_treeWalls_id T : set_treeWalls (treeWalls T) T = T.
Proof. by destruct T. Qed.

(** A loop over corners that rewrites the entry of each at level [L]. *)
Lemma forEach_patch (body : point → M Terrain unit) (h : option (list wall) → list wall)
    (ok : option (list wall) → Prop) L (cs : list point) T tw :
  NoDup (pt_key <$> cs) →
  treeWalls T !! L = Some tw →
  (∀ c, c ∈ cs → ok (tw !! pt_key c)) →
  (∀ c T' twp, treeWalls T' !! L = Some twp → ok (twp !! pt_key c) →
     body c T' = Normal tt
       (set_treeWalls (<[L := <[pt_key c := h (twp !! pt_key c)]> twp]> (treeWalls T')) T')) →
  ∃ twf,
    forEach body cs T = Normal tt (set_treeWalls (<[L := twf]> (treeWalls T)) T) ∧
    ∀ k, twf !! k = if decide (k ∈ pt_key <$> cs) then Some (h (tw !! k)) else tw !! k.
Proof.
  intros Hnd Htw Hok Hbody.
  destruct (forEach_prefix_ind (λ pre T', ∃ twp,
      T' = set_treeWalls (<[L := twp]> (treeWalls T)) T ∧
      ∀ k, twp !! k = if decide (k ∈ pt_key <$> pre) then Some (h (tw !! k)) else tw !! k)
    body cs T) as (T' & Hrun & twf & -> & Hf).
  - exists tw. split; [by rewrite insert_id, set_treeWalls_id|done].
  - intros pre c post T' Hl (twp & -> & Hp).
    assert (pt_key c ∉ pt_key <$> pre) as Hfresh.
    { pose proof Hnd as Hnd'. rewrite Hl in Hnd'.
      rewrite (fmap_app pt_key pre (c :: post)) in Hnd'.
      apply NoDup_app in Hnd' as (_ & Hnd' & _). intros Hin.
      apply (Hnd' _ Hin). by left. }
    assert (twp !! pt_key c = tw !! pt_key c) as Hc by (by rewrite Hp, decide_False).
    eexists. split.
    { apply (Hbody c _ twp); [by cbn; rewrite lookup_insert_eq|].
      rewrite Hc. apply Hok. rewrite Hl. apply elem_of_app. right. by left. }
    eexists. split; [by cbn; rewrite insert_insert_eq|].
    intros k. destruct (decide (k = pt_key c)) as [->|Hne].
    + rewrite lookup_insert_eq, Hc, decide_True; [done|].
      rewrite fmap_app. apply elem_of_app. right. by left.
    + rewrite lookup_insert_ne, Hp by done.
      destruct (decide (k ∈ pt_key <$> pre)) as [Hin|Hnin].
      * rewrite decide_True; [done|]. rewrite fmap_app. apply elem_of_app. by left.
      * rewrite decide_False; [done|]. rewrite fmap_app, elem_of_app.
        intros [?|Hs%list_elem_of_singleton]; done.
  - by exists twf.
Qed.

Lemma wall_of_descriptor a b d :
  wall_of (xy2pt (Half a) (Half b)) d = true ↔ d = descriptor (xy2pt (Half a) (Half b)).
Proof.
  destruct d as [x y]. unfold wall_of, descriptor. cbn.
  rewrite andb_true_iff. split.
  - intros [Hx Hy]. destruct x, y; try done.
    apply bool_decide_eq_true in Hx, Hy. by subst.
  - intros [= -> ->]. by rewrite !bool_decide_eq_true_2.
Qed.

(** The body of the loop over the elevation levels, for a registered
    tree. *)
Lemma toggle_walls_spec T a b L tw :
  let o := xy2pt (Half a) (Half b) in
  tree_blocks T !! pt_key o = Some (tree_corners o) →
  treeWalls T !! L = Some tw →
  (below L (tree_elevations T !! pt_key o) = true →
   ∀ k, corner_of k o → is_Some (tw !! k)) →
  ∃ tw',
    toggle_walls o L T = Normal tt (set_treeWalls (<[L := tw']> (treeWalls T)) T) ∧
    ∀ k, tw' !! k =
      if decide (below L (tree_elevations T !! pt_key o) = true ∧ corner_of k o)
      then Some (patch_entry o (standing T (pt_key o)) (default [] (tw !! k)))
      else tw !! k.
Proof.
  intros o Hblocks Htw Hsome. unfold toggle_walls, bind, get.
  destruct (below L (tree_elevations T !! pt_key o)) eqn:Hbelow; cycle 1.
  { exists tw. split; [by rewrite insert_id, set_treeWalls_id|].
    intros k. rewrite decide_False; [done|]. by intros [? _]. }
  rewrite Hblocks. cbn [deref ret].
  pose proof (corner_keys_nodup a b) as Hnd. fold o in Hnd.
  match goal with |- context [forEach ?body (tree_corners o) T] =>
    destruct (forEach_patch body
                (λ e, remove_walls o (length (default [] e)) (default [] e))
                is_Some L (tree_corners o) T tw Hnd Htw) as (tw1 & -> & H1)
  end.
  { intros c Hc. apply Hsome; [done|]. by apply list_elem_of_fmap_2. }
  { intros c T' twp HT' [arr Harr]. unfold bind, get.
    rewrite HT'. cbn [deref ret]. rewrite Harr. done. }
  cbn [tree_state set_treeWalls].
  change (default false (tree_state T !! pt_key o)) with (standing T (pt_key o)).
  destruct (standing T (pt_key o)) eqn:Hst.
  - match goal with |- context [forEach ?body (tree_corners o) ?T1] =>
      destruct (forEach_patch body (λ e, default [] e ++ [descriptor o]) (λ _, True)
                  L (tree_corners o) T1 tw1 Hnd) as (tw2 & -> & H2)
    end.
    { by cbn; rewrite lookup_insert_eq. }
    { done. }
    { intros c T' twp HT' _. unfold bind, get. rewrite HT'. done. }
    exists tw2. split; [by cbn; rewrite insert_insert_eq|].
    intros k. rewrite H2, H1. unfold corner_of.
    destruct (decide (k ∈ pt_key <$> tree_corners o)).
    + rewrite decide_True by done. cbn [default]. unfold patch_entry.
      by rewrite remove_walls_filter.
    + rewrite decide_False; [done|]. by intros [_ ?].
  - exists tw1. split; [done|]. intros k. rewrite H1. unfold corner_of.
    destruct (decide (k ∈ pt_key <$> tree_corners o)).
    + rewrite decide_True by done. unfold patch_entry.
      by rewrite remove_walls_filter, app_nil_r.
    + rewrite decide_False; [done|]. by intros [_ ?].
Qed.

(** One iteration of the loop over [treePts]: the tree is flipped and its
    four corner entries are patched at every level it reaches above. *)
Lemma toggle_tree_spec T a b :
  let o := xy2pt (Half a) (Half b) in
  let flip := negb (standing T (pt_key o)) in
  registry_ok T → walls_ok T → (pt_key o, o) ∈ tree T →
  ∃ m,
    toggle_tree o T =
      Normal tt (set_treeWalls m
        (set_tree_state (<[pt_key o := flip]> (tree_state T)) T)) ∧
    (∀ L, L ∉ elevationValues T → m !! L = treeWalls T !! L) ∧
    (∀ L, L ∈ elevationValues T →
       ∃ tw tw', treeWalls T !! L = Some tw ∧ m !! L = Some tw' ∧
         ∀ k, tw' !! k =
           if decide (below L (tree_elevations T !! pt_key o) = true ∧ corner_of k o)
           then Some (patch_entry o flip (default [] (tw !! k)))
           else tw !! k).
Proof.
  intros o flip Hreg [Hnd Hwalls] Hin.
  unfold toggle_tree, bind, modify, get.
  change (default false (tree_state T !! pt_key o)) with (standing T (pt_key o)).
  fold flip. set (T1 := set_tree_state (<[pt_key o := flip]> (tree_state T)) T).
  change (elevationValues T1) with (elevationValues T).
  destruct (reg_fields T Hreg _ _ Hin) as (Hblocks & _ & _).
  destruct (forEach_prefix_ind (λ pre T', ∃ m,
      T' = set_treeWalls m T1 ∧
      (∀ L, L ∉ pre → m !! L = treeWalls T !! L) ∧
      (∀ L, L ∈ pre →
         ∃ tw tw', treeWalls T !! L = Some tw ∧ m !! L = Some tw' ∧
           ∀ k, tw' !! k =
             if decide (below L (tree_elevations T !! pt_key o) = true ∧ corner_of k o)
             then Some (patch_entry o flip (default [] (tw !! k)))
             else tw !! k))
    (toggle_walls o) (elevationValues T) T1) as (T' & Hrun & m & -> & Hout & Hin').
  - exists (treeWalls T). split_and!; [done|done|].
    intros L HL. by apply elem_of_nil in HL.
  - intros pre L post T' Hl (m & -> & Hout & Hin').
    assert (L ∉ pre) as Hfresh.
    { rewrite Hl in Hnd. apply NoDup_app in Hnd as (_ & Hnd & _).
      intros HL. apply (Hnd _ HL). by left. }
    assert (L ∈ elevationValues T) as HL.
    { rewrite Hl. apply elem_of_app. right. by left. }
    destruct (Hwalls L HL) as (tw & Htw & Hk).
    destruct (toggle_walls_spec (set_treeWalls m T1) a b L tw) as (tw' & Hrun & Htw').
    { exact Hblocks. }
    { cbn. by rewrite Hout. }
    { intros Hb k Hc. destruct (Hk k) as (Hsome & _). by apply (Hsome (pt_key o, o)). }
    eexists. split; [exact Hrun|]. exists (<[L := tw']> m). split_and!; [done|..].
    + intros L' HL'. rewrite not_elem_of_app, not_elem_of_cons in HL'.
      destruct HL' as (? & ? & _). rewrite lookup_insert_ne by done. by apply Hout.
    + intros L' [HL'|HL'%list_elem_of_singleton]%elem_of_app.
      * assert (L' ≠ L) by (by intros ->).
        rewrite lookup_insert_ne by done. by apply Hin'.
      * subst L'. exists tw, tw'. rewrite lookup_insert_eq. split_and!; [done..|].
        assert (standing (set_treeWalls m T1) (pt_key o) = flip) as Hflip.
        { unfold standing. cbn. by rewrite lookup_insert_eq. }
        cbv zeta in Htw'. fold o in Htw'.
        rewrite Hflip in Htw'. intros k. by rewrite Htw'.
  - exists m. split_and!; [done| |done].
    intros L HL. by apply Hout.
Qed.

Lemma tree_key_unique T p q :
  registry_ok T → p ∈ tree T → q ∈ tree T → p.1 = q.1 → p = q.
Proof.
  intros Hreg Hp Hq Heq. destruct p as [kp op], q as [kq oq].
  destruct (reg_origin T Hreg kp op Hp) as (-> & a & b & ->).
  destruct (reg_origin T Hreg kq oq Hq) as (-> & a' & b' & ->).
  cbn in Heq. apply (xy2key_inj (Half _) (Half _) (Half _) (Half _)) in Heq as [??].
  by simplify_eq.
Qed.

Lemma elem_of_patch_entry a b flip arr d :
  d ∈ patch_entry (xy2pt (Half a) (Half b)) flip arr ↔
  (d ∈ arr ∧ d ≠ descriptor (xy2pt (Half a) (Half b))) ∨
  (flip = true ∧ d = descriptor (xy2pt (Half a) (Half b))).
Proof.
  set (o := xy2pt (Half a) (Half b)). unfold patch_entry. rewrite elem_of_app, list_elem_of_filter.
  assert (¬ wall_of o d ↔ d ≠ descriptor o) as ->.
  { pose proof (wall_of_descriptor a b d) as Hw. fold o in Hw.
    rewrite <- Hw. destruct (wall_of o d); naive_solver. }
  destruct flip.
  - rewrite list_elem_of_singleton. naive_solver.
  - rewrite elem_of_nil. naive_solver.
Qed.

Lemma NoDup_patch_entry a b flip arr :
  NoDup arr → NoDup (patch_entry (xy2pt (Half a) (Half b)) flip arr).
Proof.
  intros Hnd. unfold patch_entry. apply NoDup_app. split_and!.
  - by apply NoDup_filter.
  - intros d [Hd _]%list_elem_of_filter Hin. destruct flip.
    + apply list_elem_of_singleton in Hin as ->. apply Hd.
      apply Is_true_true. by apply wall_of_descriptor.
    + by apply elem_of_nil in Hin.
  - destruct flip; [apply NoDup_singleton|constructor].
Qed.

(** Flipping one tree changes what qualifies only for that tree. *)
Lemma qualifies_flip T m flip L k (p q : string * point) :
  let T' := set_treeWalls m (set_tree_state (<[q.1 := flip]> (tree_state T)) T) in
  qualifies T' L k p ↔
  (p.1 = q.1 ∧ flip = true ∧ below L (tree_elevations T !! p.1) = true ∧ corner_of k p.2)
  ∨ (p.1 ≠ q.1 ∧ qualifies T L k p).
Proof.
  intros T'. unfold qualifies, standing, T'. cbn [tree_state tree_elevations set_treeWalls set_tree_state].
  destruct (decide (p.1 = q.1)) as [Heq|Hne].
  - rewrite Heq, lookup_insert_eq. cbn. naive_solver.
  - rewrite lookup_insert_ne by done. naive_solver.
Qed.

Lemma toggle_tree_ok T a b :
  let o := xy2pt (Half a) (Half b) in
  registry_ok T → walls_ok T → (pt_key o, o) ∈ tree T →
  ∃ m,
    let T' := set_treeWalls m
      (set_tree_state (<[pt_key o := negb (standing T (pt_key o))]> (tree_state T)) T) in
    toggle_tree o T = Normal tt T' ∧ registry_ok T' ∧ walls_ok T'.
Proof.
  intros o Hreg Hwalls Hin.
  destruct (toggle_tree_spec T a b Hreg Hwalls Hin) as (m & Hrun & Hout & Hlev).
  cbv zeta in Hrun, Hlev. unfold o in *. clear o.
  pose (o := xy2pt (Half a) (Half b)).
  set (flip := negb (standing T (pt_key (xy2pt (Half a) (Half b))))) in *.
  exists m. cbv zeta. split; [exact Hrun|]. split.
  { destruct Hreg as [R1 R2 R3 R4]. split; try done.
    intros kC o' Ho'. destruct (R3 kC o' Ho') as (? & ? & Hs). split_and!; [done..|].
    cbn. destruct (decide (kC = pt_key o)) as [->|?].
    - by rewrite lookup_insert_eq.
    - by rewrite lookup_insert_ne. }
  destruct Hwalls as [Hnd Hwalls]. split; [exact Hnd|].
  intros L HL. destruct (Hlev L HL) as (tw & tw' & Htw & Hm & Htw').
  destruct (Hwalls L HL) as (tw0 & Htw0 & Hk). simplify_eq.
  exists tw'. split; [exact Hm|]. intros k.
  destruct (Hk k) as (Hsome & Hnodup & Hmem). rewrite Htw'.
  destruct (decide (below L (tree_elevations T !! pt_key (xy2pt (Half a) (Half b))) = true
                    ∧ corner_of k (xy2pt (Half a) (Half b)))) as [Hcond|Hcond].
  - split_and!; [by eauto| by apply NoDup_patch_entry|].
    intros d. cbn [default from_option id]. rewrite (elem_of_patch_entry a b), Hmem.
    rewrite !elem_of_expected_walls. destruct Hcond as [Hbelow Hcorner]. split.
    + intros [[(p & Hp & Hq & ->) Hne]|[Hflip ->]].
      * exists p. split_and!; [done| |done].
        apply (qualifies_flip T m flip L k p (pt_key o, o)). right. split; [|done].
        intros Heq. apply Hne.
        by rewrite (tree_key_unique T p (pt_key o, o)).
      * exists (pt_key o, o). split_and!; [done| |done].
        apply (qualifies_flip T m flip L k _ (pt_key o, o)). left. done.
    + intros (p & Hp & Hq & ->).
      apply (qualifies_flip T m flip L k p (pt_key o, o)) in Hq
        as [(Heq & Hflip & _)|[Hne Hq]].
      * right. split; [done|].
        by rewrite (tree_key_unique T p (pt_key o, o)).
      * left. split; [by eauto|]. intros Hd. apply Hne.
        by rewrite (descriptor_inj T p (pt_key o, o)).
  - split_and!; [exact Hsome|exact Hnodup|]. intros d. rewrite Hmem.
    rewrite !elem_of_expected_walls. split.
    + intros (p & Hp & Hq & ->). exists p. split_and!; [done| |done].
      apply (qualifies_flip T m flip L k p (pt_key o, o)). right. split; [|done].
      intros Heq. apply Hcond.
      rewrite (tree_key_unique T p (pt_key o, o)) in Hq by done.
      by destruct Hq as (_ & ? & ?).
    + intros (p & Hp & Hq & ->). exists p. split_and!; [done| |done].
      apply (qualifies_flip T m flip L k p (pt_key o, o)) in Hq
        as [(Heq & _ & Hb & Hc)|[_ Hq]]; [|done].
      exfalso. apply Hcond.
      rewrite (tree_key_unique T p (pt_key o, o)) in Hb, Hc by done. done.
Qed.

(** ** Ready instances keep their invariant *)

Lemma treePts_registered T key treePts :
  registry_ok T → tree_relations T !! key = Some treePts →
  NoDup (pt_key <$> treePts) ∧
  ∀ o, o ∈ treePts → (pt_key o, o) ∈ tree T ∧ ∃ a b, o = xy2pt (Half a) (Half b).
Proof.
  intros Hreg Hrel. pose proof (reg_relations T Hreg key) as Hl.
  rewrite Hrel in Hl. cbn in Hl. subst treePts.
  assert (∀ o, o ∈ (tree T).*2 →
            (pt_key o, o) ∈ tree T ∧ ∃ a b, o = xy2pt (Half a) (Half b)) as Hmem.
  { intros o ([k o'] & -> & Hin)%list_elem_of_fmap. cbn.
    destruct (reg_origin T Hreg _ _ Hin) as (-> & a & b & ->). eauto. }
  split.
  - apply NoDup_fmap_2_strong.
    + intros o1 o2 [_ H1]%list_elem_of_filter [_ H2]%list_elem_of_filter Heq.
      destruct (Hmem _ H1) as [H1' _], (Hmem _ H2) as [H2' _].
      by apply (tree_key_unique T _ _ Hreg H1') in H2' as [=].
    + apply NoDup_filter. eapply NoDup_fmap_1 with (f := pt_key).
      replace (pt_key <$> (tree T).*2) with (tree T).*1; [by apply reg_nodup|].
      apply list_eq. intros i. rewrite !list_lookup_fmap.
      destruct (tree T !! i) as [[k o]|] eqn:Hi; [|done]. cbn.
      apply list_elem_of_lookup_2 in Hi.
      by destruct (reg_origin T Hreg _ _ Hi) as (-> & _).
  - intros o [_ Ho]%list_elem_of_filter. by apply Hmem.
Qed.

(** The loop of [toggleTree] over the trees registered at a corner. *)
Lemma toggle_loop_ok T treePts :
  registry_ok T → walls_ok T →
  NoDup (pt_key <$> treePts) →
  (∀ o, o ∈ treePts → (pt_key o, o) ∈ tree T ∧ ∃ a b, o = xy2pt (Half a) (Half b)) →
  ∃ m st,
    let T' := set_treeWalls m (set_tree_state st T) in
    forEach toggle_tree treePts T = Normal tt T' ∧
    registry_ok T' ∧ walls_ok T' ∧
    ∀ kC, st !! kC =
      if decide (kC ∈ pt_key <$> treePts) then Some (negb (standing T kC))
      else tree_state T !! kC.
Proof.
  intros Hreg Hwalls Hnd Hmem.
  destruct (forEach_prefix_ind (λ pre T', ∃ m st,
      T' = set_treeWalls m (set_tree_state st T) ∧
      registry_ok T' ∧ walls_ok T' ∧
      ∀ kC, st !! kC =
        if decide (kC ∈ pt_key <$> pre) then Some (negb (standing T kC))
        else tree_state T !! kC)
    toggle_tree treePts T) as (T' & Hrun & m & st & -> & ? & ? & ?).
  - exists (treeWalls T), (tree_state T). split_and!; [by destruct T|done..].
  - intros pre o post T' Hl (m & st & -> & Hreg' & Hwalls' & Hst).
    assert (o ∈ treePts) as Ho by (rewrite Hl; apply elem_of_app; right; by left).
    destruct (Hmem o Ho) as (Hin & a & b & ->).
    set (o := xy2pt (Half a) (Half b)) in *.
    assert (pt_key o ∉ pt_key <$> pre) as Hfresh.
    { pose proof Hnd as Hnd'. rewrite Hl in Hnd'.
      rewrite (fmap_app pt_key pre (o :: post)) in Hnd'.
      apply NoDup_app in Hnd' as (_ & Hnd' & _). intros Hp.
      apply (Hnd' _ Hp). by left. }
    destruct (toggle_tree_ok (set_treeWalls m (set_tree_state st T)) a b Hreg' Hwalls' Hin)
      as (m' & Hrun & Hreg'' & Hwalls'').
    cbv zeta in Hrun, Hreg'', Hwalls''. fold o in Hrun, Hreg'', Hwalls''.
    eexists. split; [exact Hrun|].
    exists m', (<[pt_key o := negb (standing (set_treeWalls m (set_tree_state st T)) (pt_key o))]> st).
    split_and!; [done..|].
    intros kC. destruct (decide (kC = pt_key o)) as [->|Hne].
    + rewrite lookup_insert_eq, decide_True.
      * unfold standing. cbn. by rewrite Hst, decide_False.
      * rewrite fmap_app. apply elem_of_app. right. by left.
    + rewrite lookup_insert_ne, Hst by done.
      destruct (decide (kC ∈ pt_key <$> pre)) as [Hin'|Hnin].
      * rewrite decide_True; [done|]. rewrite fmap_app. apply elem_of_app. by left.
      * rewrite decide_False; [done|]. rewrite fmap_app, elem_of_app.
        intros [?|Hs%list_elem_of_singleton]; done.
  - by exists m, st.
Qed.

Lemma set_terrain_id s T : terrain s = Some T → set_terrain T s = s.
Proof. destruct s. cbn. by intros ->. Qed.

Lemma toggleTree_ok s T g x y :
  instance_ok s T g →
  ∃ b m st,
    let T' := set_treeWalls m (set_tree_state st T) in
    toggleTree x y s = Normal b (set_terrain T' s) ∧
    instance_ok (set_terrain T' s) T' g ∧
    b = bool_decide (is_Some (tree_relations T !! xy2key (Int x) (Int y))) ∧
    ∀ kC, st !! kC =
      if decide (kC ∈ pt_key <$> default [] (tree_relations T !! xy2key (Int x) (Int y)))
      then Some (negb (standing T kC))
      else tree_state T !! kC.
Proof.
  intros Hok. unfold toggleTree. rewrite (ok_terrain _ _ _ Hok).
  destruct (tree_relations T !! xy2key (Int x) (Int y)) as [treePts|] eqn:Hrel.
  - destruct (treePts_registered T _ _ (ok_registry _ _ _ Hok) Hrel) as [Hnd Hmem].
    destruct (toggle_loop_ok T treePts (ok_registry _ _ _ Hok) (ok_walls _ _ _ Hok) Hnd Hmem)
      as (m & st & Hrun & Hreg & Hwalls & Hst).
    cbv zeta in Hrun, Hreg, Hwalls. rewrite Hrun.
    exists true, m, st. cbv zeta. split_and!; [done| |done|exact Hst].
    destruct Hok. by split.
  - exists false, (treeWalls T), (tree_state T). cbv zeta.
    replace (set_treeWalls (treeWalls T) (set_tree_state (tree_state T) T)) with T
      by (by destruct T).
    rewrite (set_terrain_id s T) by apply Hok. split_and!; [done..|].
    intros kC. cbn. rewrite decide_False; [done|]. apply not_elem_of_nil.
Qed.

(** The callback of [updateVisibility] writes to [lights] only. *)
Lemma light_callback_lights e v T :
  ∃ l, state_of (light_callback e v T) = set_lights l T.
Proof.
  assert (T = set_lights (lights T) T) as HT by (by destruct T).
  unfold light_callback, bind, get. destruct (elevationGrid T) as [g|]; cbn; [|by eauto].
  destruct (g !! _); cbn; [|by eauto].
  destruct (bool_decide _); cbn; [|by eauto].
  destruct (ent_fow_blocker_node T) as [fow|]; cbn; [|by eauto].
  destruct (fow !! _); cbn; [by eauto|].
  destruct (negb _); cbn; by eauto.
Qed.

Lemma forEach_light_callback_lights e vs T :
  ∃ l, state_of (forEach (light_callback e) vs T) = set_lights l T.
Proof.
  revert T. induction vs as [|v vs IH]; intros T; cbn.
  { exists (lights T). by destruct T. }
  destruct (light_callback_lights e v T) as (l & Hl). unfold bind.
  destruct (light_callback e v T) as [[] T'|err T']; cbn in Hl; subst T'.
  - destruct (IH (set_lights l T)) as (l' & ->). by exists l'.
  - by exists l.
Qed.

Lemma updateVisibility_ok compute s T g gX gY r :
  instance_ok s T g →
  ∃ T', instance_ok (state_of (updateVisibility compute gX gY r s)) T' g.
Proof.
  intros Hok. unfold updateVisibility.
  rewrite (ok_terrain _ _ _ Hok), (ok_grid _ _ _ Hok).
  destruct (g !! xy2key (Int gX) (Int gY)) as [pt|]; [|by exists T].
  set (e := c_z pt). unfold prepare, prepare_terrain.
  set (ew := match elevationWalls T !! e with
             | Some _ => elevationWalls T
             | None => <[e := generateElevationWalls g e]> (elevationWalls T)
             end).
  set (T1 := set_query (WallsOf e) ew T).
  set (s1 := set_terrain T1 (set_elevation e s)).
  assert (∀ E w, ew !! E = Some w → w = generateElevationWalls g E) as Hcache.
  { intros E w. unfold ew. destruct (elevationWalls T !! e) eqn:He.
    - apply Hok.
    - destruct (decide (E = e)) as [->|Hne].
      + rewrite lookup_insert_eq. by intros [= <-].
      + rewrite lookup_insert_ne by done. apply Hok. }
  assert (∀ l a (b : bool),
    let T2 := (if b then set_area a (set_lights l T1) else set_lights l T1) in
    instance_ok (set_terrain T2 s1) T2 g ∧
    ∀ n, instance_ok (set_lightArea n (set_terrain T2 s1)) T2 g) as Hres.
  { intros l a b. destruct Hok as [? ? ? ? ? ? ? [] ? ?].
    destruct b; cbv zeta; split; [|intros n| |intros n]; split; try done; by split. }
  set (run := compute (treeWalls T !! e) (lightPassesCallback s1) gX gY (or_else r (radius s))).
  destruct (forEach_light_callback_lights e run.1 T1) as (l & Hl).
  destruct (forEach (light_callback e) run.1 T1) as [[] T2|err T2]; cbn in Hl; subst T2.
  - destruct run.2 as [a|]; cbn.
    + exists (set_area a (set_lights l T1)). apply (Hres l a true).
    + exists (set_lights l T1). apply (Hres l 0 false).
  - exists (set_lights l T1). apply (Hres l 0 false).
Qed.

Lemma read_only_ret {S A} (a : A) : read_only (ret a : M S A).
Proof. done. Qed.

Lemma read_only_deref {S A} (o : option A) : read_only (deref o : M S A).
Proof. by destruct o. Qed.

Lemma read_only_bind {S A B} (m : M S A) (k : A → M S B) :
  read_only m → (∀ a, read_only (k a)) → read_only (bind m k).
Proof.
  intros Hm Hk s. unfold bind. specialize (Hm s).
  destruct (m s) as [a s'|e s']; cbn in Hm; subst s'; [apply Hk|done].
Qed.

Lemma read_only_unblocked {A} flag (map : option (gmap string A)) key :
  read_only (unblocked flag map key).
Proof.
  unfold unblocked. destruct flag; [|apply read_only_ret].
  apply read_only_bind; [apply read_only_deref|]. intros m. apply read_only_ret.
Qed.

Lemma isValidXY_state x y b1 b2 b3 s : state_of (isValidXY x y b1 b2 b3 s) = s.
Proof.
  unfold isValidXY. destruct (negb (ready s)); [done|].
  apply read_only_bind.
  - destruct b3; [|apply read_only_ret].
    apply read_only_bind; [apply read_only_deref|]. intros T. apply read_only_ret.
  - intros tb. destruct (_ && _); [|apply read_only_ret].
    apply read_only_bind; [apply read_only_unblocked|]. intros [|]; [|apply read_only_ret].
    apply read_only_bind; [apply read_only_unblocked|]. intros [|]; apply read_only_ret.
Qed.

Theorem ready_instance_ok compute s :
  ready_instance compute s → ∃ T g, instance_ok s T g.
Proof.
  induction 1 as [s0 img cache s Hinit|s op _ (T & g & Hok)].
  - destruct (initialize_ok img s0 cache) as (s' & T & g & Hrun & Hok & _).
    rewrite Hrun in Hinit. simplify_eq. eauto.
  - destruct op as [gX gY r|x y|x y b1 b2 b3|r]; cbn.
    + destruct (updateVisibility_ok compute s T g gX gY r Hok) as (T' & ?). eauto.
    + destruct (toggleTree_ok s T g x y Hok) as (b & m & st & Hrun & Hok' & _).
      cbv zeta in Hrun, Hok'. rewrite Hrun. cbn. eauto.
    + rewrite isValidXY_state. eauto.
    + exists T, g. destruct Hok. by split.
Qed.

(** ** The tree-wall cache *)

Lemma walls_ok_perm T L k :
  registry_ok T → walls_ok T → L ∈ elevationValues T →
  tree_walls_at T L k ≡ₚ expected_walls T L k.
Proof.
  intros Hreg [_ Hwalls] HL. destruct (Hwalls L HL) as (tw & Htw & Hk).
  destruct (Hk k) as (_ & Hnd & Hmem).
  unfold tree_walls_at. rewrite Htw. cbn.
  apply NoDup_Permutation; [done|by apply NoDup_expected_walls|done].
Qed.

(** C1: on a ready instance, that is after [initialize] has loaded the image
    and after any further calls of [toggleTree] (or of the other
    operations), the trees of the registry are pairwise distinct, each with
    its four corners, and for every known elevation level [L] and every key
    [k] the entry of [treeWalls[L]] at [k] is, up to order, the list that
    holds one descriptor for each tree that stands, blocks above [L] and
    has [k] among its corners -- and nothing else. *)
Theorem tree_walls_consistent compute s :
  ready_instance compute s →
  ∃ T, terrain s = Some T ∧ registry_ok T ∧
    ∀ L k, L ∈ elevationValues T → tree_walls_at T L k ≡ₚ expected_walls T L k.
Proof.
  intros (T & g & Hok)%ready_instance_ok. exists T.
  split_and!; [apply Hok..|]. intros L k HL.
  apply walls_ok_perm; [apply Hok..|done].
Qed.

Lemma elem_of_expected_walls_ext T T' L k d :
  tree T' = tree T → tree_state T' = tree_state T →
  tree_elevations T' = tree_elevations T →
  d ∈ expected_walls T' L k ↔ d ∈ expected_walls T L k.
Proof.
  intros H1 H2 H3. rewrite !elem_of_expected_walls.
  unfold qualifies, standing. by rewrite H1, H2, H3.
Qed.

(** C5: on a ready instance, two successive calls [toggleTree(x, y)] both
    return (the same value), leave every tree's standing flag as it was
    before the first call, and leave at every known elevation level and
    every key an entry that is a permutation of the one before the first
    call. *)
Theorem toggleTree_twice compute s x y :
  ready_instance compute s →
  ∃ b s1 s2 T T2,
    toggleTree x y s = Normal b s1 ∧ toggleTree x y s1 = Normal b s2 ∧
    terrain s = Some T ∧ terrain s2 = Some T2 ∧
    tree_state T2 = tree_state T ∧
    ∀ L k, L ∈ elevationValues T → tree_walls_at T2 L k ≡ₚ tree_walls_at T L k.
Proof.
  intros (T & g & Hok)%ready_instance_ok.
  destruct (toggleTree_ok s T g x y Hok) as (b & m1 & st1 & Hrun1 & Hok1 & Hb1 & Hst1).
  cbv zeta in Hrun1, Hok1.
  set (T1 := set_treeWalls m1 (set_tree_state st1 T)) in *.
  destruct (toggleTree_ok _ T1 g x y Hok1) as (b' & m2 & st2 & Hrun2 & Hok2 & Hb2 & Hst2).
  cbv zeta in Hrun2, Hok2.
  set (T2 := set_treeWalls m2 (set_tree_state st2 T1)) in *.
  change (tree_relations T1) with (tree_relations T) in Hb2, Hst2.
  assert (b' = b) as -> by congruence.
  assert (st2 = tree_state T) as Hstate.
  { apply map_eq. intros kC. rewrite Hst2.
    destruct (decide (kC ∈ _)) as [Hin|Hnin]; [|by rewrite Hst1, decide_False].
    unfold standing at 1. cbn [tree_state T1 set_treeWalls set_tree_state].
    rewrite Hst1, decide_True by done. cbn. rewrite negb_involutive.
    destruct (tree_relations T !! xy2key (Int x) (Int y)) as [treePts|] eqn:Hrel;
      [|by apply elem_of_nil in Hin].
    destruct (treePts_registered T _ _ (ok_registry _ _ _ Hok) Hrel) as [_ Hmem].
    cbn in Hin. apply list_elem_of_fmap in Hin as (o & -> & Ho).
    destruct (Hmem o Ho) as [Htree _].
    destruct (reg_fields T (ok_registry _ _ _ Hok) _ _ Htree) as (_ & _ & [st Hs]).
    unfold standing. by rewrite Hs. }
  exists b, (set_terrain T1 s), (set_terrain T2 (set_terrain T1 s)), T, T2.
  split_and!; [done|done|apply Hok|done|done|].
  intros L k HL.
  rewrite (walls_ok_perm T2 L k); [|apply Hok2..|done].
  rewrite (walls_ok_perm T L k); [|apply Hok..|done].
  apply NoDup_Permutation;
    [apply NoDup_expected_walls, Hok2|apply NoDup_expected_walls, Hok|].
  intros d. by apply elem_of_expected_walls_ext.
Qed.

(** ** [updateVisibility] *)

Lemma tree_blocking_spec T E treePts :
  tree_blocking T E treePts = true ↔
  ∃ o, o ∈ treePts ∧ standing T (pt_key o) = true ∧
       below E (tree_elevations T !! pt_key o) = true.
Proof.
  induction treePts as [|o l IH]; cbn.
  - split; [done|]. intros (o & Ho & _). by apply elem_of_nil in Ho.
  - fold (standing T (pt_key o)).
    destruct (standing T (pt_key o) && below E (tree_elevations T !! pt_key o)) eqn:Hc.
    + apply andb_true_iff in Hc as [??]. split; [|done]. intros _. exists o.
      split; [by left|done].
    + rewrite IH. apply andb_false_iff in Hc. split.
      * intros (o' & ? & ?). exists o'. split; [by right|done].
      * intros (o' & [->|?]%elem_of_cons & Hs & Hb); [|by eauto].
        destruct Hc; congruence.
Qed.

Lemma light_callback_lit T g E v :
  elevationGrid T = Some g → is_Some (ent_fow_blocker_node T) →
  lit T g E v →
  light_callback E v T =
    Normal tt (set_lights (<[xy2key (Int (v_x v)) (Int (v_y v)) := 255]> (lights T)) T).
Proof.
  intros Hg [fow Hfow] (Hvis & [c Hc] & Hnf & Hnb).
  unfold light_callback, bind, get. rewrite Hg. cbn. rewrite Hc.
  rewrite bool_decide_eq_true_2 by done. rewrite Hfow. cbn.
  destruct (fow !! _) eqn:Hk.
  { exfalso. apply Hnf. unfold fow_blocker. rewrite Hfow, Hk. eauto. }
  replace (match tree_relations T !! _ with Some t => tree_blocking T E t | None => false end)
    with false; [done|].
  symmetry. apply not_true_is_false. intros Hb. apply Hnb. unfold tree_blocked.
  destruct (tree_relations T !! _); [|done].
  apply Exists_exists. by apply tree_blocking_spec.
Qed.

Lemma light_callback_unlit T g E v :
  elevationGrid T = Some g → is_Some (ent_fow_blocker_node T) →
  ¬ lit T g E v →
  light_callback E v T = Normal tt T.
Proof.
  intros Hg [fow Hfow] Hnl.
  unfold light_callback, bind, get. rewrite Hg. cbn.
  destruct (g !! _) as [c|] eqn:Hc; [|done].
  case_bool_decide as Hvis; [|done]. rewrite Hfow. cbn.
  destruct (fow !! _) eqn:Hk; [done|].
  destruct (negb _) eqn:Hb; [|done]. exfalso. apply Hnl.
  split_and!; [done|by eauto| |].
  - unfold fow_blocker. rewrite Hfow, Hk. by intros [??].
  - intros (o & Ho & Hs)%Exists_exists. apply negb_true_iff in Hb.
    destruct (tree_relations T !! _) as [treePts|]; [|by apply elem_of_nil in Ho].
    apply not_true_iff_false in Hb. apply Hb. apply tree_blocking_spec. eauto.
Qed.

(** The loop of callbacks: [lights] ends up holding 255 at the keys of the
    visits that pass the filter, and nothing else. *)
Lemma forEach_light_callback T g E visits :
  elevationGrid T = Some g → is_Some (ent_fow_blocker_node T) →
  lights T = ∅ →
  ∃ l,
    forEach (light_callback E) visits T = Normal tt (set_lights l T) ∧
    ∀ k n, l !! k = Some n ↔
      n = 255 ∧ ∃ v, v ∈ visits ∧ lit T g E v ∧ k = xy2key (Int (v_x v)) (Int (v_y v)).
Proof.
  intros Hg Hfow Hempty.
  destruct (forEach_prefix_ind (λ pre T', ∃ l,
      T' = set_lights l T ∧
      ∀ k n, l !! k = Some n ↔
        n = 255 ∧ ∃ v, v ∈ pre ∧ lit T g E v ∧ k = xy2key (Int (v_x v)) (Int (v_y v)))
    (light_callback E) visits T) as (T' & Hrun & l & -> & Hl).
  - exists ∅. split; [rewrite <- Hempty; by destruct T|].
    intros k n. rewrite lookup_empty. split; [done|].
    intros (_ & v & Hv & _). by apply elem_of_nil in Hv.
  - intros pre v post T' _ (l & -> & Hl).
    destruct (decide (lit T g E v)) as [Hlit|Hnl].
    + eexists. split; [by apply (light_callback_lit _ g)|].
      eexists. split; [done|]. cbn [lights set_lights]. intros k n.
      destruct (decide (k = xy2key (Int (v_x v)) (Int (v_y v)))) as [->|Hne].
      * rewrite lookup_insert_eq. split.
        -- intros [= <-]. split; [done|]. exists v. split; [|done].
           apply elem_of_app. right. by left.
        -- by intros [-> _].
      * rewrite lookup_insert_ne, Hl by done. split.
        -- intros (-> & v' & ? & ? & ?). split; [done|]. exists v'.
           split; [|done]. apply elem_of_app. by left.
        -- intros (-> & v' & [?|Hv%list_elem_of_singleton]%elem_of_app & ? & ?);
             [by eauto|by subst].
    + eexists. split; [by apply (light_callback_unlit _ g)|].
      exists l. split; [done|]. intros k n. rewrite Hl. split.
      * intros (-> & v' & ? & ? & ?). split; [done|]. exists v'.
        split; [|done]. apply elem_of_app. by left.
      * intros (-> & v' & [?|Hv%list_elem_of_singleton]%elem_of_app & ? & ?);
          [by eauto|by subst].
  - by exists l.
Qed.

(** [lightPassesCallback] once the active elevation [e] has its elevation
    walls [ew] and its tree walls [tw]: the three tests of the source, in
    its order. *)
Lemma lightPassesCallback_walls s T e ew tw fow x y :
  terrain s = Some T → elevation s = Some e →
  elevationWalls T !! e = Some ew → treeWalls T !! e = Some tw →
  ent_fow_blocker_node T = Some fow →
  ∃ passes,
    lightPassesCallback s x y = Some passes ∧
    (passes = false ↔ opaque_at ew tw fow (xy2key (Int x) (Int y))).
Proof.
  intros HT He Hew Htw Hfow.
  unfold lightPassesCallback. rewrite HT, He. cbn.
  rewrite Hew, Hfow, Htw. cbn.
  unfold opaque_at. set (k := xy2key (Int x) (Int y)).
  case_bool_decide as H1.
  { exists false. split; [done|]. split; [by left|done]. }
  case_bool_decide as H2.
  { exists false. split; [done|]. split; [by right; right|done]. }
  eexists. split; [done|].
  destruct (tw !! k) as [l|] eqn:Hl; cbn.
  - destruct l as [|d l]; cbn.
    + split; [done|]. intros [?|[?|?]]; done.
    + split; [|done]. intros _. right. by left.
  - split; [done|]. intros [?|[?|?]]; done.
Qed.

(** The callback never reads the GridNav and NoWards sets. *)
Lemma lightPassesCallback_validity s T gn nw x y :
  terrain s = Some T →
  lightPassesCallback (set_terrain (set_validity gn nw T) s) x y =
  lightPassesCallback s x y.
Proof. intros HT. unfold lightPassesCallback. by rewrite HT. Qed.

(** C4: when the active elevation [e] has its elevation walls [ew] and its
    tree walls [tw] (as it has whenever [updateVisibility] runs the engine),
    [lightPassesCallback] returns, and it answers "opaque" at a cell exactly
    when the cell is in [ew], or holds at least one descriptor in [tw], or
    is a FowBlocker cell; replacing the GridNav and NoWards sets by any
    others never changes its answer. *)
Theorem lightPasses_opacity s T e ew tw fow x y :
  terrain s = Some T → elevation s = Some e →
  elevationWalls T !! e = Some ew → treeWalls T !! e = Some tw →
  ent_fow_blocker_node T = Some fow →
  ∃ passes,
    lightPassesCallback s x y = Some passes ∧
    (passes = false ↔ opaque_at ew tw fow (xy2key (Int x) (Int y))) ∧
    ∀ gn nw,
      lightPassesCallback (set_terrain (set_validity gn nw T) s) x y = Some passes.
Proof.
  intros HT He Hew Htw Hfow.
  destruct (lightPassesCallback_walls s T e ew tw fow x y) as (p & Hp & Hiff);
    [done..|].
  exists p. split; [exact Hp|]. split; [exact Hiff|].
  intros gn nw. rewrite <- Hp. by apply lightPassesCallback_validity.
Qed.

Lemma lightPasses_prepared s T g E :
  instance_ok s T g → E ∈ elevationValues T →
  ∀ a b, is_Some (lightPassesCallback (prepare E g T s) a b).
Proof.
  intros Hok HE a b.
  destruct (ok_maps _ _ _ Hok) as (_ & [fow Hfow] & _).
  destruct (ok_walls _ _ _ Hok) as [_ Hw]. destruct (Hw E HE) as (tw & Htw & _).
  assert (∃ ew, elevationWalls (prepare_terrain E g T) !! E = Some ew) as [ew Hew].
  { unfold prepare_terrain. cbn. destruct (elevationWalls T !! E) eqn:HE'; [by eauto|].
    rewrite lookup_insert_eq. eauto. }
  destruct (lightPassesCallback_walls (prepare E g T s) (prepare_terrain E g T) E
              ew tw fow a b) as (p & -> & _); done.
Qed.

(** A call of [updateVisibility] from a cell of the grid, when the engine
    returns [a]. *)
Lemma updateVisibility_run compute s T g gX gY r E a :
  instance_ok s T g →
  elevation_at g gX gY = Some E →
  (sweep_of compute s T g E gX gY r).2 = Some a →
  ∃ l,
    updateVisibility compute gX gY r s =
      Normal tt (set_lightArea (Z.of_nat (size l))
        (set_terrain (set_area a (set_lights l (prepare_terrain E g T)))
                     (prepare E g T s))) ∧
    ∀ k n, l !! k = Some n ↔
      n = 255 ∧ ∃ v, v ∈ (sweep_of compute s T g E gX gY r).1 ∧ lit T g E v ∧
                     k = xy2key (Int (v_x v)) (Int (v_y v)).
Proof.
  intros Hok HE Hrun. unfold updateVisibility.
  rewrite (ok_terrain _ _ _ Hok), (ok_grid _ _ _ Hok).
  unfold elevation_at in HE.
  destruct (g !! xy2key (Int gX) (Int gY)) as [pt|]; [|done]. cbn in HE.
  injection HE as ->. cbv zeta. unfold sweep_of in *.
  match goal with |- context [forEach _ ?vs _] =>
    destruct (forEach_light_callback (prepare_terrain E g T) g E vs)
      as (l & -> & Hl)
  end.
  { apply Hok. }
  { apply Hok. }
  { done. }
  rewrite Hrun. exists l. split; [done|]. exact Hl.
Qed.



(** C10 (as amended): a radius argument of 0, like a missing one, makes
    [updateVisibility] run the engine with the instance's default radius;
    when that default is not 0 the engine is never asked for radius 0 by
    such a call.  The constructor never installs a default of 0 (but
    [setRadius] can). *)
Theorem radius_fallback compute s gX gY :
  updateVisibility compute gX gY (Some 0) s = updateVisibility compute gX gY None s ∧
  updateVisibility compute gX gY None s =
    updateVisibility (λ w lp x y _, compute w lp x y (radius s)) gX gY None s ∧
  (radius s ≠ 0 →
   ∀ compute',
     (∀ w lp x y R, R ≠ 0 → compute' w lp x y R = compute w lp x y R) →
     updateVisibility compute' gX gY (Some 0) s =
     updateVisibility compute gX gY (Some 0) s) ∧
  ∀ wd opts_radius, radius (construct wd opts_radius) ≠ 0.
Proof.
  split_and!; [done|done| |].
  - intros Hr compute' Hsame. unfold updateVisibility. cbn [or_else].
    rewrite decide_True by done.
    destruct (terrain s) as [T|]; [|done].
    destruct (elevationGrid T) as [g|]; [|done].
    destruct (g !! _) as [pt|]; [|done]. cbv zeta. by rewrite Hsame.
  - intros wd [r0|]; cbn; [|done]. by case_decide.
Qed.

(** ** The elevation-wall cache *)

Lemma updateVisibility_terrain compute s T g gX gY r :
  instance_ok s T g →
  ∃ T',
    terrain (state_of (updateVisibility compute gX gY r s)) = Some T' ∧
    elevationGrid T' = Some g ∧
    elevationWalls T' =
      match elevation_at g gX gY with
      | Some E => elevationWalls (prepare_terrain E g T)
      | None => elevationWalls T
      end.
Proof.
  intros Hok. unfold updateVisibility, elevation_at.
  rewrite (ok_terrain _ _ _ Hok), (ok_grid _ _ _ Hok).
  destruct (g !! xy2key (Int gX) (Int gY)) as [pt|]; cbn.
  2:{ exists T. split_and!; [apply Hok..|done]. }
  match goal with |- context [forEach _ ?vs ?T1] =>
    destruct (forEach_light_callback_lights (c_z pt) vs T1) as (l & Hl);
    destruct (forEach (light_callback (c_z pt)) vs T1) as [[] T2|err T2];
    cbn in Hl; subst T2
  end.
  - destruct (_.2); cbn; eexists; (split_and!; [done|apply Hok|done]).
  - cbn. eexists. split_and!; [done|apply Hok|done].
Qed.

Lemma prepare_cache T g E :
  (∀ E' w, elevationWalls T !! E' = Some w → w = generateElevationWalls g E') →
  elevationWalls (prepare_terrain E g T) = <[E := generateElevationWalls g E]> (elevationWalls T).
Proof.
  intros Hcache. unfold prepare_terrain. cbn.
  destruct (elevationWalls T !! E) as [w|] eqn:Hw; [|done].
  rewrite insert_id; [done|]. by rewrite (Hcache E w Hw) in Hw.
Qed.

(** C6: on a ready instance with elevation grid [g], the elevation walls
    of a threshold [E] are the cells of [g] above [E] with one of their 8
    neighbours in [g] at or below [E], under their own keys; every set the
    cache holds is that set; [initialize] caches none; a call of
    [updateVisibility] from a cell of elevation [E] stores the set of [E]
    (which changes nothing when it was cached already) and no other
    operation, nor a call from outside the grid, touches the cache: what is
    cached stays cached, unchanged. *)
Theorem elevation_walls_lazy compute s :
  ready_instance compute s →
  ∃ T g,
    terrain s = Some T ∧ elevationGrid T = Some g ∧
    (∀ E x y, is_Some (generateElevationWalls g E !! xy2key (Int x) (Int y)) ↔
              on_contour g E x y) ∧
    (∀ E k, is_Some (generateElevationWalls g E !! k) →
            ∃ x y, k = xy2key (Int x) (Int y)) ∧
    (∀ E w, elevationWalls T !! E = Some w → w = generateElevationWalls g E) ∧
    (∀ s0 img cache, (initialize (Some img) s0 cache).1 = Normal tt s →
                     elevationWalls T = ∅) ∧
    ∀ op, ∃ T',
      terrain (perform compute op s) = Some T' ∧ elevationGrid T' = Some g ∧
      elevationWalls T' =
        match op with
        | OpUpdateVisibility gX gY _ =>
            match elevation_at g gX gY with
            | Some E => <[E := generateElevationWalls g E]> (elevationWalls T)
            | None => elevationWalls T
            end
        | _ => elevationWalls T
        end ∧
      ∀ E w, elevationWalls T !! E = Some w → elevationWalls T' !! E = Some w.
Proof.
  intros (T & g & Hok)%ready_instance_ok. exists T, g.
  split_and!; [apply Hok..| | |apply Hok| |].
  - intros E x y. apply generateElevationWalls_contour, Hok.
  - intros E k Hk.
    destruct (generateElevationWalls_dom g E k (ok_grid_wf _ _ _ Hok) Hk) as (x & y & ? & _).
    eauto.
  - intros s0 img cache Hinit.
    destruct (initialize_ok img s0 cache) as (s' & T' & g' & Hrun & Hok' & _ & _ & _ & He & _).
    rewrite Hrun in Hinit. simplify_eq.
    pose proof (ok_terrain _ _ _ Hok) as H1. rewrite (ok_terrain _ _ _ Hok') in H1.
    by simplify_eq.
  - intros op.
    cut (∃ T', terrain (perform compute op s) = Some T' ∧ elevationGrid T' = Some g ∧
           elevationWalls T' =
             match op with
             | OpUpdateVisibility gX gY _ =>
                 match elevation_at g gX gY with
                 | Some E => <[E := generateElevationWalls g E]> (elevationWalls T)
                 | None => elevationWalls T
                 end
             | _ => elevationWalls T
             end).
    { intros (T' & H1 & H2 & H3). exists T'. split_and!; [done..|].
      intros E w Hw. rewrite H3. destruct op as [gX gY r| | |]; try done.
      destruct (elevation_at g gX gY) as [E'|]; [|done].
      destruct (decide (E = E')) as [->|?].
      - rewrite lookup_insert_eq. by rewrite (ok_cache _ _ _ Hok _ _ Hw).
      - by rewrite lookup_insert_ne. }
    destruct op as [gX gY r|x y|x y b1 b2 b3|r]; cbn [perform].
    + destruct (updateVisibility_terrain compute s T g gX gY r Hok) as (T' & H1 & H2 & H3).
      exists T'. split_and!; [done..|]. rewrite H3.
      destruct (elevation_at g gX gY); [|done]. apply prepare_cache, Hok.
    + destruct (toggleTree_ok s T g x y Hok) as (b & m & st & Hrun & Hok' & _).
      cbv zeta in Hrun, Hok'. rewrite Hrun. eexists. split_and!; [done|apply Hok|done].
    + rewrite isValidXY_state. exists T. split_and!; [apply Hok..|done].
    + exists T. split_and!; [apply Hok..|done].
Qed.

(** ** The modelled engine *)

Lemma sweep_returns lp work shadows :
  (∀ a b, is_Some (lp a b)) → (sweep lp work shadows).2 = true.
Proof.
  intros Hlp. revert shadows. induction work as [|[[r i] [cx cy]] work IH]; intros sh.
  - done.
  - cbn. destruct (Hlp cx cy) as [p ->]. cbn. apply IH.
Qed.

Lemma PreciseShadowcasting_returns : engine_returns PreciseShadowcasting.
Proof.
  intros walls lp x y R Hlp. unfold PreciseShadowcasting. cbn.
  by rewrite sweep_returns.
Qed.

Lemma PreciseShadowcasting_counts : engine_counts PreciseShadowcasting.
Proof.
  intros walls lp x y R a. unfold PreciseShadowcasting. cbn.
  destruct (sweep lp (worklist x y R) []).2; [|done]. by intros [= <-].
Qed.

(** Nothing hides a cell while no shadow has been cast. *)
Lemma arc_visible_nil i r : 0 < r → arc_visible [] i r = true.
Proof.
  intros Hr. unfold arc_visible, cell_arcs. case_decide; cbn.
  - unfold dir_le. cbn. rewrite bool_decide_eq_false_2 by nia. done.
  - unfold dir_le. cbn. rewrite bool_decide_eq_false_2 by nia. done.
Qed.

Lemma sweep_open lp work :
  (∀ a b, lp a b = Some true) →
  (∀ w, w ∈ work → 0 < w.1.1) →
  (sweep lp work []).1 = (λ w, Visit w.2.1 w.2.2 w.1.1 1) <$> work.
Proof.
  intros Hlp. induction work as [|[[r i] [cx cy]] work IH]; intros Hr; [done|].
  cbn. rewrite Hlp. cbn. rewrite arc_visible_nil by (apply (Hr (r, i, (cx, cy))); by left).
  f_equal. apply IH. intros w Hw. apply Hr. by right.
Qed.

(** *** Rings *)

Lemma elem_of_ring x y r cx cy :
  0 < r → (cx, cy) ∈ ring x y r ↔ chebyshev x y cx cy = r.
Proof.
  intros Hr. unfold ring, chebyshev. rewrite !elem_of_app, !list_elem_of_fmap.
  setoid_rewrite elem_of_seqZ. split.
  - intros [(i & [= -> ->] & Hi)|[(i & [= -> ->] & Hi)|[(i & [= -> ->] & Hi)|(i & [= -> ->] & Hi)]]]; lia.
  - intros Hc.
    destruct (decide (cx = x - r ∧ cy ≠ y - r)) as [[-> ?]|H1].
    { left. exists (y + r - cy). split; [f_equal; lia|lia]. }
    destruct (decide (cy = y - r ∧ cx ≠ x + r)) as [[-> ?]|H2].
    { right; left. exists (cx - (x - r)). split; [f_equal; lia|lia]. }
    destruct (decide (cx = x + r ∧ cy ≠ y + r)) as [[-> ?]|H3].
    { right; right; left. exists (cy - (y - r)). split; [f_equal; lia|lia]. }
    right; right; right. exists (x + r - cx). split; [f_equal; lia|lia].
Qed.

Lemma NoDup_ring x y r : NoDup (ring x y r).
Proof.
  unfold ring.
  assert (∀ (f : Z → Z * Z), Inj (=) (=) f → NoDup (f <$> seqZ 0 (2 * r))) as Hside.
  { intros f Hf. apply NoDup_fmap_2; [done|apply NoDup_seqZ]. }
  repeat (apply NoDup_app; split_and!);
    try (apply Hside; intros i j [=]; lia);
    intros [cx cy]; rewrite ?elem_of_app, !list_elem_of_fmap;
    setoid_rewrite elem_of_seqZ;
    intros (i & [= -> ->] & Hi);
    intros H; repeat destruct H as [H|H];
    destruct H as (j & [=] & Hj); lia.
Qed.

Lemma length_ring x y r : 0 <= r → length (ring x y r) = Z.to_nat (8 * r).
Proof.
  intros Hr. unfold ring. rewrite !length_app, !length_fmap, !length_seqZ. lia.
Qed.

(** The cells of the rings [1 .. R], in visiting order. *)
Lemma worklist_cells x y R :
  (worklist x y R).*2 = r ← seqZ 1 R; ring x y r.
Proof.
  unfold worklist.
  assert (∀ r, r ∈ seqZ 1 R → 0 <= r) as Hpos.
  { intros r Hr%elem_of_seqZ. lia. }
  induction (seqZ 1 R) as [|r l IH]; [done|].
  rewrite !bind_cons, fmap_app, IH by (intros; apply Hpos; by right).
  f_equal. apply snd_zip.
  rewrite length_fmap, length_seqZ, length_ring; [done|]. apply Hpos. by left.
Qed.

Lemma worklist_rings x y R w : w ∈ worklist x y R → 0 < w.1.1.
Proof.
  unfold worklist. intros (r & Hw & Hr%elem_of_seqZ)%list_elem_of_bind.
  destruct w as [w1 w2]. apply elem_of_zip_l in Hw. apply list_elem_of_fmap in Hw as (i & -> & _).
  cbn. lia.
Qed.

Lemma elem_of_rings x y R cx cy :
  (cx, cy) ∈ (r ← seqZ 1 R; ring x y r) ↔ 0 < chebyshev x y cx cy <= R.
Proof.
  rewrite list_elem_of_bind. setoid_rewrite elem_of_seqZ. split.
  - intros (r & Hin & Hr). apply elem_of_ring in Hin; lia.
  - intros Hc. exists (chebyshev x y cx cy). split; [|lia].
    apply elem_of_ring; [lia|done].
Qed.

Lemma NoDup_rings x y R : NoDup (r ← seqZ 1 R; ring x y r).
Proof.
  apply NoDup_bind; [| |apply NoDup_seqZ].
  - intros r1 r2 [cx cy] H1%elem_of_seqZ H2%elem_of_seqZ Hc1 Hc2.
    apply elem_of_ring in Hc1, Hc2; lia.
  - intros r _. apply NoDup_ring.
Qed.

Lemma length_rings x y (n : nat) :
  Z.of_nat (length (r ← seqZ 1 (Z.of_nat n); ring x y r)) =
  (2 * Z.of_nat n + 1) * (2 * Z.of_nat n + 1) - 1.
Proof.
  induction n as [|n IH]; [done|].
  rewrite seqZ_S, bind_app, length_app, Nat2Z.inj_add, IH.
  cbn [mbind list_bind]. rewrite app_nil_r, length_ring by lia. lia.
Qed.

(** On an open field the sweep visits the origin and the rings, each cell
    once, all as visible. *)
Lemma open_sweep walls lp x y R :
  (∀ a b, lp a b = Some true) → 0 <= R →
  let run := PreciseShadowcasting walls lp x y R in
  (λ v, (v_x v, v_y v)) <$> run.1 = (x, y) :: (r ← seqZ 1 R; ring x y r) ∧
  (∀ v, v ∈ run.1 → v_vis v = 1) ∧
  run.2 = Some ((2 * R + 1) * (2 * R + 1)).
Proof.
  intros Hlp HR run. unfold run, PreciseShadowcasting. cbn [fst snd].
  rewrite sweep_returns by (intros a b; rewrite Hlp; eauto).
  rewrite sweep_open by (done || apply worklist_rings).
  split_and!.
  - rewrite fmap_cons. f_equal. rewrite <- worklist_cells, <- list_fmap_compose.
    apply list_fmap_ext. by intros _ [[r i] [cx cy]] _.
  - intros v [->|Hv]%elem_of_cons; [done|].
    by apply list_elem_of_fmap in Hv as (w & -> & _).
  - f_equal. cbn [length]. rewrite length_fmap.
    rewrite <- (length_fmap snd), worklist_cells.
    rewrite Nat2Z.inj_succ. rewrite <- (Z2Nat.id R) by done.
    rewrite length_rings. lia.
Qed.

Lemma chebyshev_origin x y cx cy : chebyshev x y cx cy = 0 ↔ cx = x ∧ cy = y.
Proof. unfold chebyshev. lia. Qed.

(** ** Open field *)

#[global] Instance cell_key_inj : Inj (=) (=) (λ c : Z * Z, xy2key (Int c.1) (Int c.2)).
Proof.
  intros [x y] [x' y'] H. cbn in H.
  apply xy2key_inj in H as [[=] [=]]. by subst.
Qed.

(** On a flat ready instance without trees and without FowBlocker cells,
    light passes everywhere once [updateVisibility] has prepared the
    query. *)
Lemma lightPasses_open s T g e0 :
  instance_ok s T g →
  (∀ k c, g !! k = Some c → c_z c = e0) →
  tree T = [] →
  (∀ k, ¬ fow_blocker T k) →
  e0 ∈ elevationValues T →
  ∀ a b, lightPassesCallback (prepare e0 g T s) a b = Some true.
Proof.
  intros Hok Hflat Htree Hfow He0 a b.
  destruct (ok_maps _ _ _ Hok) as (_ & [fow Hf] & _).
  destruct (ok_walls _ _ _ Hok) as [_ Hw]. destruct (Hw e0 He0) as (tw & Htw & Hk).
  destruct (lightPassesCallback_walls (prepare e0 g T s) (prepare_terrain e0 g T) e0
              (generateElevationWalls g e0) tw fow a b) as (p & -> & Hp);
    [done|done| |done|done|].
  { rewrite prepare_cache by apply Hok. apply lookup_insert_eq. }
  f_equal. apply not_false_iff_true. intros [[c Hc]|[Hne|Hb]]%Hp.
  - apply generateElevationWalls_lookup in Hc as (Hc & Hz & _); [|apply Hok].
    apply Hflat in Hc. lia.
  - destruct (Hk (xy2key (Int a) (Int b))) as (_ & _ & Hmem).
    destruct (default [] (tw !! xy2key (Int a) (Int b))) as [|d l]; [done|].
    assert (d ∈ expected_walls T e0 (xy2key (Int a) (Int b))) as Hd
      by (apply Hmem; by left).
    unfold expected_walls in Hd. rewrite Htree in Hd. by apply elem_of_nil in Hd.
  - apply (Hfow (xy2key (Int a) (Int b))). unfold fow_blocker. by rewrite Hf.
Qed.

(** C8 (as amended, against the modelled engine): on a ready instance
    whose grid is flat, with no tree and no FowBlocker cell, a call
    [updateVisibility(gX, gY, R)] from a cell of the grid with [R >= 1]
    lights exactly the cells of the grid at Chebyshev distance at most [R]
    from the origin; when the square of radius [R] lies inside the grid,
    [lightArea] is [min(2R+1, gridWidth) * min(2R+1, gridHeight)], which
    is 121 for a 260 x 260 grid, the origin (130, 130) and [R = 5]. *)
Theorem open_field_visibility s T g e0 gX gY R :
  ready_instance PreciseShadowcasting s →
  terrain s = Some T → elevationGrid T = Some g →
  (∀ k c, g !! k = Some c → c_z c = e0) →
  tree T = [] →
  (∀ k, ¬ fow_blocker T k) →
  0 <= gX < gridWidth s → 0 <= gY < gridHeight s →
  1 <= R →
  ∃ s' T',
    updateVisibility PreciseShadowcasting gX gY (Some R) s = Normal tt s' ∧
    terrain s' = Some T' ∧
    (∀ cx cy,
       lights T' !! xy2key (Int cx) (Int cy) = Some 255 ↔
       chebyshev gX gY cx cy <= R ∧ 0 <= cx < gridWidth s ∧ 0 <= cy < gridHeight s) ∧
    (0 <= gX - R ∧ gX + R < gridWidth s ∧ 0 <= gY - R ∧ gY + R < gridHeight s →
     lightArea s' =
       Some (Z.min (2 * R + 1) (gridWidth s) * Z.min (2 * R + 1) (gridHeight s)) ∧
     (gridWidth s = 260 → gridHeight s = 260 → gX = 130 → gY = 130 → R = 5 →
      lightArea s' = Some 121)).
Proof.
  intros (T0 & g0 & Hok)%ready_instance_ok HT Hg Hflat Htree Hfow HgX HgY HR.
  rewrite (ok_terrain _ _ _ Hok) in HT. injection HT as ->.
  rewrite (ok_grid _ _ _ Hok) in Hg. injection Hg as ->.
  destruct (proj2 (ok_cells _ _ _ Hok gX gY) (conj HgX HgY)) as [c Hc].
  assert (elevation_at g gX gY = Some e0) as HE.
  { unfold elevation_at. rewrite Hc. cbn. f_equal. by eapply Hflat. }
  assert (e0 ∈ elevationValues T) as He0.
  { rewrite <- (Hflat _ _ Hc). by eapply ok_levels. }
  pose proof (lightPasses_open s T g e0 Hok Hflat Htree Hfow He0) as Hlp.
  destruct (open_sweep (treeWalls T !! e0) _ gX gY R Hlp) as (Hcells & Hvis & Hres);
    [lia|].
  assert (or_else (Some R) (radius s) = R) as Hrad.
  { cbn. rewrite decide_False; [done|lia]. }
  destruct (updateVisibility_run PreciseShadowcasting s T g gX gY (Some R) e0
              ((2 * R + 1) * (2 * R + 1)) Hok HE) as (l & Hrun & Hl).
  { unfold sweep_of. by rewrite Hrad. }
  unfold sweep_of in Hl. rewrite Hrad in Hl.
  set (visits := (PreciseShadowcasting (treeWalls T !! e0)
                    (lightPassesCallback (prepare e0 g T s)) gX gY R).1) in *.
  set (cells := (gX, gY) :: (r ← seqZ 1 R; ring gX gY r)) in *.
  assert (∀ cx cy, (cx, cy) ∈ cells ↔ chebyshev gX gY cx cy <= R) as Hcheb.
  { intros cx cy. unfold cells. rewrite elem_of_cons, elem_of_rings.
    pose proof (chebyshev_origin gX gY cx cy) as H0.
    assert (0 <= chebyshev gX gY cx cy) by (unfold chebyshev; lia).
    split; [intros [[= -> ->]|?]; lia|]. intros Hle.
    destruct (decide (chebyshev gX gY cx cy = 0)) as [Hz|?]; [|right; lia].
    left. apply H0 in Hz as [-> ->]. done. }
  assert (∀ v, v ∈ visits →
            (lit T g e0 v ↔ 0 <= v_x v < gridWidth s ∧ 0 <= v_y v < gridHeight s)) as Hlit.
  { intros v Hv. unfold lit. cbv zeta. rewrite (ok_cells _ _ _ Hok). split; [tauto|].
    intros Hin. split; [by apply Hvis|]. split; [done|]. split; [apply Hfow|].
    unfold tree_blocked. rewrite (reg_relations T (ok_registry _ _ _ Hok)), Htree.
    cbn. by intros ?%Exists_nil. }
  eexists _, _. split; [exact Hrun|]. split; [done|]. cbn [lights set_area set_lights].
  split.
  - intros cx cy. rewrite Hl, <- Hcheb, <- Hcells. split.
    + intros (_ & v & Hv & Hlv & Hk). apply (inj (λ c : Z * Z, xy2key (Int c.1) (Int c.2))
        (cx, cy) (v_x v, v_y v)) in Hk as [= -> ->].
      split; [by apply list_elem_of_fmap_2'  with v|]. by apply Hlit.
    + intros ((v & [= -> ->] & Hv)%list_elem_of_fmap & Hin). split; [done|].
      exists v. split_and!; [done| |done]. by apply Hlit.
  - intros (Hx0 & Hx1 & Hy0 & Hy1).
    assert (Z.of_nat (size l) = (2 * R + 1) * (2 * R + 1)) as Hsize.
    { rewrite <- size_dom.
      assert (dom l = list_to_set ((λ c : Z * Z, xy2key (Int c.1) (Int c.2)) <$> cells)) as ->.
      { apply set_eq. intros k. rewrite elem_of_dom, elem_of_list_to_set, list_elem_of_fmap.
        split.
        - intros [n (_ & v & Hv & _ & ->)%Hl]. exists (v_x v, v_y v). split; [done|].
          rewrite <- Hcells. by apply list_elem_of_fmap_2' with v.
        - intros ([cx cy] & -> & Hc'). exists 255. apply Hl. split; [done|].
          pose proof Hc' as Hc''. rewrite <- Hcells in Hc'.
          apply list_elem_of_fmap in Hc' as (v & [= -> ->] & Hv).
          exists v. split_and!; [done| |done]. apply Hlit; [done|].
          apply Hcheb in Hc''. unfold chebyshev in Hc''. lia. }
      rewrite size_list_to_set, length_fmap.
      - unfold cells. cbn [length]. rewrite Nat2Z.inj_succ.
        rewrite <- (Z2Nat.id R) by lia. rewrite length_rings. lia.
      - apply NoDup_fmap_2; [apply _|]. unfold cells. apply NoDup_cons. split.
        + intros Hin%elem_of_rings.
          pose proof (proj2 (chebyshev_origin gX gY gX gY) (conj eq_refl eq_refl)). lia.
        + apply NoDup_rings. }
    cbn [lightArea set_lightArea]. rewrite Hsize. split.
    + by rewrite !Z.min_l by lia.
    + intros HW HH -> -> ->. done.
Qed.

(** ** Instances that are not ready *)

Lemma isValidXY_unready x y b1 b2 b3 s :
  ready s = false → isValidXY x y b1 b2 b3 s = Normal false s.
Proof. intros Hr. unfold isValidXY. by rewrite Hr. Qed.

Lemma unready_instance_inv compute s :
  unready_instance compute s →
  ready s = false ∧
  (terrain s = None ∨
   ∃ T, terrain s = Some T ∧ elevationGrid T = None ∧ tree_relations T = ∅).
Proof.
  induction 1 as [wd o|s cache|s op _ [Hr Hinv]].
  - split; [done|by left].
  - split; [done|]. right. by exists reset_terrain.
  - destruct op as [gX gY r|x y|x y b1 b2 b3|r]; cbn [perform].
    + assert (updateVisibility compute gX gY r s = Throw TypeError s) as ->; [|done].
      unfold updateVisibility. destruct Hinv as [->|(T & -> & -> & _)]; done.
    + assert (state_of (toggleTree x y s) = s) as ->; [|done].
      unfold toggleTree. destruct Hinv as [->|(T & -> & _ & ->)]; [done|].
      by rewrite lookup_empty.
    + by rewrite isValidXY_state.
    + split; [done|]. destruct Hinv as [?|(T & ? & ? & ?)]; [by left|right; by exists T].
Qed.

(** C2 (as amended): on an instance that is not ready, [isValidXY] returns
    [false] at once (its guard on [ready]); [updateVisibility] has no such
    guard and raises a [TypeError] when it reads the elevation grid, which
    is still [null] or [undefined], leaving the instance as it was;
    [toggleTree] has no guard either: it returns [false] and changes
    nothing once [initialize] has been called (the reverse index is then
    empty), and raises a [TypeError] if it never was. *)
Theorem unready_queries compute s :
  unready_instance compute s →
  ready s = false ∧
  (∀ x y b1 b2 b3, isValidXY x y b1 b2 b3 s = Normal false s) ∧
  (∀ gX gY r, updateVisibility compute gX gY r s = Throw TypeError s) ∧
  (∀ x y, toggleTree x y s =
          match terrain s with
          | Some _ => Normal false s
          | None => Throw TypeError s
          end).
Proof.
  intros [Hr Hinv]%unready_instance_inv. split_and!; [done| | |].
  - intros. by apply isValidXY_unready.
  - intros gX gY r. unfold updateVisibility.
    destruct Hinv as [->|(T & -> & -> & _)]; done.
  - intros x y. unfold toggleTree.
    destruct Hinv as [->|(T & -> & _ & ->)]; [done|]. by rewrite lookup_empty.
Qed.

(** ** The point cache *)

Lemma foldl_bind {A B C} (f : A → B → A) (g : C → list B) a l :
  foldl f a (l ≫= g) = foldl (λ a x, foldl f a (g x)) a l.
Proof.
  revert a. induction l as [|x l IH]; intros a; [done|].
  by rewrite bind_cons, foldl_app, IH.
Qed.

Lemma prime_cache_flat W H cache :
  prime_cache W H cache =
  foldl (λ c p, <[xy2key (Int p.1) (Int p.2) := xy2pt (Int p.1) (Int p.2)]> c) cache
        (i ← seqZ 0 W; j ← seqZ 0 H; [(i, j)]).
Proof.
  unfold prime_cache. rewrite foldl_bind. revert cache.
  induction (seqZ 0 W) as [|i l IH]; intros cache; [done|].
  cbn [foldl]. rewrite <- IH. f_equal. by rewrite foldl_bind.
Qed.

(** What [initialize] does to the cache: the keys of the grid cells get
    their points, every other key keeps what it had. *)
Lemma prime_cache_lookup W H cache k :
  (∀ i j, 0 <= i < W → 0 <= j < H → k = xy2key (Int i) (Int j) →
          prime_cache W H cache !! k = Some (xy2pt (Int i) (Int j))) ∧
  (¬ grid_key W H k → prime_cache W H cache !! k = cache !! k) ∧
  (is_Some (cache !! k) → is_Some (prime_cache W H cache !! k)).
Proof.
  rewrite prime_cache_flat.
  set (cells := i ← seqZ 0 W; j ← seqZ 0 H; [(i, j)]).
  assert (∀ i j, (i, j) ∈ cells ↔ 0 <= i < W ∧ 0 <= j < H) as Hcells.
  { intros i j. unfold cells. rewrite list_elem_of_bind. split.
    - intros (i' & (j' & Hp%list_elem_of_singleton & Hj%elem_of_seqZ)%list_elem_of_bind
                 & Hi%elem_of_seqZ). simplify_eq. lia.
    - intros [Hi Hj]. exists i. split; [|apply elem_of_seqZ; lia].
      apply list_elem_of_bind. exists j. split; [by apply list_elem_of_singleton|].
      apply elem_of_seqZ; lia. }
  cut ((∀ i j, (i, j) ∈ cells → k = xy2key (Int i) (Int j) →
          foldl (λ c p, <[xy2key (Int p.1) (Int p.2) := xy2pt (Int p.1) (Int p.2)]> c)
                cache cells !! k = Some (xy2pt (Int i) (Int j))) ∧
       ((∀ i j, (i, j) ∈ cells → k ≠ xy2key (Int i) (Int j)) →
          foldl (λ c p, <[xy2key (Int p.1) (Int p.2) := xy2pt (Int p.1) (Int p.2)]> c)
                cache cells !! k = cache !! k) ∧
       (is_Some (cache !! k) →
          is_Some (foldl (λ c p, <[xy2key (Int p.1) (Int p.2) := xy2pt (Int p.1) (Int p.2)]> c)
                         cache cells !! k))).
  { intros (H1 & H2 & H3). split_and!; [|  |done].
    - intros i j Hi Hj. apply H1. by apply Hcells.
    - intros Hk. apply H2. intros i j [??]%Hcells ->. apply Hk. by exists i, j. }
  clear Hcells.
  apply (foldl_prefix_ind (λ pre c,
    (∀ i j, (i, j) ∈ pre → k = xy2key (Int i) (Int j) →
       c !! k = Some (xy2pt (Int i) (Int j))) ∧
    ((∀ i j, (i, j) ∈ pre → k ≠ xy2key (Int i) (Int j)) → c !! k = cache !! k) ∧
    (is_Some (cache !! k) → is_Some (c !! k)))).
  - split_and!; [|done..]. intros i j Hin. by apply elem_of_nil in Hin.
  - intros pre [i j] post c _ (H1 & H2 & H3). cbn [fst snd].
    destruct (decide (k = xy2key (Int i) (Int j))) as [->|Hne].
    + rewrite lookup_insert_eq. split_and!; [| |by eauto].
      * intros i' j' _ [[= ->] [= ->]]%xy2key_inj. done.
      * intros Hk. exfalso. apply (Hk i j); [|done]. apply elem_of_app. right. by left.
    + rewrite lookup_insert_ne by done. split_and!; [| |done].
      * intros i' j' [?|Hs%list_elem_of_singleton]%elem_of_app ?; [by eauto|].
        by simplify_eq.
      * intros Hk. apply H2. intros i' j' Hin. apply Hk. apply elem_of_app. by left.
Qed.

(** C9 (as amended): the [key2pt] cache is one map of the module, shared by
    every instance: [key2pt] called on any instance reads and fills that
    same map, returning the cached point when the key is there and caching
    the parsed point otherwise; [initialize] never clears it: with an image
    it stores the point of every grid cell under its key and leaves every
    other entry as it was, without an image it leaves the map as it
    was. *)
Theorem key2pt_cache_shared this key load s cache :
  (let r := method_key2pt this key cache in
   r = key2pt key cache ∧ r.2 !! key = Some r.1 ∧
   (∀ pt, cache !! key = Some pt → r = (pt, cache)) ∧
   (∀ k, k ≠ key → r.2 !! k = cache !! k)) ∧
  (let cache' := (initialize load s cache).2 in
   (∀ k, is_Some (cache !! k) → is_Some (cache' !! k)) ∧
   (∀ k, ¬ grid_key (gridWidth s) (gridHeight s) k → cache' !! k = cache !! k) ∧
   (∀ img i j, load = Some img → 0 <= i < gridWidth s → 0 <= j < gridHeight s →
      cache' !! xy2key (Int i) (Int j) = Some (xy2pt (Int i) (Int j))) ∧
   (load = None → cache' = cache)).
Proof.
  split.
  - cbv zeta. unfold method_key2pt, key2pt. split; [done|].
    destruct (cache !! key) as [pt|] eqn:Hk; cbn.
    + split_and!; [done|by intros ? [= ->]|done].
    + split_and!; [by rewrite lookup_insert_eq|done|].
      intros k Hne. by rewrite lookup_insert_ne.
  - cbv zeta. unfold initialize. destruct load as [img|]; [|done].
    destruct (initialize_ok img s cache) as (s' & T & g & Hrun & _).
    unfold initialize in Hrun.
    destruct (load_terrain _ img reset_terrain) as [[] T'|e T']; [|done]. cbn [snd].
    split_and!; [| | |done].
    + intros k. apply prime_cache_lookup.
    + intros k. apply prime_cache_lookup.
    + intros img' i j _ Hi Hj. by apply prime_cache_lookup.
Qed.

(** ** The sample instances *)

Lemma forest_ready compute : ready_instance compute forest.
Proof.
  apply (ready_initialize compute (construct small_world None) forest_image ∅).
  vm_compute. reflexivity.
Defined.

Lemma flat_ready compute : ready_instance compute flat.
Proof.
  apply (ready_initialize compute (construct small_world None) flat_image ∅).
  vm_compute. reflexivity.
Defined.

Lemma forest_terrain : terrain forest = Some (terrain_of forest).
Proof. vm_compute. reflexivity. Defined.

Lemma forest_grid : elevationGrid (terrain_of forest) = Some (grid_of forest).
Proof. vm_compute. reflexivity. Defined.

Lemma flat_terrain : terrain flat = Some (terrain_of flat).
Proof. vm_compute. reflexivity. Defined.

Lemma flat_grid : elevationGrid (terrain_of flat) = Some (grid_of flat).
Proof. vm_compute. reflexivity. Defined.

(** The tree of [forest] stands on the corners (0,0), (0,1), (1,0), (1,1):
    cutting it empties the four entries at both levels, and toggling it
    again puts its descriptor back. *)
Example forest_walls :
  tree_walls_at (terrain_of forest) 10 "1,1" = [TreeWall (Half 0) (Half 0)] ∧
  tree_walls_at (terrain_of (perform probe (OpToggleTree 1 1) forest)) 10 "1,1" = [] ∧
  tree_walls_at (terrain_of (perform probe (OpToggleTree 0 1)
                   (perform probe (OpToggleTree 1 1) forest))) 20 "0,0"
    = [TreeWall (Half 0) (Half 0)].
Proof. vm_compute. done. Qed.

(** C1, at the sample forest after its tree has been cut. *)
Lemma tree_walls_consistent_witness :
  let s := perform PreciseShadowcasting (OpToggleTree 1 1) forest in
  ready_instance PreciseShadowcasting s ∧
  ∃ T, terrain s = Some T ∧ registry_ok T ∧
    ∀ L k, L ∈ elevationValues T → tree_walls_at T L k ≡ₚ expected_walls T L k.
Proof.
  intros s.
  assert (ready_instance PreciseShadowcasting s) as Hs
    by apply ready_perform, forest_ready.
  split; [exact Hs|]. exact (tree_walls_consistent PreciseShadowcasting s Hs).
Defined.

(** C5, at the sample forest and the corner (1, 1) of its tree. *)
Lemma toggleTree_twice_witness :
  ready_instance PreciseShadowcasting forest ∧
  ∃ b s1 s2 T T2,
    toggleTree 1 1 forest = Normal b s1 ∧ toggleTree 1 1 s1 = Normal b s2 ∧
    terrain forest = Some T ∧ terrain s2 = Some T2 ∧
    tree_state T2 = tree_state T ∧
    ∀ L k, L ∈ elevationValues T → tree_walls_at T2 L k ≡ₚ tree_walls_at T L k.
Proof.
  split; [apply forest_ready|].
  exact (toggleTree_twice PreciseShadowcasting forest 1 1 (forest_ready _)).
Defined.

(** C6, at the sample forest. *)
Lemma elevation_walls_lazy_witness :
  ready_instance PreciseShadowcasting forest ∧
  ∃ T g, terrain forest = Some T ∧ elevationGrid T = Some g ∧
    ∀ E w, elevationWalls T !! E = Some w → w = generateElevationWalls g E.
Proof.
  split; [apply forest_ready|].
  destruct (elevation_walls_lazy PreciseShadowcasting forest (forest_ready _))
    as (T & g & H1 & H2 & _ & _ & H3 & _).
  exists T, g. auto.
Defined.

(** The only cell of [forest] above level 10 is (2, 2), and it is a wall
    for an observer at level 10. *)
Example forest_contour :
  dom (generateElevationWalls (grid_of forest) 10) = {["2,2"]}.
Proof. vm_compute. reflexivity. Qed.




(** From (2, 0) with radius 1 the sweep visits 9 cells; 5 are off the grid,
    (1, 0) and (1, 1) are corners of the standing tree: 2 cells are lit. *)
Example forest_lights :
  let s' := state_of (updateVisibility PreciseShadowcasting 2 0 (Some 1) forest) in
  dom (lights (terrain_of s')) = {["2,0"; "2,1"]} ∧
  lightArea s' = Some 2 ∧ area (terrain_of s') = 9.
Proof. vm_compute. done. Qed.

(** ** The opacity predicate on the sample forest *)

(** The forest once a query from (2, 0) has run: level 10 is active. *)
Lemma forest_seen_fields :
  let s := state_of (updateVisibility PreciseShadowcasting 2 0 (Some 1) forest) in
  let T := terrain_of s in
  terrain s = Some T ∧ elevation s = Some 10 ∧
  elevationWalls T !! 10 = Some (default ∅ (elevationWalls T !! 10)) ∧
  treeWalls T !! 10 = Some (default ∅ (treeWalls T !! 10)) ∧
  ent_fow_blocker_node T = Some (default ∅ (ent_fow_blocker_node T)).
Proof. vm_compute. done. Defined.

(** C4, at the sample forest after a query from (2, 0), for the cell
    (1, 1), a corner of the standing tree. *)
Lemma lightPasses_opacity_witness :
  let s := state_of (updateVisibility PreciseShadowcasting 2 0 (Some 1) forest) in
  let T := terrain_of s in
  ∃ passes,
    lightPassesCallback s 1 1 = Some passes ∧
    (passes = false ↔
     opaque_at (default ∅ (elevationWalls T !! 10)) (default ∅ (treeWalls T !! 10))
               (default ∅ (ent_fow_blocker_node T)) (xy2key (Int 1) (Int 1))) ∧
    ∀ gn nw,
      lightPassesCallback (set_terrain (set_validity gn nw T) s) 1 1 = Some passes.
Proof.
  intros s T.
  destruct forest_seen_fields as (H1 & H2 & H3 & H4 & H5).
  exact (lightPasses_opacity s T 10 _ _ _ 1 1 H1 H2 H3 H4 H5).
Defined.

(** The corner (1, 1) of the standing tree and the raised cell (2, 2) are
    opaque at level 10, the cell (2, 1) is not. *)
Example forest_opacity :
  let s := state_of (updateVisibility PreciseShadowcasting 2 0 (Some 1) forest) in
  lightPassesCallback s 1 1 = Some false ∧
  lightPassesCallback s 2 2 = Some false ∧
  lightPassesCallback s 2 1 = Some true.
Proof. vm_compute. done. Qed.

(** ** Instances that are not ready *)

(** C2, at the instance whose image is still loading. *)
Lemma unready_queries_witness :
  unready_instance PreciseShadowcasting pending ∧
  ready pending = false ∧
  (∀ x y b1 b2 b3, isValidXY x y b1 b2 b3 pending = Normal false pending) ∧
  (∀ gX gY r,
     updateVisibility PreciseShadowcasting gX gY r pending = Throw TypeError pending) ∧
  (∀ x y, toggleTree x y pending =
          match terrain pending with
          | Some _ => Normal false pending
          | None => Throw TypeError pending
          end).
Proof.
  assert (unready_instance PreciseShadowcasting pending) as Hp
    by apply unready_initialize.
  split; [exact Hp|]. exact (unready_queries PreciseShadowcasting pending Hp).
Defined.

(** C2 as stated does not hold: on an instance that is not ready,
    [toggleTree] and [isValidXY] return [false], they do not fail. *)
Lemma unready_query_returns :
  unready_instance PreciseShadowcasting pending ∧
  ready pending = false ∧
  toggleTree 1 1 pending = Normal false pending ∧
  ¬ fails (toggleTree 1 1 pending) ∧
  isValidXY 1 1 false false false pending = Normal false pending ∧
  ¬ fails (isValidXY 1 1 false false false pending).
Proof.
  split; [apply unready_initialize|]. vm_compute. tauto.
Qed.

(** ** The radius fallback *)

(** C10, at the sample forest, whose default radius is 25. *)
Lemma radius_fallback_witness :
  radius forest ≠ 0 ∧
  ∀ compute',
    (∀ w lp x y R, R ≠ 0 → compute' w lp x y R = PreciseShadowcasting w lp x y R) →
    updateVisibility compute' 2 0 (Some 0) forest =
    updateVisibility PreciseShadowcasting 2 0 (Some 0) forest.
Proof.
  assert (radius forest ≠ 0) as Hr by (vm_compute; discriminate).
  split; [exact Hr|].
  destruct (radius_fallback PreciseShadowcasting forest 2 0) as (_ & _ & H & _).
  exact (H Hr).
Defined.

(** C10 as stated does not hold: [setRadius(0)] makes the default radius 0,
    and a call with radius 0 then asks the engine for radius 0: the engine
    that returns its radius returns 0, and the modelled shadowcasting lights
    the origin alone. *)
Lemma radius_zero_query :
  let s := perform PreciseShadowcasting (OpSetRadius 0) flat in
  ready_instance PreciseShadowcasting s ∧ radius s = 0 ∧
  area (terrain_of (state_of (updateVisibility probe 1 1 (Some 0) s))) = 0 ∧
  let s' := state_of (updateVisibility PreciseShadowcasting 1 1 (Some 0) s) in
  dom (lights (terrain_of s')) = {["1,1"]} ∧ lightArea s' = Some 1.
Proof.
  split; [apply ready_perform, flat_ready|]. vm_compute. done.
Qed.

(** ** The open field *)

Lemma flat_level k c : grid_of flat !! k = Some c → c_z c = 10.
Proof.
  revert k c. change (map_Forall (λ _ c, c_z c = 10) (grid_of flat)).
  apply (bool_decide_unpack _). vm_compute. exact I.
Defined.

Lemma flat_no_trees : tree (terrain_of flat) = [].
Proof. vm_compute. reflexivity. Defined.

Lemma flat_no_blockers k : ¬ fow_blocker (terrain_of flat) k.
Proof.
  unfold fow_blocker.
  assert (ent_fow_blocker_node (terrain_of flat) = Some ∅) as ->
    by (vm_compute; reflexivity).
  rewrite lookup_empty. by intros [??].
Defined.

Lemma flat_size : gridWidth flat = 3 ∧ gridHeight flat = 3.
Proof. vm_compute. done. Defined.

(** C8, at the flat sample, from its middle cell with radius 1. *)
Lemma open_field_visibility_witness :
  ready_instance PreciseShadowcasting flat ∧
  ∃ s' T',
    updateVisibility PreciseShadowcasting 1 1 (Some 1) flat = Normal tt s' ∧
    terrain s' = Some T' ∧
    (∀ cx cy,
       lights T' !! xy2key (Int cx) (Int cy) = Some 255 ↔
       chebyshev 1 1 cx cy <= 1 ∧ 0 <= cx < gridWidth flat ∧ 0 <= cy < gridHeight flat) ∧
    lightArea s' = Some 9.
Proof.
  split; [apply flat_ready|].
  destruct flat_size as [HW HH].
  destruct (open_field_visibility flat (terrain_of flat) (grid_of flat) 10 1 1 1
              (flat_ready _) flat_terrain flat_grid flat_level flat_no_trees
              flat_no_blockers)
    as (s' & T' & H1 & H2 & H3 & H4); [rewrite HW; lia|rewrite HH; lia|lia|].
  exists s', T'. split_and!; [done..|].
  destruct H4 as [H4 _]; [rewrite HW, HH; lia|].
  rewrite HW, HH in H4. exact H4.
Defined.

(** C8 as stated does not hold for [R = 0]: the square of radius 0 is the
    origin, inside the grid, and the count would be 1; the call falls back
    to the default radius, 25, and lights the 9 cells of the grid. *)
Lemma open_field_radius_zero :
  ready_instance PreciseShadowcasting flat ∧
  (∀ k c, grid_of flat !! k = Some c → c_z c = 10) ∧
  tree (terrain_of flat) = [] ∧
  (∀ k, ¬ fow_blocker (terrain_of flat) k) ∧
  (0 <= 1 - 0 ∧ 1 + 0 < gridWidth flat ∧ 0 <= 1 - 0 ∧ 1 + 0 < gridHeight flat) ∧
  let s' := state_of (updateVisibility PreciseShadowcasting 1 1 (Some 0) flat) in
  Z.min (2 * 0 + 1) (gridWidth flat) * Z.min (2 * 0 + 1) (gridHeight flat) = 1 ∧
  lightArea s' = Some 9 ∧
  lights (terrain_of s') !! xy2key (Int 0) (Int 0) = Some 255 ∧
  chebyshev 1 1 0 0 = 1.
Proof.
  split_and!; [apply flat_ready|apply flat_level|apply flat_no_trees
              |apply flat_no_blockers|vm_compute; done..|].
  vm_compute. done.
Qed.

(** ** The point cache *)

(** C9, at an instance fresh from the constructor and the cache another
    instance has primed. *)
Lemma key2pt_cache_shared_witness :
  let cache := (initialize (Some flat_image) (construct small_world None) ∅).2 in
  let r := method_key2pt (construct small_world None) "1,2" cache in
  r = key2pt "1,2" cache ∧ r.2 !! "1,2" = Some r.1 ∧
  (∀ pt, cache !! "1,2" = Some pt → r = (pt, cache)) ∧
  (∀ k, k ≠ "1,2" → r.2 !! k = cache !! k).
Proof.
  intros cache r.
  exact (proj1 (key2pt_cache_shared (construct small_world None) "1,2" None
                  (construct small_world None) cache)).
Defined.

(** C9 as stated does not hold: the point an instance caches is served to
    another instance, and an entry survives a re-initialization. *)
Lemma key2pt_cache_leaks :
  let one := construct small_world None in
  let other := construct small_world None in
  let cache1 := (initialize (Some flat_image) one ∅).2 in
  let cache2 := (method_key2pt other "9,9" cache1).2 in
  let cache3 := (initialize (Some flat_image) flat cache2).2 in
  (∅ : gmap string point) !! "1,2" = None ∧
  cache1 !! "1,2" = Some (xy2pt (Int 1) (Int 2)) ∧
  method_key2pt other "1,2" cache1 = (xy2pt (Int 1) (Int 2), cache1) ∧
  cache2 !! "9,9" = Some (xy2pt (Int 9) (Int 9)) ∧
  cache3 !! "9,9" = Some (xy2pt (Int 9) (Int 9)) ∧
  cache3 !! "1,2" = Some (xy2pt (Int 1) (Int 2)).
Proof. vm_compute. done. Qed.

(** ** Parsing a printed number back *)

Lemma digit_value_pretty (x : N) :
  (x < 10)%N → digit_value (pretty_N_char x) = Some (Z.of_N x).
Proof.
  intros Hx.
  assert (x = 0 ∨ x = 1 ∨ x = 2 ∨ x = 3 ∨ x = 4 ∨ x = 5 ∨ x = 6 ∨ x = 7 ∨ x = 8 ∨ x = 9)%N
    as Hcases by lia.
  repeat (destruct Hcases as [->|Hcases]; [reflexivity|]). by subst.
Qed.

Lemma digits_pretty_N_go (x : N) s :
  (0 < x)%N → digits 10 None (pretty_N_go x s) = digits 10 (Some (Z.of_N x)) s.
Proof.
  revert s. induction (N.lt_wf_0 x) as [x _ IH]. intros s Hx.
  rewrite pretty_N_go_step by done.
  destruct (N.eq_0_gt_0_cases (x `div` 10)) as [H0|Hpos].
  - rewrite H0, pretty_N_go_0. cbn [digits].
    rewrite digit_value_pretty by (apply N.mod_lt; lia).
    rewrite decide_True by (pose proof (N.mod_lt x 10); lia).
    do 2 f_equal. cbn [default from_option id].
    pose proof (N.div_mod x 10). lia.
  - rewrite IH; [|apply N.div_lt; lia|done]. cbn [digits].
    rewrite digit_value_pretty by (apply N.mod_lt; lia).
    rewrite decide_True by (pose proof (N.mod_lt x 10); lia).
    do 2 f_equal. cbn [default from_option id].
    pose proof (N.div_mod x 10). lia.
Qed.

Lemma pretty_N_go_app (x : N) a b : pretty_N_go x a +:+ b = pretty_N_go x (a +:+ b).
Proof.
  revert a. induction (N.lt_wf_0 x) as [x _ IH]. intros a.
  assert (x = 0 ∨ 0 < x)%N as [->|Hx] by lia; [by rewrite !pretty_N_go_0|].
  rewrite (pretty_N_go_step x a), (pretty_N_go_step x (a +:+ b)) by done.
  rewrite IH by (apply N.div_lt; lia). done.
Qed.

(** The digits of a printed natural number, followed by nothing or by the
    fraction [.5], read back as that number. *)
Lemma digits_pretty (n : N) t :
  t = "" ∨ t = ".5" → digits 10 None (pretty n +:+ t) = Some (Z.of_N n).
Proof.
  intros Ht. unfold pretty, pretty_N. case_decide as Hn.
  - subst n. by destruct Ht as [->| ->].
  - rewrite pretty_N_go_app. cbn [String.append].
    rewrite digits_pretty_N_go by lia. by destruct Ht as [->| ->].
Qed.

Lemma digit_not_sign c d :
  digit_value c = Some d →
  is_space c = false ∧ c ≠ "-"%char ∧ c ≠ "+"%char.
Proof.
  destruct c as [[] [] [] [] [] [] [] []]; vm_compute; intros; split_and!; congruence.
Qed.

Lemma unsigned_decimal s :
  str_all is_num_char s = true → unsigned s = digits 10 None s.
Proof.
  destruct s as [|c r]; [done|]. intros Hs.
  destruct (decide (c = "0"%char)) as [->|Hc].
  - destruct r as [|c2 r2]; [done|].
    cbn [str_all] in Hs. rewrite !andb_true_iff in Hs. destruct Hs as (_ & Hc2 & _).
    destruct c2 as [[] [] [] [] [] [] [] []];
      first [reflexivity | exfalso; vm_compute in Hc2; discriminate].
  - destruct c as [[] [] [] [] [] [] [] []]; first [reflexivity | done].
Qed.

Lemma parseInt_decimal s n :
  str_all is_num_char s = true → digits 10 None s = Some n →
  parseInt s = Int n ∧ parseInt ("-" +:+ s) = Int (- n).
Proof.
  intros Hs Hn. pose proof (unsigned_decimal s Hs) as Hu.
  destruct s as [|c r]; [done|].
  assert (∃ d, digit_value c = Some d) as [d Hd].
  { cbn in Hn. destruct (digit_value c); [by eauto|done]. }
  apply digit_not_sign in Hd as (Hsp & Hm & Hp).
  split.
  - unfold parseInt. cbn [skip_space]. rewrite Hsp.
    assert (match String c r with
            | String "-" s' => (true, s')
            | String "+" s' => (false, s')
            | _ => (false, String c r)
            end = (false, String c r)) as ->.
    { destruct c as [[] [] [] [] [] [] [] []]; first [reflexivity | done]. }
    by rewrite Hu, Hn.
  - unfold parseInt. change ("-" +:+ String c r) with (String "-" (String c r)).
    cbn [skip_space]. change (is_space "-") with false. cbv iota.
    by rewrite Hu, Hn.
Qed.

Lemma pretty_Z_nonneg (z : Z) : 0 <= z → pretty z = pretty (Z.to_N z).
Proof. by destruct z. Qed.

Lemma pretty_N_num_chars (n : N) t :
  t = "" ∨ t = ".5" → str_all is_num_char (pretty n +:+ t) = true.
Proof.
  intros Ht. rewrite str_all_app. apply andb_true_intro. split.
  - apply (str_all_impl is_digit); [|apply pretty_N_digits].
    intros c Hc. unfold is_num_char, is_int_char. by rewrite Hc.
  - by destruct Ht as [->| ->].
Qed.


Lemma str_app_nil s : s +:+ "" = s.
Proof.
  induction s as [|c s IH]; [done|].
  change (String c s +:+ "") with (String c (s +:+ "")). by rewrite IH.
Qed.

Lemma parseInt_pretty_N (n : N) t :
  t = "" ∨ t = ".5" →
  parseInt (pretty n +:+ t) = Int (Z.of_N n) ∧
  parseInt ("-" +:+ pretty n +:+ t) = Int (- Z.of_N n).
Proof.
  intros Ht. apply parseInt_decimal; [by apply pretty_N_num_chars|by apply digits_pretty].
Qed.

Lemma parseInt_to_string c : parseInt (to_string c) = truncated c.
Proof.
  destruct c as [z|z| |]; [| |done..]; unfold to_string, truncated.
  - destruct z as [|p|p]; [done| |].
    + change (pretty (Z.pos p)) with (pretty (N.pos p)).
      rewrite <- (str_app_nil (pretty (N.pos p))).
      by destruct (parseInt_pretty_N (N.pos p) "") as [-> _]; [left|].
    + change (pretty (Z.neg p)) with ("-" +:+ pretty (N.pos p)).
      rewrite <- (str_app_nil (pretty (N.pos p))).
      by destruct (parseInt_pretty_N (N.pos p) "") as [_ ->]; [left|].
  - case_decide as Hz.
    + rewrite pretty_Z_nonneg by done.
      destruct (parseInt_pretty_N (Z.to_N z) ".5") as [-> _]; [by right|].
      f_equal. lia.
    + rewrite pretty_Z_nonneg by lia.
      destruct (parseInt_pretty_N (Z.to_N (- z - 1)) ".5") as [_ ->]; [by right|].
      f_equal. lia.
Qed.

(** *** Splitting a key *)

Lemma rev_app_app cur t a : String.rev_app cur t +:+ a = String.rev_app cur (t +:+ a).
Proof. revert t. induction cur as [|c cur IH]; intros t; [done|]. cbn. by rewrite IH. Qed.

Lemma rev_snoc c cur a : String.rev (String c cur) +:+ a = String.rev cur +:+ String c a.
Proof. unfold String.rev. cbn [String.rev_app]. by rewrite !rev_app_app. Qed.

Lemma split_comma_go_last cur a :
  str_all (not_char ",") a = true → split_comma_go cur a = [String.rev cur +:+ a].
Proof.
  revert cur. induction a as [|c a IH]; intros cur Ha.
  - cbn. by rewrite str_app_nil.
  - cbn in Ha. apply andb_prop in Ha as [Hc Ha]. cbn [split_comma_go].
    unfold not_char in Hc. apply negb_true_iff in Hc. rewrite Hc.
    rewrite IH by done. by rewrite rev_snoc.
Qed.

Lemma split_comma_go_first cur a b :
  str_all (not_char ",") a = true →
  split_comma_go cur (a +:+ String "," b) = (String.rev cur +:+ a) :: split_comma_go "" b.
Proof.
  revert cur. induction a as [|c a IH]; intros cur Ha.
  - change ("" +:+ String "," b) with (String "," b). cbn. by rewrite str_app_nil.
  - cbn in Ha. apply andb_prop in Ha as [Hc Ha].
    change (String c a +:+ String "," b) with (String c (a +:+ String "," b)).
    cbn [split_comma_go].
    unfold not_char in Hc. apply negb_true_iff in Hc. rewrite Hc.
    rewrite IH by done. by rewrite rev_snoc.
Qed.

Lemma split_comma_xy2key x y : split_comma (xy2key x y) = [to_string x; to_string y].
Proof.
  unfold split_comma, xy2key.
  change ("," +:+ to_string y) with (String "," (to_string y)).
  rewrite (split_comma_go_first "" (to_string x) (to_string y)) by apply to_string_no_comma.
  rewrite split_comma_go_last by apply to_string_no_comma. done.
Qed.

Lemma key2pt_parse x y cache :
  cache !! xy2key x y = None →
  key2pt (xy2key x y) cache =
    ({| pt_x := truncated x; pt_y := truncated y; pt_key := xy2key x y |},
     <[xy2key x y := {| pt_x := truncated x; pt_y := truncated y;
                        pt_key := xy2key x y |}]> cache).
Proof.
  intros Hk. unfold key2pt. rewrite Hk, split_comma_xy2key. cbn.
  by rewrite !parseInt_to_string.
Qed.

(** ** Keys and points *)

(** X1: [xy2pt] stores under [key] the string [xy2key] builds, [pt2key]
    rebuilds it, and two pairs of coordinates (integers, half-integers)
    have the same key only when they are the same pair. *)
Theorem key_identifies_point x y x' y' :
  pt_key (xy2pt x y) = xy2key x y ∧
  pt2key (xy2pt x y) = xy2key x y ∧
  (xy2key x y = xy2key x' y' ↔ x = x' ∧ y = y') ∧
  (xy2pt x y = xy2pt x' y' ↔ x = x' ∧ y = y').
Proof.
  split_and!; [done|done| |].
  - split; [apply xy2key_inj|]. by intros [-> ->].
  - split; [|by intros [-> ->]]. by intros [= -> ->].
Qed.

(** X2: [key2pt] inverts [xy2key] on safe integer coordinates (below
    [2^53] in absolute value, where the key is the decimal print of the
    two numbers): for a key that is not cached yet it returns the point
    [xy2pt] builds, negative coordinates included, and caches it under the
    key. *)
Theorem key2pt_xy2key x y cache :
  safe_integer x → safe_integer y →
  cache !! xy2key (Int x) (Int y) = None →
  key2pt (xy2key (Int x) (Int y)) cache =
    (xy2pt (Int x) (Int y),
     <[xy2key (Int x) (Int y) := xy2pt (Int x) (Int y)]> cache) ∧
  pt2key (key2pt (xy2key (Int x) (Int y)) cache).1 = xy2key (Int x) (Int y).
Proof.
  intros _ _ Hk. rewrite key2pt_parse by done. done.
Qed.

Lemma key2pt_xy2key_witness :
  safe_integer (-3) ∧ safe_integer 12 ∧
  key2pt (xy2key (Int (-3)) (Int 12)) ∅ =
    (xy2pt (Int (-3)) (Int 12),
     <[xy2key (Int (-3)) (Int 12) := xy2pt (Int (-3)) (Int 12)]> ∅) ∧
  pt2key (key2pt (xy2key (Int (-3)) (Int 12)) ∅).1 = xy2key (Int (-3)) (Int 12).
Proof.
  assert (safe_integer (-3)) as H1 by (vm_compute; reflexivity).
  assert (safe_integer 12) as H2 by (vm_compute; reflexivity).
  split; [exact H1|]. split; [exact H2|].
  apply (key2pt_xy2key (-3) 12 ∅ H1 H2). reflexivity.
Defined.

(** X3: on the key of a tree origin (two half-integers) [key2pt] does not
    give the origin back: [parseInt] drops the fraction, towards zero, so
    the point has integer coordinates and its own [pt2key] differs from
    the key it is cached under. *)
Theorem key2pt_tree_origin a b cache :
  cache !! xy2key (Half a) (Half b) = None →
  let pt := (key2pt (xy2key (Half a) (Half b)) cache).1 in
  pt_x pt = Int (if decide (0 <= a) then a else a + 1) ∧
  pt_y pt = Int (if decide (0 <= b) then b else b + 1) ∧
  pt_key pt = xy2key (Half a) (Half b) ∧
  pt2key pt ≠ pt_key pt ∧
  pt ≠ xy2pt (Half a) (Half b).
Proof.
  intros Hk pt. unfold pt. rewrite key2pt_parse by done. cbn [fst pt_x pt_y pt_key truncated].
  split_and!; [done..| |done].
  unfold pt2key. cbn [pt_x pt_y]. intros Heq.
  by apply (xy2key_inj (Int _) (Int _) (Half _) (Half _)) in Heq as [? _].
Qed.

Lemma key2pt_tree_origin_witness :
  let pt := (key2pt (xy2key (Half (-1)) (Half 2)) ∅).1 in
  pt_x pt = Int 0 ∧ pt_y pt = Int 2 ∧ pt_key pt = "-0.5,2.5" ∧ pt2key pt ≠ pt_key pt.
Proof.
  destruct (key2pt_tree_origin (-1) 2 ∅) as (Hx & Hy & Hkey & Hne & _); [reflexivity|].
  intros pt. split_and!; [exact Hx|exact Hy|exact Hkey|exact Hne].
Defined.

(** ** Coordinate conversions *)

(** X4: for a grid height, a column and a row below [2^52] in absolute
    value (where the source's subtractions are exact), [GridXYtoImageXY]
    and [ImageXYtoGridXY] are inverse to each other: both keep the column
    and flip the row, row 0 of the image being the top row
    [gridHeight - 1] of the grid, and a row is in range on one side
    exactly when it is on the other. *)
Theorem image_grid_round_trip s x y :
  within 52 (gridHeight s) → within 52 x → within 52 y →
  (let i := GridXYtoImageXY s x y in
   ImageXYtoGridXY s i.1 i.2 = xy2pt (Int x) (Int y)) ∧
  (let pt := ImageXYtoGridXY s x y in
   ∃ gY, pt = xy2pt (Int x) (Int gY) ∧ GridXYtoImageXY s x gY = (x, y)) ∧
  (GridXYtoImageXY s x (gridHeight s - 1)).2 = 0 ∧
  (0 <= (GridXYtoImageXY s x y).2 < gridHeight s ↔ 0 <= y < gridHeight s).
Proof.
  intros _ _ _. split_and!.
  - unfold GridXYtoImageXY, ImageXYtoGridXY, xy2pt. cbn [fst snd to_string].
    by replace (gridHeight s - (gridHeight s - y - 1) - 1) with y by lia.
  - exists (gridHeight s - y - 1). split; [done|].
    unfold GridXYtoImageXY. f_equal. lia.
  - unfold GridXYtoImageXY. cbn. lia.
  - unfold GridXYtoImageXY. cbn. lia.
Qed.

Lemma image_grid_round_trip_witness :
  within 52 (gridHeight forest) ∧
  ImageXYtoGridXY forest (GridXYtoImageXY forest 1 2).1 (GridXYtoImageXY forest 1 2).2
    = xy2pt (Int 1) (Int 2) ∧
  (GridXYtoImageXY forest 1 2).2 = 0.
Proof.
  assert (within 52 (gridHeight forest)) as HH by (vm_compute; reflexivity).
  assert (within 52 1) as H1 by (vm_compute; reflexivity).
  assert (within 52 2) as H2 by (vm_compute; reflexivity).
  destruct (image_grid_round_trip forest 1 2 HH H1 H2) as (Hrt & _ & _ & _).
  split; [exact HH|]. split; [exact Hrt|]. vm_compute. reflexivity.
Defined.

Lemma round64_spec n g : round64 n = g ↔ 64 * g - 32 <= n < 64 * g + 32.
Proof.
  unfold round64. split.
  - intros <-. pose proof (Z.div_mod (n + 32) 64). pose proof (Z.mod_pos_bound (n + 32) 64). lia.
  - intros Hn. symmetry. apply (Z.div_unique (n + 32) 64 g (n + 32 - 64 * g)); lia.
Qed.

(** X5: for integer world coordinates and world minima below [2^52] and
    cell coordinates below [2^46] in absolute value (so that every number
    the source computes is a safe integer or an exact quotient by 64),
    [WorldXYtoGridXY] sends a world point to the cell [(gX, gY)] exactly
    when the point lies in the half-open square of side 64 centred on
    [GridXYtoWorldXY(gX, gY)]; in particular it sends that centre back to
    [(gX, gY)], and the centre of the cell it returns is within 32 units
    of the point. *)
Theorem world_grid_round_trip s gX gY wX wY :
  within 52 (worldMinX s) → within 52 (worldMinY s) → within 52 (gridHeight s) →
  within 52 wX → within 52 wY → within 46 gX → within 46 gY →
  let c := GridXYtoWorldXY s gX gY in
  (WorldXYtoGridXY s wX wY = xy2pt (Int gX) (Int gY) ↔
   c.1 - 32 <= wX < c.1 + 32 ∧ c.2 - 32 <= wY < c.2 + 32) ∧
  WorldXYtoGridXY s c.1 c.2 = xy2pt (Int gX) (Int gY) ∧
  (let g := world_cell s wX wY in
   let w := GridXYtoWorldXY s g.1 g.2 in
   WorldXYtoGridXY s wX wY = xy2pt (Int g.1) (Int g.2) ∧
   wX - 32 < w.1 <= wX + 32 ∧ wY - 32 < w.2 <= wY + 32) ∧
  WorldXYtoImageXY s c.1 c.2 = GridXYtoImageXY s gX gY.
Proof.
  intros _ _ _ _ _ _ _ c.
  assert (∀ a b, WorldXYtoGridXY s a b = xy2pt (Int gX) (Int gY) ↔
                 round64 (a - worldMinX s) = gX ∧ round64 (b - worldMinY s) = gY) as Hiff.
  { intros a b. unfold WorldXYtoGridXY, world_cell, xy2pt. split.
    - by intros [= -> ->].
    - by intros [-> ->]. }
  assert (world_cell s c.1 c.2 = (gX, gY)) as Hc.
  { unfold world_cell, c, GridXYtoWorldXY. cbn [fst snd].
    f_equal; apply round64_spec; lia. }
  split_and!.
  - rewrite Hiff, !round64_spec. unfold c, GridXYtoWorldXY. cbn [fst snd]. lia.
  - unfold WorldXYtoGridXY. by rewrite Hc.
  - intros g w. split; [done|].
    unfold w, g, GridXYtoWorldXY, world_cell. cbn [fst snd].
    pose proof (proj1 (round64_spec (wX - worldMinX s) _) eq_refl).
    pose proof (proj1 (round64_spec (wY - worldMinY s) _) eq_refl). lia.
  - unfold WorldXYtoImageXY. by rewrite Hc.
Qed.

Lemma world_grid_round_trip_witness :
  within 52 (worldMinX forest) ∧ within 52 (worldMinY forest) ∧
  within 52 (gridHeight forest) ∧
  (WorldXYtoGridXY forest 100 31 = xy2pt (Int 2) (Int 0) ↔
   128 - 32 <= 100 < 128 + 32 ∧ 0 - 32 <= 31 < 0 + 32) ∧
  WorldXYtoGridXY forest 128 0 = xy2pt (Int 2) (Int 0).
Proof.
  assert (within 52 (worldMinX forest)) as H1 by (vm_compute; reflexivity).
  assert (within 52 (worldMinY forest)) as H2 by (vm_compute; reflexivity).
  assert (within 52 (gridHeight forest)) as H3 by (vm_compute; reflexivity).
  assert (within 52 100) as H4 by (vm_compute; reflexivity).
  assert (within 52 31) as H5 by (vm_compute; reflexivity).
  assert (within 46 2) as H6 by (vm_compute; reflexivity).
  assert (within 46 0) as H7 by (vm_compute; reflexivity).
  destruct (world_grid_round_trip forest 2 0 100 31 H1 H2 H3 H4 H5 H6 H7)
    as (Hiff & Hback & _).
  split; [exact H1|]. split; [exact H2|]. split; [exact H3|].
  split; [exact Hiff|exact Hback].
Defined.

(** X6: when the world bounds given to the constructor are below [2^52]
    in absolute value and whole cells apart (a multiple of 64, as the
    source's division assumes), every integer world point inside the
    bounds is sent by [WorldXYtoGridXY] to a cell of the grid, the two
    extreme corners to the cells [(0, 0)] and
    [(gridWidth - 1, gridHeight - 1)], and [WorldXYtoImageXY] to a pixel
    of the first band. *)
Theorem world_bounds_in_grid wd r wX wY :
  within 52 (wd_worldMinX wd) → within 52 (wd_worldMaxX wd) →
  within 52 (wd_worldMinY wd) → within 52 (wd_worldMaxY wd) →
  (wd_worldMaxX wd - wd_worldMinX wd) mod 64 = 0 →
  (wd_worldMaxY wd - wd_worldMinY wd) mod 64 = 0 →
  wd_worldMinX wd <= wX <= wd_worldMaxX wd →
  wd_worldMinY wd <= wY <= wd_worldMaxY wd →
  let s := construct wd r in
  in_grid s (world_cell s wX wY).1 (world_cell s wX wY).2 ∧
  world_cell s (wd_worldMinX wd) (wd_worldMinY wd) = (0, 0) ∧
  world_cell s (wd_worldMaxX wd) (wd_worldMaxY wd) = (gridWidth s - 1, gridHeight s - 1) ∧
  (let i := WorldXYtoImageXY s wX wY in
   0 <= i.1 < gridWidth s ∧ 0 <= i.2 < gridHeight s).
Proof.
  intros _ _ _ _ HX HY HwX HwY s.
  assert (∀ lo hi w, (hi - lo) mod 64 = 0 → lo <= w <= hi →
            0 <= round64 (w - lo) < (hi - lo) / 64 + 1 ∧
            round64 (lo - lo) = 0 ∧ round64 (hi - lo) = (hi - lo) / 64 + 1 - 1) as Hr.
  { intros lo hi w Hm Hw. pose proof (Z.div_mod (hi - lo) 64).
    split; [|split].
    - pose proof (proj1 (round64_spec (w - lo) _) eq_refl). lia.
    - apply round64_spec. lia.
    - apply round64_spec. lia. }
  destruct (Hr _ _ wX HX HwX) as (Hx1 & Hx2 & Hx3).
  destruct (Hr _ _ wY HY HwY) as (Hy1 & Hy2 & Hy3).
  unfold in_grid, WorldXYtoImageXY, world_cell, GridXYtoImageXY, s, construct.
  cbn [fst snd worldMinX worldMinY gridWidth gridHeight].
  split; [lia|]. split; [by rewrite Hx2, Hy2|]. split; [by rewrite Hx3, Hy3|]. lia.
Qed.

Lemma world_bounds_in_grid_witness :
  let s := construct small_world None in
  in_grid s (world_cell s 100 31).1 (world_cell s 100 31).2 ∧
  world_cell s 100 31 = (2, 0).
Proof.
  intros s. split; [|reflexivity].
  apply (world_bounds_in_grid small_world None 100 31);
    first [by vm_compute | cbn; lia].
Defined.

(** ** What [initialize] reads from the image *)

(** The terrain and the instance a successful load leaves, band by band. *)
Lemma initialize_fields img s0 cache :
  let s' := set_terrain reset_terrain (set_ready false s0) in
  let W := gridWidth s0 in
  let H := gridHeight s0 in
  let eg := scan img 0 W H (elevationPixelHandler s') (∅, []) in
  let T1 := scan img W W H (treeElevationPixelHandler s') reset_terrain in
  ∃ s T,
    (initialize (Some img) s0 cache).1 = Normal tt s ∧ terrain s = Some T ∧
    ready s = true ∧ radius s = radius s0 ∧
    gridWidth s = W ∧ gridHeight s = H ∧
    elevation s = elevation s0 ∧ lightArea s = lightArea s0 ∧
    elevationGrid T = Some eg.1 ∧ elevationValues T = eg.2 ∧
    gridnav T = Some (scan img (W * 2) W H (blackPixelHandler s') ∅) ∧
    ent_fow_blocker_node T = Some (scan img (W * 3) W H (blackPixelHandler s') ∅) ∧
    tools_no_wards T = Some (scan img (W * 4) W H (blackPixelHandler s') ∅) ∧
    tree T = tree T1 ∧ tree_blocks T = tree_blocks T1 ∧
    tree_relations T = tree_relations T1 ∧ tree_elevations T = tree_elevations T1 ∧
    tree_state T = tree_state T1 ∧
    grid T = prime_grid W H ∧
    elevationWalls T = ∅ ∧ lights T = ∅ ∧ area T = 0 ∧ walls T = WallsEmpty.
Proof.
  intros s' W H eg T1. unfold initialize, load_terrain. fold s'.
  change (gridWidth s') with W. change (gridHeight s') with H. fold T1.
  destruct (tree_band s' img W W H) as (Hreg & Hst & Hout). fold T1 in Hreg, Hst, Hout.
  assert (elevationValues T1 = [] ∧ elevationWalls T1 = ∅ ∧ lights T1 = ∅ ∧
          area T1 = 0 ∧ walls T1 = WallsEmpty) as (Hev0 & Hew0 & Hl0 & Ha0 & Hw0).
  { unfold outside_registry in Hout. by simplify_eq. }
  rewrite Hev0. fold eg.
  match goal with |- context [forEach init_treeWalls _ ?T] => set (T2 := T) end.
  assert (registry_ok T2) as Hreg2 by (by destruct Hreg).
  destruct (init_treeWalls_loop T2 Hreg2) as (m & Hrun & _).
  change (elevationValues T2) with eg.2 in Hrun. rewrite Hrun.
  eexists _, _. split; [done|]. cbn. split_and!; done.
Qed.

(** *** The blocker bands *)

Lemma black_band s img offset W H :
  let r := scan img offset W H (blackPixelHandler s) ∅ in
  ∀ k pt, r !! k = Some pt ↔
    ∃ i y, (i, y) ∈ band_pixels W H ∧ red (img (offset + i) y) = 0 ∧
           pt = ImageXYtoGridXY s i y ∧ k = pt_key pt.
Proof.
  intros r. unfold r. rewrite scan_band.
  apply (foldl_prefix_ind (λ pre (acc : gmap string point),
    ∀ k pt, acc !! k = Some pt ↔
      ∃ i y, (i, y) ∈ pre ∧ red (img (offset + i) y) = 0 ∧
             pt = ImageXYtoGridXY s i y ∧ k = pt_key pt)).
  - intros k pt. rewrite lookup_empty. split; [done|].
    intros (i & y & Hin & _). by apply elem_of_nil in Hin.
  - intros pre [i y] post acc _ IH k pt. cbn [fst snd].
    unfold blackPixelHandler. case_decide as Hred.
    + change (xy2key (pt_x (ImageXYtoGridXY s i y)) (pt_y (ImageXYtoGridXY s i y)))
        with (pt_key (ImageXYtoGridXY s i y)).
      destruct (decide (k = pt_key (ImageXYtoGridXY s i y))) as [->|Hne].
      * rewrite lookup_insert_eq. split.
        -- intros [= <-]. exists i, y. split_and!; [|done..].
           apply elem_of_app. right. by apply list_elem_of_singleton.
        -- intros (i' & y' & _ & _ & -> & Hk). f_equal.
           apply (xy2key_inj (Int _) (Int _) (Int _) (Int _)) in Hk as [[= ->] [= Hy]].
           by replace y' with y by lia.
      * rewrite lookup_insert_ne by done. rewrite IH. split.
        -- intros (i' & y' & Hin & ? & ? & ?). exists i', y'. split_and!; [|done..].
           apply elem_of_app. by left.
        -- intros (i' & y' & Hin & ? & -> & ->). exists i', y'. split_and!; [|done..].
           apply elem_of_app in Hin as [?|Hin]; [done|].
           apply list_elem_of_singleton in Hin. by simplify_eq.
    + rewrite IH. split.
      * intros (i' & y' & Hin & ? & ? & ?). exists i', y'. split_and!; [|done..].
        apply elem_of_app. by left.
      * intros (i' & y' & Hin & ? & -> & ->). exists i', y'. split_and!; [|done..].
        apply elem_of_app in Hin as [?|Hin]; [done|].
        apply list_elem_of_singleton in Hin. by simplify_eq.
Qed.

(** The entry of a blocker map at the cell [(x, y)]. *)
Lemma black_band_cell s img offset x y :
  scan img offset (gridWidth s) (gridHeight s) (blackPixelHandler s) ∅
    !! xy2key (Int x) (Int y) =
  if decide (in_grid s x y ∧ red (img (offset + x) (gridHeight s - y - 1)) = 0)
  then Some (xy2pt (Int x) (Int y)) else None.
Proof.
  pose proof (black_band s img offset (gridWidth s) (gridHeight s)) as Hb. cbv zeta in Hb.
  case_decide as Hc.
  - destruct Hc as [[Hx Hy] Hred]. apply Hb.
    exists x, (gridHeight s - y - 1). split_and!; [|done| |].
    + apply elem_of_band_pixels. lia.
    + unfold ImageXYtoGridXY, xy2pt. cbn [to_string].
      by replace (gridHeight s - (gridHeight s - y - 1) - 1) with y by lia.
    + unfold ImageXYtoGridXY, xy2key. cbn [pt_key to_string].
      by replace (gridHeight s - (gridHeight s - y - 1) - 1) with y by lia.
  - apply eq_None_not_Some. intros [pt Hpt].
    apply Hb in Hpt as (i & y' & Hin & Hred & -> & Hk).
    apply elem_of_band_pixels in Hin.
    apply (xy2key_inj (Int _) (Int _) (Int _) (Int _)) in Hk as [[= ->] [= Hy]].
    apply Hc. unfold in_grid. split; [lia|].
    by replace (gridHeight s - y - 1) with y' by lia.
Qed.

(** The entry of the elevation grid at the cell [(x, y)]. *)
Lemma elevation_band_cell s img x y :
  (scan img 0 (gridWidth s) (gridHeight s) (elevationPixelHandler s) (∅, [])).1
    !! xy2key (Int x) (Int y) =
  if decide (in_grid s x y)
  then Some {| c_x := Int x; c_y := Int y; c_key := xy2key (Int x) (Int y);
               c_z := red (img x (gridHeight s - y - 1)) |}
  else None.
Proof.
  destruct (elevation_band s img (gridWidth s) (gridHeight s)) as (Hg & _).
  case_decide as Hc.
  - destruct Hc as [Hx Hy]. apply Hg.
    exists x, (gridHeight s - y - 1). split_and!.
    + apply elem_of_band_pixels. lia.
    + unfold grid_cell, ImageXYtoGridXY, xy2key. cbn [pt_x pt_y pt_key to_string].
      by replace (gridHeight s - (gridHeight s - y - 1) - 1) with y by lia.
    + done.
  - apply eq_None_not_Some. intros [c Hcell].
    apply Hg in Hcell as (i & y' & Hin & -> & Hk).
    apply elem_of_band_pixels in Hin.
    apply (xy2key_inj (Int _) (Int _) (Int _) (Int _)) in Hk as [[= ->] [= Hy]].
    apply Hc. unfold in_grid. lia.
Qed.

(** X7: a successful [initialize] builds the elevation grid from the first
    band of the image: the cell [(x, y)] of the grid holds the red channel
    of the pixel in column [x] and row [gridHeight - 1 - y] (rows are
    flipped), and no cell outside the grid has an entry. *)
Theorem initialize_elevation_grid img s0 cache :
  ∃ s T g,
    (initialize (Some img) s0 cache).1 = Normal tt s ∧
    terrain s = Some T ∧ elevationGrid T = Some g ∧
    (∀ x y, g !! xy2key (Int x) (Int y) =
       if decide (in_grid s x y)
       then Some {| c_x := Int x; c_y := Int y; c_key := xy2key (Int x) (Int y);
                    c_z := red (band_pixel s img 0 x y) |}
       else None) ∧
    (∀ k, is_Some (g !! k) → ∃ x y, in_grid s x y ∧ k = xy2key (Int x) (Int y)).
Proof.
  destruct (initialize_fields img s0 cache)
    as (s & T & Hrun & HT & _ & _ & HW & HH & _ & _ & Hg & _).
  set (s' := set_terrain reset_terrain (set_ready false s0)) in *.
  eexists s, T, _. split_and!; [done..| |].
  - intros x y. pose proof (elevation_band_cell s' img x y) as Hc.
    change (gridWidth s') with (gridWidth s0) in Hc.
    change (gridHeight s') with (gridHeight s0) in Hc. rewrite Hc. clear Hc.
    assert (in_grid s x y ↔ in_grid s' x y) as Hiff by (unfold in_grid; by rewrite HW, HH).
    unfold band_pixel.
    destruct (decide (in_grid s x y)), (decide (in_grid s' x y)); [|tauto..|done].
    rewrite HW, HH, Z.mul_0_r, Z.add_0_l. done.
  - intros k [c Hc].
    destruct (elevation_band s' img (gridWidth s0) (gridHeight s0)) as (Hb & _).
    apply Hb in Hc as (i & y & Hin & -> & ->). apply elem_of_band_pixels in Hin.
    exists i, (gridHeight s0 - y - 1). split; [|done].
    unfold in_grid. rewrite HW, HH. lia.
Qed.

(** X8: a successful [initialize] fills the GridNav, FowBlocker and
    NoWards maps from the third, fourth and fifth bands: a cell of the
    grid is in a map exactly when the red channel of its pixel in that
    band is 0, and the entry is then the point of the cell. *)
Theorem initialize_blockers img s0 cache :
  ∃ s T gn fow nw,
    (initialize (Some img) s0 cache).1 = Normal tt s ∧ terrain s = Some T ∧
    gridnav T = Some gn ∧ ent_fow_blocker_node T = Some fow ∧
    tools_no_wards T = Some nw ∧
    ∀ x y,
      let entry band :=
        if decide (in_grid s x y ∧ red (band_pixel s img band x y) = 0)
        then Some (xy2pt (Int x) (Int y)) else None in
      gn !! xy2key (Int x) (Int y) = entry 2 ∧
      fow !! xy2key (Int x) (Int y) = entry 3 ∧
      nw !! xy2key (Int x) (Int y) = entry 4.
Proof.
  destruct (initialize_fields img s0 cache)
    as (s & T & Hrun & HT & _ & _ & HW & HH & _ & _ & _ & _ & Hgn & Hfow & Hnw & _).
  set (s' := set_terrain reset_terrain (set_ready false s0)) in *.
  eexists s, T, _, _, _. split_and!; [done..|].
  intros x y entry. unfold entry, band_pixel.
  assert (in_grid s x y ↔ in_grid s' x y) as Hiff by (unfold in_grid; by rewrite HW, HH).
  rewrite HW, HH.
  pose proof (λ o, black_band_cell s' img o x y) as Hc.
  change (gridWidth s') with (gridWidth s0) in Hc.
  change (gridHeight s') with (gridHeight s0) in Hc.
  split_and!; rewrite Hc; repeat case_decide; first [done | tauto].
Qed.

(** X9: after a successful [initialize], [elevationValues] lists without
    repetition exactly the elevations that occur in the grid. *)
Theorem initialize_elevation_values img s0 cache :
  ∃ s T g,
    (initialize (Some img) s0 cache).1 = Normal tt s ∧
    terrain s = Some T ∧ elevationGrid T = Some g ∧
    NoDup (elevationValues T) ∧
    ∀ L, L ∈ elevationValues T ↔
         ∃ x y, in_grid s x y ∧ elevation_at g x y = Some L.
Proof.
  destruct (initialize_fields img s0 cache)
    as (s & T & Hrun & HT & _ & _ & HW & HH & _ & _ & Hg & Hev & _).
  set (s' := set_terrain reset_terrain (set_ready false s0)) in *.
  destruct (elevation_band s' img (gridWidth s0) (gridHeight s0)) as (_ & Hnd & Hin).
  eexists s, T, _. split_and!; [done..|by rewrite Hev|].
  intros L. rewrite Hev, Hin. unfold elevation_at, in_grid. rewrite HW, HH. split.
  - intros (i & y & Hpx & <-). apply elem_of_band_pixels in Hpx.
    exists i, (gridHeight s0 - y - 1). split; [lia|].
    pose proof (elevation_band_cell s' img i (gridHeight s0 - y - 1)) as Hc.
    change (gridWidth s') with (gridWidth s0) in Hc.
    change (gridHeight s') with (gridHeight s0) in Hc. rewrite Hc. clear Hc.
    rewrite decide_True by (unfold in_grid; cbn; lia). cbn.
    do 3 f_equal. lia.
  - intros (x & y & Hxy & HL).
    pose proof (elevation_band_cell s' img x y) as Hc.
    change (gridWidth s') with (gridWidth s0) in Hc.
    change (gridHeight s') with (gridHeight s0) in Hc. rewrite Hc in HL. clear Hc.
    rewrite decide_True in HL by (unfold in_grid; cbn; lia). cbn in HL. injection HL as <-.
    exists x, (gridHeight s0 - y - 1). split; [|done].
    apply elem_of_band_pixels. lia.
Qed.

(** *** The tree band *)

Lemma tree_band_contents s img offset W H :
  let T := scan img offset W H (treeElevationPixelHandler s) reset_terrain in
  (∀ p, p ∈ tree T ↔
     ∃ i y, (i, y) ∈ band_pixels W H ∧ tree_marker (img (offset + i) y) ∧
            p = (pt_key (tree_origin s i y), tree_origin s i y)) ∧
  (∀ i y, (i, y) ∈ band_pixels W H → tree_marker (img (offset + i) y) →
     tree_elevations T !! pt_key (tree_origin s i y) = Some (red (img (offset + i) y) + 40)).
Proof.
  intros T. unfold T. rewrite scan_band. clear T.
  pose proof (NoDup_band_pixels W H) as Hnd.
  apply (foldl_prefix_ind (λ pre T,
    (∀ p, p ∈ tree T ↔
       ∃ i y, (i, y) ∈ pre ∧ tree_marker (img (offset + i) y) ∧
              p = (pt_key (tree_origin s i y), tree_origin s i y)) ∧
    (∀ i y, (i, y) ∈ pre → tree_marker (img (offset + i) y) →
       tree_elevations T !! pt_key (tree_origin s i y) = Some (red (img (offset + i) y) + 40)))).
  - split.
    + intros p. split; [by intros ?%elem_of_nil|].
      intros (i & y & Hin & _). by apply elem_of_nil in Hin.
    + intros i y Hin. by apply elem_of_nil in Hin.
  - intros pre [i y] post T Hl [Htree Helev]. cbn [fst snd].
    assert ((i, y) ∉ pre) as Hnew.
    { rewrite Hl in Hnd. apply NoDup_app in Hnd as (_ & Hnd & _).
      intros Hin. apply (Hnd _ Hin). by left. }
    unfold treeElevationPixelHandler.
    change (green (img (offset + i) y) = 0 ∧ blue (img (offset + i) y) = 0)
      with (tree_marker (img (offset + i) y)).
    case_decide as Hmark.
    + fold (tree_origin s i y). set (o := tree_origin s i y).
      assert (pt_key o ∉ (tree T).*1) as Hfresh.
      { intros ([k o'] & Hk & Hin)%list_elem_of_fmap. cbn in Hk. subst k.
        apply Htree in Hin as (i' & y' & Hpre & _ & [= Heq _]).
        apply tree_origin_inj in Heq as [-> ->]. done. }
      cbn [tree tree_elevations]. rewrite alist_set_fresh by done. split.
      * intros p. rewrite elem_of_app, list_elem_of_singleton, Htree. split.
        -- intros [(i' & y' & Hin & ? & ?)| ->].
           ++ exists i', y'. split_and!; [|done..]. apply elem_of_app. by left.
           ++ exists i, y. split_and!; [|done..]. apply elem_of_app. right.
              by apply list_elem_of_singleton.
        -- intros (i' & y' & [Hin|Hin%list_elem_of_singleton]%elem_of_app & Hm & ->).
           ++ left. by exists i', y'.
           ++ right. by simplify_eq.
      * intros i' y' [Hin|Hin%list_elem_of_singleton]%elem_of_app Hm.
        -- rewrite lookup_insert_ne; [by apply Helev|].
           unfold o. intros Heq. apply tree_origin_inj in Heq as [-> ->]. done.
        -- simplify_eq. by rewrite lookup_insert_eq.
    + split.
      * intros p. rewrite Htree. split.
        -- intros (i' & y' & Hin & ? & ?). exists i', y'. split_and!; [|done..].
           apply elem_of_app. by left.
        -- intros (i' & y' & [Hin|Hin%list_elem_of_singleton]%elem_of_app & Hm & ->).
           ++ by exists i', y'.
           ++ by simplify_eq.
      * intros i' y' [Hin|Hin%list_elem_of_singleton]%elem_of_app Hm.
        -- by apply Helev.
        -- by simplify_eq.
Qed.

(** X10: a successful [initialize] registers one tree for each pixel of
    the second band whose green and blue channels are 0: the pixel of the
    cell [(x, y)] gives the tree of origin [(x - 0.5, y - 0.5)], standing,
    of blocking elevation red + 40, with the four corners
    [(x-1, y-1)], [(x-1, y)], [(x, y-1)] and [(x, y)]; there is no other
    tree. *)
Theorem initialize_trees img s0 cache :
  ∃ s T,
    (initialize (Some img) s0 cache).1 = Normal tt s ∧ terrain s = Some T ∧
    (∀ x y, in_grid s x y →
       let p := band_pixel s img 1 x y in
       let o := xy2pt (Half (x - 1)) (Half (y - 1)) in
       if decide (tree_marker p) then
         (pt_key o, o) ∈ tree T ∧
         tree_elevations T !! pt_key o = Some (red p + 40) ∧
         tree_state T !! pt_key o = Some true ∧
         tree_blocks T !! pt_key o =
           Some [xy2pt (Int (x - 1)) (Int (y - 1)); xy2pt (Int (x - 1)) (Int y);
                 xy2pt (Int x) (Int (y - 1)); xy2pt (Int x) (Int y)]
       else (pt_key o, o) ∉ tree T) ∧
    (∀ kC o, (kC, o) ∈ tree T →
       ∃ x y, in_grid s x y ∧ tree_marker (band_pixel s img 1 x y) ∧
              o = xy2pt (Half (x - 1)) (Half (y - 1)) ∧ kC = pt_key o).
Proof.
  destruct (initialize_fields img s0 cache)
    as (s & T & Hrun & HT & _ & _ & HW & HH & _ & _ & _ & _ & _ & _ & _ &
        Htr & Hbl & _ & Hel & Hst & _).
  set (s' := set_terrain reset_terrain (set_ready false s0)) in *.
  set (W := gridWidth s0) in *. set (H := gridHeight s0) in *.
  destruct (tree_band s' img W W H) as (Hreg & Hstand & _).
  destruct (tree_band_contents s' img W W H) as (Htree & Helev).
  set (T1 := scan img W W H (treeElevationPixelHandler s') reset_terrain) in *.
  assert (∀ x y, tree_origin s' x (H - y - 1) = xy2pt (Half (x - 1)) (Half (y - 1))) as Ho.
  { intros x y. rewrite tree_origin_half. change (gridHeight s') with H.
    by replace (H - (H - y - 1) - 1 - 1) with (y - 1) by lia. }
  exists s, T. split_and!; [done..| |].
  - intros x y [Hx Hy] p o. rewrite HW in Hx. rewrite HH in Hy.
    assert (p = img (W + x) (H - y - 1)) as Hp.
    { unfold p, band_pixel. by rewrite HW, HH, Z.mul_1_r. }
    assert ((x, H - y - 1) ∈ band_pixels W H) as Hpx by (apply elem_of_band_pixels; lia).
    rewrite Htr, Hel, Hst, Hbl. case_decide as Hm.
    + assert ((pt_key o, o) ∈ tree T1) as Hin.
      { apply Htree. exists x, (H - y - 1). rewrite Ho, <- Hp. done. }
      split_and!; [done| | |].
      * rewrite Hp. specialize (Helev x (H - y - 1) Hpx). rewrite Ho in Helev.
        apply Helev. by rewrite <- Hp.
      * apply (Hstand _ Hin).
      * destruct (reg_fields _ Hreg _ _ Hin) as (-> & _). unfold o.
        rewrite tree_corners_half.
        by replace (x - 1 + 1) with x by lia; replace (y - 1 + 1) with y by lia.
    + intros (i & y' & Hin & Hm' & [= Hk _])%Htree.
      assert (pt_key (tree_origin s' x (H - y - 1)) = pt_key (tree_origin s' i y')) as Hk'
        by (rewrite Ho; exact Hk).
      apply tree_origin_inj in Hk' as [<- <-].
      by rewrite Hp in Hm.
  - intros kC o. rewrite Htr. intros (i & y & Hin & Hm & [= -> ->])%Htree.
    apply elem_of_band_pixels in Hin.
    exists i, (H - y - 1). split_and!; [unfold in_grid; rewrite HW, HH; fold W H; lia| | |done].
    + unfold band_pixel. rewrite HW, HH, Z.mul_1_r. fold W H.
      by replace (H - (H - y - 1) - 1) with y by lia.
    + rewrite <- Ho. by replace (H - (H - y - 1) - 1) with y by lia.
Qed.

(** *** Initializing again *)

Lemma load_terrain_dims s1 s2 img T :
  gridWidth s1 = gridWidth s2 → gridHeight s1 = gridHeight s2 →
  load_terrain s1 img T = load_terrain s2 img T.
Proof.
  intros HW HH.
  unfold load_terrain, blackPixelHandler, treeElevationPixelHandler,
    elevationPixelHandler, ImageXYtoGridXY.
  by rewrite HW, HH.
Qed.

(** X11: [initialize] starts from scratch: the terrain it builds depends
    on the image and on the grid dimensions only, whatever was toggled or
    queried before (every tree stands again, [lights] is empty, [area] is
    0, no elevation walls are cached); but it does not touch [radius],
    [elevation] or [lightArea], which keep the value of the last query. *)
Theorem initialize_resets img s1 c1 s2 c2 :
  gridWidth s1 = gridWidth s2 → gridHeight s1 = gridHeight s2 →
  ∃ s T,
    (initialize (Some img) s1 c1).1 = Normal tt s ∧ terrain s = Some T ∧
    terrain (state_of (initialize (Some img) s2 c2).1) = Some T ∧
    lights T = ∅ ∧ area T = 0 ∧ elevationWalls T = ∅ ∧
    (∀ p, p ∈ tree T → tree_state T !! p.1 = Some true) ∧
    radius s = radius s1 ∧ elevation s = elevation s1 ∧ lightArea s = lightArea s1.
Proof.
  intros HW HH.
  destruct (initialize_ok img s1 c1) as (s & T & g & Hrun & Hok & _ & _ & _ & _ & Hst).
  destruct (initialize_fields img s1 c1)
    as (s_ & T_ & Hrun_ & HT_ & _ & Hr & _ & _ & He & Hla & _ & _ & _ & _ & _ &
        _ & _ & _ & _ & _ & _ & Hew & Hl & Ha & _).
  rewrite Hrun in Hrun_. injection Hrun_ as <-.
  pose proof (ok_terrain _ _ _ Hok) as HT. rewrite HT in HT_. injection HT_ as <-.
  exists s, T. split_and!; try done.
  revert Hrun. unfold initialize.
  rewrite (load_terrain_dims _ (set_terrain reset_terrain (set_ready false s2)))
    by done.
  destruct (load_terrain _ img reset_terrain) as [[] T'|e T']; [|done].
  cbn. intros [= <-]. cbn in HT. injection HT as <-. by rewrite HW, HH.
Qed.

Lemma initialize_resets_witness :
  let s1 := state_of (updateVisibility PreciseShadowcasting 2 0 (Some 1)
                        (state_of (toggleTree 1 1 forest))) in
  ∃ s T,
    (initialize (Some forest_image) s1 ∅).1 = Normal tt s ∧ terrain s = Some T ∧
    terrain (state_of (initialize (Some forest_image) (construct small_world None) ∅).1)
      = Some T ∧
    lights T = ∅ ∧ area T = 0 ∧ elevationWalls T = ∅ ∧
    (∀ p, p ∈ tree T → tree_state T !! p.1 = Some true) ∧
    radius s = radius s1 ∧ elevation s = elevation s1 ∧ lightArea s = lightArea s1.
Proof.
  intros s1.
  apply (initialize_resets forest_image s1 ∅ (construct small_world None) ∅);
    vm_compute; reflexivity.
Defined.

(** ** What the operations leave alone *)

Lemma updateVisibility_frame compute s T gX gY r :
  terrain s = Some T →
  ∃ T',
    terrain (state_of (updateVisibility compute gX gY r s)) = Some T' ∧
    static_terrain T' = static_terrain T ∧ tree_part T' = tree_part T ∧
    dimensions (state_of (updateVisibility compute gX gY r s)) = dimensions s ∧
    radius (state_of (updateVisibility compute gX gY r s)) = radius s ∧
    ready (state_of (updateVisibility compute gX gY r s)) = ready s.
Proof.
  intros HT. unfold updateVisibility. rewrite HT.
  destruct (elevationGrid T) as [g|]; [|by exists T].
  destruct (g !! _) as [pt|]; [|by exists T]. cbv zeta.
  match goal with |- context [forEach ?f ?vs ?T0] =>
    destruct (forEach_light_callback_lights (c_z pt) vs T0) as (l & Hl);
    destruct (forEach f vs T0) as [[] T2|err T2] end;
    cbn in Hl; subst T2.
  - destruct (compute _ _ _ _ _).2; eexists; split_and!; done.
  - eexists; split_and!; done.
Qed.

Lemma toggleTree_frame_ok s T g x y :
  instance_ok s T g →
  ∃ T',
    terrain (state_of (toggleTree x y s)) = Some T' ∧
    static_terrain T' = static_terrain T ∧ query_part T' = query_part T ∧
    dimensions (state_of (toggleTree x y s)) = dimensions s ∧
    radius (state_of (toggleTree x y s)) = radius s ∧
    ready (state_of (toggleTree x y s)) = ready s ∧
    query_result (state_of (toggleTree x y s)) = query_result s.
Proof.
  intros Hok. destruct (toggleTree_ok s T g x y Hok) as (b & m & st & Hrun & _).
  cbv zeta in Hrun. rewrite Hrun. eexists. split_and!; done.
Qed.

Lemma perform_static compute s T g op :
  instance_ok s T g →
  ∃ T', terrain (perform compute op s) = Some T' ∧
        static_terrain T' = static_terrain T ∧
        dimensions (perform compute op s) = dimensions s.
Proof.
  intros Hok. destruct op as [gX gY r|x y|x y b1 b2 b3|r]; cbn.
  - destruct (updateVisibility_frame compute s T gX gY r) as (T' & ? & ? & _ & ? & _);
      [apply Hok|]. by exists T'.
  - destruct (toggleTree_frame_ok s T g x y Hok) as (T' & ? & ? & _ & ? & _). by exists T'.
  - rewrite isValidXY_state. exists T. split_and!; [apply Hok|done..].
  - exists T. split_and!; [apply Hok|done..].
Qed.

(** *** The reverse index has no empty entry *)

Lemma tree_band_relations s img offset W H :
  let T := scan img offset W H (treeElevationPixelHandler s) reset_terrain in
  ∀ k l, tree_relations T !! k = Some l → l ≠ [].
Proof.
  intros T. unfold T. rewrite scan_band. clear T.
  apply (foldl_prefix_ind (λ _ T, ∀ k l, tree_relations T !! k = Some l → l ≠ [])).
  - intros k l. cbn. by rewrite lookup_empty.
  - intros pre [i y] post T _ IH k l. cbn [fst snd].
    unfold treeElevationPixelHandler. case_decide; [|by apply IH].
    cbn [tree_relations]. fold (tree_origin s i y).
    rewrite <- (foldl_fmap (λ rel k', push k' (tree_origin s i y) rel)
                  (tree_relations T) (tree_corners (tree_origin s i y)) pt_key).
    rewrite foldl_push_lookup by (rewrite tree_origin_half; apply corner_keys_nodup).
    case_decide; [|by apply IH]. intros [= <-]. by destruct (default [] _).
Qed.

Lemma ready_instance_relations compute s :
  ready_instance compute s →
  ∃ T, terrain s = Some T ∧ ∀ k l, tree_relations T !! k = Some l → l ≠ [].
Proof.
  induction 1 as [s0 img cache s Hinit|s op Hready (T & HT & Hne)].
  - destruct (initialize_fields img s0 cache)
      as (s' & T & Hrun & HT & _ & _ & _ & _ & _ & _ & _ & _ & _ & _ & _ &
          _ & _ & Hrel & _).
    rewrite Hrun in Hinit. simplify_eq. exists T. split; [done|].
    rewrite Hrel. apply tree_band_relations.
  - destruct (ready_instance_ok _ _ Hready) as (T0 & g & Hok).
    pose proof (ok_terrain _ _ _ Hok) as HT0. rewrite HT in HT0. injection HT0 as <-.
    destruct (perform_static compute s T g op Hok) as (T' & HT' & Hst & _).
    exists T'. split; [done|].
    assert (tree_relations T' = tree_relations T) as ->
      by (unfold static_terrain in Hst; congruence).
    exact Hne.
Qed.

(** The trees registered at a key, read from the registry. *)
Lemma relations_registry T k :
  registry_ok T →
  (∀ kC, kC ∈ pt_key <$> default [] (tree_relations T !! k) ↔
         ∃ p, p ∈ tree T ∧ corner_of k p.2 ∧ p.1 = kC) ∧
  (default [] (tree_relations T !! k) ≠ [] ↔ tree_corner T k).
Proof.
  intros Hreg. rewrite (reg_relations _ Hreg). split.
  - intros kC. rewrite list_elem_of_fmap. split.
    + intros (o & -> & Ho). apply list_elem_of_filter in Ho as [Hc Ho].
      apply list_elem_of_fmap in Ho as ([k' o'] & -> & Hin). cbn in *.
      exists (k', o'). split_and!; [done..|].
      by destruct (reg_origin _ Hreg _ _ Hin) as [-> _].
    + intros ([k' o'] & Hin & Hc & <-). cbn in *. exists o'. split.
      * by destruct (reg_origin _ Hreg _ _ Hin) as [-> _].
      * apply list_elem_of_filter. split; [done|].
        apply list_elem_of_fmap. by exists (k', o').
  - unfold tree_corner. split.
    + intros Hne. destruct (filter _ _) as [|o l] eqn:Hf; [done|].
      assert (o ∈ filter (corner_of k) (tree T).*2) as Ho by (rewrite Hf; left).
      apply list_elem_of_filter in Ho as [Hc Ho].
      apply list_elem_of_fmap in Ho as (p & -> & Hin). by exists p.
    + intros (p & Hin & Hc) Hnil.
      assert (p.2 ∈ filter (corner_of k) (tree T).*2) as Ho.
      { apply list_elem_of_filter. split; [done|]. apply list_elem_of_fmap. by exists p. }
      rewrite Hnil in Ho. by apply elem_of_nil in Ho.
Qed.

Lemma any_standing_spec T treePts :
  any_standing T treePts = true ↔ ∃ o, o ∈ treePts ∧ standing T (pt_key o) = true.
Proof.
  induction treePts as [|o l IH]; cbn.
  - split; [done|]. intros (o & Hin & _). by apply elem_of_nil in Hin.
  - fold (standing T (pt_key o)). destruct (standing T (pt_key o)) eqn:Hs.
    + split; [|done]. intros _. exists o. split; [left|done].
    + rewrite IH. split.
      * intros (o' & Hin & Hs'). exists o'. split; [by right|done].
      * intros (o' & [->|Hin]%elem_of_cons & Hs'); [congruence|]. by exists o'.
Qed.

(** ** [isValidXY] on a ready instance *)

Lemma isValidXY_spec s T g gn nw x y bCheckGridnav bCheckToolsNoWards bCheckTreeState :
  instance_ok s T g → gridnav T = Some gn → tools_no_wards T = Some nw →
  let key := xy2key (Int x) (Int y) in
  ∃ b,
    isValidXY x y bCheckGridnav bCheckToolsNoWards bCheckTreeState s = Normal b s ∧
    (b = true ↔
     in_grid s x y ∧
     (bCheckGridnav = true → gn !! key = None) ∧
     (bCheckToolsNoWards = true → nw !! key = None) ∧
     (bCheckTreeState = true → trees_cut T key)).
Proof.
  intros Hok Hgn Hnw key.
  pose proof (ok_registry _ _ _ Hok) as Hreg.
  set (tb := match tree_relations T !! key with
             | Some treePts => any_standing T treePts
             | None => false
             end).
  assert (tb = false ↔ trees_cut T key) as Htb.
  { assert (tb = any_standing T (default [] (tree_relations T !! key))) as ->.
    { unfold tb. by destruct (tree_relations T !! key). }
    rewrite <- not_true_iff_false, any_standing_spec. unfold trees_cut. split.
    - intros Hno p Hin Hc. apply not_true_iff_false. intros Hs. apply Hno.
      exists p.2. split.
      + rewrite (reg_relations _ Hreg). apply list_elem_of_filter. split; [done|].
        apply list_elem_of_fmap. by exists p.
      + destruct p as [k' o']. destruct (reg_origin _ Hreg _ _ Hin) as [Heq _].
        cbn in *. by rewrite <- Heq.
    - intros Hcut (o & Ho & Hs). rewrite (reg_relations _ Hreg) in Ho.
      apply list_elem_of_filter in Ho as [Hc Ho].
      apply list_elem_of_fmap in Ho as ([k' o'] & -> & Hin). cbn in *.
      destruct (reg_origin _ Hreg _ _ Hin) as [-> _].
      specialize (Hcut _ Hin Hc). cbn in Hcut. congruence. }
  eexists. split.
  - unfold isValidXY. rewrite (ok_ready _ _ _ Hok), (ok_terrain _ _ _ Hok).
    cbn [negb]. fold key. unfold bind, deref, ret, unblocked. cbn [mbind option_bind].
    rewrite Hgn, Hnw. fold tb.
    instantiate (1 :=
      bool_decide (in_grid s x y) &&
      (negb bCheckGridnav || bool_decide (gn !! key = None)) &&
      (negb bCheckToolsNoWards || bool_decide (nw !! key = None)) &&
      (negb bCheckTreeState || negb tb)).
    assert (bool_decide (x >= 0) && bool_decide (x < gridWidth s)
            && bool_decide (y >= 0) && bool_decide (y < gridHeight s)
            = bool_decide (in_grid s x y)) as ->.
    { unfold in_grid. repeat case_bool_decide; first [done | lia]. }
    destruct (bool_decide (in_grid s x y)); [|by destruct bCheckTreeState].
    destruct bCheckTreeState, bCheckGridnav, bCheckToolsNoWards; cbn;
      repeat (destruct (bool_decide _); cbn); done.
  - rewrite !andb_true_iff, !orb_true_iff, !negb_true_iff, !bool_decide_eq_true.
    rewrite <- Htb. split.
    + intros (((Hin & Hg) & Hw) & Ht). split_and!; [done|..].
      * intros ->. by destruct Hg.
      * intros ->. by destruct Hw.
      * intros ->. by destruct Ht.
    + intros (Hin & Hg & Hw & Ht). split_and!; [done|..].
      * destruct bCheckGridnav; [right; by apply Hg|by left].
      * destruct bCheckToolsNoWards; [right; by apply Hw|by left].
      * destruct bCheckTreeState; [right; by apply Ht|by left].
Qed.

(** X12: on a ready instance [isValidXY] returns without changing the
    instance, and it answers [true] exactly when the cell is inside the
    grid and passes each requested check: not in GridNav, not in NoWards,
    no standing tree with a corner at the cell.  The tree check looks at
    the states only, not at elevations. *)
Theorem isValidXY_ready compute s x y bCheckGridnav bCheckToolsNoWards bCheckTreeState :
  ready_instance compute s →
  let key := xy2key (Int x) (Int y) in
  ∃ T gn nw b,
    terrain s = Some T ∧ gridnav T = Some gn ∧ tools_no_wards T = Some nw ∧
    isValidXY x y bCheckGridnav bCheckToolsNoWards bCheckTreeState s = Normal b s ∧
    (b = true ↔
     in_grid s x y ∧
     (bCheckGridnav = true → gn !! key = None) ∧
     (bCheckToolsNoWards = true → nw !! key = None) ∧
     (bCheckTreeState = true → trees_cut T key)).
Proof.
  intros (T & g & Hok)%ready_instance_ok key.
  destruct (ok_maps _ _ _ Hok) as ([gn Hgn] & _ & [nw Hnw]).
  destruct (isValidXY_spec s T g gn nw x y bCheckGridnav bCheckToolsNoWards
              bCheckTreeState Hok Hgn Hnw) as (b & Hrun & Hb).
  exists T, gn, nw, b. split_and!; [apply Hok|done..].
Qed.

Lemma isValidXY_ready_witness :
  ready_instance PreciseShadowcasting forest ∧
  ∃ T gn nw b,
    terrain forest = Some T ∧ gridnav T = Some gn ∧ tools_no_wards T = Some nw ∧
    isValidXY 1 1 true true true forest = Normal b forest ∧
    (b = true ↔
     in_grid forest 1 1 ∧
     (true = true → gn !! xy2key (Int 1) (Int 1) = None) ∧
     (true = true → nw !! xy2key (Int 1) (Int 1) = None) ∧
     (true = true → trees_cut T (xy2key (Int 1) (Int 1)))).
Proof.
  split; [apply forest_ready|].
  exact (isValidXY_ready PreciseShadowcasting forest 1 1 true true true (forest_ready _)).
Defined.

(** ** [toggleTree] on a ready instance *)

Lemma toggleTree_spec s T g x y :
  instance_ok s T g →
  (∀ k l, tree_relations T !! k = Some l → l ≠ []) →
  let key := xy2key (Int x) (Int y) in
  ∃ b T',
    toggleTree x y s = Normal b (set_terrain T' s) ∧
    instance_ok (set_terrain T' s) T' g ∧
    (b = true ↔ tree_corner T key) ∧
    (b = false → set_terrain T' s = s) ∧
    static_terrain T' = static_terrain T ∧ query_part T' = query_part T ∧
    ∀ p, p ∈ tree T →
      standing T' p.1 =
        if decide (corner_of key p.2) then negb (standing T p.1) else standing T p.1.
Proof.
  intros Hok Hne key.
  pose proof (ok_terrain _ _ _ Hok) as HT.
  pose proof (ok_registry _ _ _ Hok) as Hreg.
  destruct (relations_registry T key Hreg) as [Hmem Hcorner].
  destruct (toggleTree_ok s T g x y Hok) as (b & m & st & Hrun & Hok' & Hb & Hst).
  cbv zeta in Hrun, Hok'. fold key in Hb, Hst.
  eexists b, _. split_and!; [exact Hrun|exact Hok'| | |done|done|].
  - rewrite Hb, bool_decide_eq_true, <- Hcorner.
    destruct (tree_relations T !! key) as [l|] eqn:Hl; cbn.
    + split; [intros _; by apply (Hne key)|by eauto].
    + split; [by intros [? ?]|done].
  - intros ->. symmetry in Hb. apply bool_decide_eq_false in Hb.
    revert Hrun. unfold toggleTree. rewrite HT. fold key.
    destruct (tree_relations T !! key); [by destruct Hb|]. by intros [= <-].
  - intros p Hin. unfold standing at 1. cbn [tree_state set_treeWalls set_tree_state].
    rewrite Hst. destruct (decide (corner_of key p.2)) as [Hc|Hc].
    + rewrite decide_True; [done|]. apply Hmem. by exists p.
    + rewrite decide_False; [done|]. intros (q & Hq & Hqc & Heq)%Hmem.
      by rewrite (tree_key_unique T q p Hreg Hq Hin Heq) in Hqc.
Qed.

Lemma ready_instance_full compute s :
  ready_instance compute s →
  ∃ T g, instance_ok s T g ∧ ∀ k l, tree_relations T !! k = Some l → l ≠ [].
Proof.
  intros Hready.
  destruct (ready_instance_relations _ _ Hready) as (T & HT & Hne).
  destruct (ready_instance_ok _ _ Hready) as (T0 & g & Hok).
  pose proof (ok_terrain _ _ _ Hok) as HT0. rewrite HT in HT0. injection HT0 as <-.
  by exists T, g.
Qed.

(** X13: on a ready instance [toggleTree(x, y)] returns [true] exactly
    when the cell is a corner of some registered tree; it then flips the
    state of every tree that has a corner there (all of them, when several
    trees share the corner) and of no other tree; when it returns [false]
    the instance is unchanged. *)
Theorem toggleTree_flips compute s x y :
  ready_instance compute s →
  let key := xy2key (Int x) (Int y) in
  ∃ T b s' T',
    terrain s = Some T ∧ toggleTree x y s = Normal b s' ∧ terrain s' = Some T' ∧
    (b = true ↔ tree_corner T key) ∧
    (b = false → s' = s) ∧
    tree T' = tree T ∧
    ∀ p, p ∈ tree T →
      standing T' p.1 =
        if decide (corner_of key p.2) then negb (standing T p.1) else standing T p.1.
Proof.
  intros (T & g & Hok & Hne)%ready_instance_full key.
  destruct (toggleTree_spec s T g x y Hok Hne)
    as (b & T' & Hrun & _ & Hb & Hsame & Hstatic & _ & Hflip).
  exists T, b, (set_terrain T' s), T'.
  split_and!; [apply Hok|done|done|done|done| |done].
  unfold static_terrain in Hstatic. congruence.
Qed.

Lemma toggleTree_flips_witness :
  ready_instance PreciseShadowcasting forest ∧
  ∃ T b s' T',
    terrain forest = Some T ∧ toggleTree 0 1 forest = Normal b s' ∧ terrain s' = Some T' ∧
    (b = true ↔ tree_corner T (xy2key (Int 0) (Int 1))) ∧
    ∀ p, p ∈ tree T →
      standing T' p.1 =
        if decide (corner_of (xy2key (Int 0) (Int 1)) p.2)
        then negb (standing T p.1) else standing T p.1.
Proof.
  split; [apply forest_ready|].
  destruct (toggleTree_flips PreciseShadowcasting forest 0 1 (forest_ready _))
    as (T & b & s' & T' & H1 & H2 & H3 & H4 & _ & _ & H5).
  exists T, b, s', T'.
  split; [exact H1|]. split; [exact H2|]. split; [exact H3|]. split; [exact H4|exact H5].
Defined.

(** X14: [toggleTree] on a ready instance assigns tree states and tree
    walls only: the data read from the image, the tree registry, the
    cached elevation walls, [lights], [area], [lightArea], [elevation] and
    the radius are as before, so the light map is the one of the last
    [updateVisibility] until the next one. *)
Theorem toggleTree_frame compute s x y :
  ready_instance compute s →
  ∃ T T',
    terrain s = Some T ∧ terrain (state_of (toggleTree x y s)) = Some T' ∧
    static_terrain T' = static_terrain T ∧ query_part T' = query_part T ∧
    dimensions (state_of (toggleTree x y s)) = dimensions s ∧
    radius (state_of (toggleTree x y s)) = radius s ∧
    ready (state_of (toggleTree x y s)) = ready s ∧
    query_result (state_of (toggleTree x y s)) = query_result s.
Proof.
  intros (T & g & Hok)%ready_instance_ok.
  destruct (toggleTree_frame_ok s T g x y Hok) as (T' & H').
  exists T, T'. split; [apply Hok|exact H'].
Qed.

Lemma toggleTree_frame_witness :
  let s := state_of (updateVisibility PreciseShadowcasting 2 0 (Some 1) forest) in
  ready_instance PreciseShadowcasting s ∧
  ∃ T T',
    terrain s = Some T ∧ terrain (state_of (toggleTree 1 1 s)) = Some T' ∧
    lights T' = lights T ∧
    lightArea (state_of (toggleTree 1 1 s)) = lightArea s.
Proof.
  intros s.
  assert (ready_instance PreciseShadowcasting s) as Hs
    by apply (ready_perform _ _ (OpUpdateVisibility 2 0 (Some 1))), forest_ready.
  split; [exact Hs|].
  destruct (toggleTree_frame PreciseShadowcasting s 1 1 Hs)
    as (T & T' & H1 & H2 & _ & Hq & _ & _ & _ & Hr).
  exists T, T'. unfold query_part in Hq. unfold query_result in Hr.
  split; [exact H1|]. split; [exact H2|]. split; congruence.
Defined.

(** X15: whatever the engine does and however the call ends,
    [updateVisibility] leaves the data read from the image, the tree
    registry, the tree states, the tree walls, the radius and the grid
    dimensions as they were. *)
Theorem updateVisibility_keeps compute s T gX gY r :
  terrain s = Some T →
  ∃ T',
    terrain (state_of (updateVisibility compute gX gY r s)) = Some T' ∧
    static_terrain T' = static_terrain T ∧ tree_part T' = tree_part T ∧
    dimensions (state_of (updateVisibility compute gX gY r s)) = dimensions s ∧
    radius (state_of (updateVisibility compute gX gY r s)) = radius s ∧
    ready (state_of (updateVisibility compute gX gY r s)) = ready s.
Proof.
  intros HT.
  destruct (updateVisibility_frame compute s T gX gY r HT) as (T' & H').
  by exists T'.
Qed.

Lemma updateVisibility_keeps_witness :
  ∃ T',
    terrain (state_of (updateVisibility PreciseShadowcasting 2 0 (Some 1) forest)) = Some T' ∧
    static_terrain T' = static_terrain (terrain_of forest) ∧
    tree_part T' = tree_part (terrain_of forest).
Proof.
  destruct (updateVisibility_keeps PreciseShadowcasting forest (terrain_of forest)
              2 0 (Some 1) forest_terrain) as (T' & H1 & H2 & H3 & _).
  exists T'. split; [exact H1|]. split; [exact H2|exact H3].
Defined.

(** ** Queries compose *)

Lemma lightPassesCallback_fields s1 s2 T1 T2 :
  terrain s1 = Some T1 → terrain s2 = Some T2 → elevation s1 = elevation s2 →
  elevationWalls T1 = elevationWalls T2 →
  ent_fow_blocker_node T1 = ent_fow_blocker_node T2 →
  treeWalls T1 = treeWalls T2 →
  lightPassesCallback s1 = lightPassesCallback s2.
Proof.
  intros H1 H2 He Hew Hfow Htw. unfold lightPassesCallback.
  rewrite H1, H2, He. cbn. by rewrite Hew, Hfow, Htw.
Qed.

Lemma requery T E g a l :
  walls T = WallsOf E → elevationWalls (prepare_terrain E g T) = elevationWalls T →
  lights T = l → area T = a →
  set_area a (set_lights l (prepare_terrain E g T)) = T.
Proof.
  intros Hw Hew Hl Ha. unfold set_area, set_lights. cbn - [prepare_terrain].
  rewrite Hew. unfold prepare_terrain, set_query. cbn. destruct T. cbn in *. by subst.
Qed.

(** X16: a query repeated at once is idle: when [updateVisibility]
    returns on a ready instance, the same call on the instance it leaves
    returns too and leaves that instance exactly as it is (the engine is
    handed the same walls, an opacity callback that reads the same sets
    and the same radius; the elevation walls now come from the cache). *)
Theorem updateVisibility_idempotent compute s gX gY r s1 :
  ready_instance compute s →
  updateVisibility compute gX gY r s = Normal tt s1 →
  updateVisibility compute gX gY r s1 = Normal tt s1.
Proof.
  intros (T & g & Hok)%ready_instance_ok Hrun.
  assert (∃ E a, elevation_at g gX gY = Some E ∧
                 (sweep_of compute s T g E gX gY r).2 = Some a) as (E & a & HE & Ha).
  { revert Hrun. unfold updateVisibility, elevation_at.
    rewrite (ok_terrain _ _ _ Hok), (ok_grid _ _ _ Hok).
    destruct (g !! xy2key (Int gX) (Int gY)) as [pt|]; [|done]. cbv zeta.
    change (compute (treeWalls T !! c_z pt) (lightPassesCallback (prepare (c_z pt) g T s))
              gX gY (or_else r (radius s)))
      with (sweep_of compute s T g (c_z pt) gX gY r).
    destruct (forEach _ _ _); [|done].
    destruct (sweep_of compute s T g (c_z pt) gX gY r).2 as [a0|] eqn:Ha0; [|done].
    intros _. by exists (c_z pt), a0. }
  destruct (updateVisibility_run compute s T g gX gY r E a Hok HE Ha) as (l & Hrun1 & Hl).
  destruct (updateVisibility_ok compute s T g gX gY r Hok) as (T1 & Hok1).
  rewrite Hrun1 in Hrun, Hok1. injection Hrun as <-. cbn [state_of] in Hok1.
  set (s1 := set_lightArea _ _) in *.
  assert (T1 = set_area a (set_lights l (prepare_terrain E g T))) as ->.
  { pose proof (ok_terrain _ _ _ Hok1) as HT1. cbn in HT1. by injection HT1 as <-. }
  set (T1 := set_area a (set_lights l (prepare_terrain E g T))) in *.
  assert (elevationWalls (prepare_terrain E g T1) = elevationWalls T1) as Hcache.
  { rewrite (prepare_cache T1 g E) by apply Hok1.
    change (elevationWalls T1) with (elevationWalls (prepare_terrain E g T)).
    rewrite (prepare_cache T g E) by apply Hok. by rewrite insert_insert_eq. }
  assert (sweep_of compute s1 T1 g E gX gY r = sweep_of compute s T g E gX gY r) as Hsweep.
  { unfold sweep_of.
    by rewrite (lightPassesCallback_fields (prepare E g T1 s1) (prepare E g T s)
                  (prepare_terrain E g T1) (prepare_terrain E g T)). }
  destruct (updateVisibility_run compute s1 T1 g gX gY r E a Hok1 HE) as (l2 & Hrun2 & Hl2).
  { by rewrite Hsweep. }
  assert (l2 = l) as ->.
  { apply map_eq. intros k. apply option_eq. intros n.
    rewrite Hl2, Hl, Hsweep. done. }
  rewrite Hrun2. f_equal.
  rewrite (requery T1 E g a l) by done. done.
Qed.

Lemma updateVisibility_idempotent_witness :
  let s1 := state_of (updateVisibility PreciseShadowcasting 2 0 (Some 1) forest) in
  updateVisibility PreciseShadowcasting 2 0 (Some 1) s1 = Normal tt s1.
Proof.
  intros s1.
  apply (updateVisibility_idempotent PreciseShadowcasting forest 2 0 (Some 1) s1);
    [apply forest_ready|].
  vm_compute. reflexivity.
Defined.

(** X17: [setRadius(r)] followed by a query without a radius leaves the
    instance that the query with the explicit radius [r] followed by
    [setRadius(r)] leaves, for every [r] but 0, and the one fails exactly
    when the other does: the stored radius is read by [updateVisibility]
    only, as its default. *)
Theorem setRadius_then_query compute s gX gY r :
  r ≠ 0 →
  let s_r := state_of (setRadius r s) in
  state_of (updateVisibility compute gX gY None s_r) =
    state_of (setRadius r (state_of (updateVisibility compute gX gY (Some r) s))) ∧
  (fails (updateVisibility compute gX gY None s_r) ↔
   fails (updateVisibility compute gX gY (Some r) s)).
Proof.
  intros Hr s_r. unfold s_r. clear s_r.
  destruct s as [rad wx wy wX wY gw gh rdy el la terr].
  unfold updateVisibility, setRadius, modify.
  cbn [state_of terrain radius or_else]. rewrite decide_False by done.
  destruct terr as [T|]; [|split; [reflexivity|by cbn]].
  destruct (elevationGrid T) as [g|]; [|split; [reflexivity|by cbn]].
  destruct (g !! xy2key (Int gX) (Int gY)) as [pt|]; [|split; [reflexivity|by cbn]].
  cbv zeta.
  match goal with |- context [lightPassesCallback (prepare ?e g T ?s1)] =>
    match goal with |- context [lightPassesCallback (prepare e g T ?s2)] =>
      assert_fails (constr_eq s1 s2);
      rewrite (lightPassesCallback_fields (prepare e g T s1) (prepare e g T s2)
                 (prepare_terrain e g T) (prepare_terrain e g T)) by done
    end
  end.
  destruct (forEach _ _ _) as [[] T2|err T2]; [|split; [reflexivity|by cbn]].
  destruct (compute _ _ _ _ _).2; split; first [reflexivity | by cbn].
Qed.

Lemma setRadius_then_query_witness :
  let s_r := state_of (setRadius 1 forest) in
  state_of (updateVisibility PreciseShadowcasting 2 0 None s_r) =
    state_of (setRadius 1 (state_of (updateVisibility PreciseShadowcasting 2 0 (Some 1) forest))).
Proof.
  intros s_r.
  destruct (setRadius_then_query PreciseShadowcasting forest 2 0 1) as [H _]; [lia|].
  exact H.
Defined.

(** ** Elevation walls: the empty cases *)

Lemma lower_neighbour_none data E pt :
  (∀ k c, data !! k = Some c → c_z c > E) → lower_neighbour data E pt = false.
Proof.
  intros Hall. unfold lower_neighbour. cbn [existsb].
  repeat match goal with
  | |- context [data !! ?k] =>
      let Hq := fresh "Hq" in
      let q := fresh "q" in
      destruct (data !! k) as [q|] eqn:Hq;
        [apply Hall in Hq; rewrite (bool_decide_eq_false_2 (c_z q <= E)) by lia|]
  end;
  rewrite ?andb_false_r; reflexivity.
Qed.

(** X18: [generateElevationWalls] returns the empty object when no cell
    is above the threshold, and also when every cell is: an observer at or
    above the highest ground, or on a map of a single elevation, has no
    elevation walls. *)
Theorem generateElevationWalls_empty data E :
  (∀ k c, data !! k = Some c → c_z c <= E) ∨
  (∀ k c, data !! k = Some c → c_z c > E) →
  generateElevationWalls data E = ∅.
Proof.
  intros Hall. unfold generateElevationWalls.
  assert (∀ m : gmap string cell, m ⊆ data →
            map_fold (λ _ pt walls,
              if bool_decide (c_z pt > E) && lower_neighbour data E pt
              then <[c_key pt := pt]> walls else walls) (∅ : gmap string cell) m = ∅) as Hfold.
  { apply (map_fold_weak_ind (λ (r : gmap string cell) (m : gmap string cell),
                                m ⊆ data → r = ∅)); [done|].
    intros i c m r Hi IH Hsub.
    assert (data !! i = Some c) as Hc.
    { eapply lookup_weaken; [|exact Hsub]. apply lookup_insert_eq. }
    rewrite IH.
    - destruct Hall as [Hle|Hgt].
      + apply Hle in Hc. by rewrite bool_decide_eq_false_2 by lia.
      + by rewrite (lower_neighbour_none data E c Hgt), andb_false_r.
    - etrans; [|exact Hsub]. by apply insert_subseteq. }
  by apply Hfold.
Qed.

Lemma generateElevationWalls_empty_witness :
  generateElevationWalls (grid_of flat) 10 = ∅.
Proof.
  apply generateElevationWalls_empty. left. intros k c Hc.
  apply flat_level in Hc. lia.
Defined.

(** ** Toggles compose *)

(** X19: [toggleTree] then [isValidXY] with the tree check, on a ready
    instance: after toggling a cell whose trees all stood, the tree check
    passes and the cell is valid exactly when it is inside the grid; after
    toggling a corner whose trees were all cut, the check fails. *)
Theorem toggleTree_then_isValidXY compute s x y :
  ready_instance compute s →
  let key := xy2key (Int x) (Int y) in
  let s' := state_of (toggleTree x y s) in
  ∃ T,
    terrain s = Some T ∧
    ((∀ p, p ∈ tree T → corner_of key p.2 → standing T p.1 = true) →
     isValidXY x y false false true s' = Normal (bool_decide (in_grid s x y)) s') ∧
    (tree_corner T key → trees_cut T key →
     isValidXY x y false false true s' = Normal false s').
Proof.
  intros (T & g & Hok & Hne)%ready_instance_full key s'.
  destruct (toggleTree_spec s T g x y Hok Hne)
    as (b & T' & Hrun & Hok' & _ & _ & Hstatic & _ & Hflip).
  fold key in Hflip.
  assert (s' = set_terrain T' s) as Hs' by (unfold s'; by rewrite Hrun).
  rewrite Hs'. clear Hs' s'.
  assert (tree T' = tree T) as Htree by (unfold static_terrain in Hstatic; congruence).
  destruct (ok_maps _ _ _ Hok') as ([gn Hgn] & _ & [nw Hnw]).
  destruct (isValidXY_spec _ T' g gn nw x y false false true Hok' Hgn Hnw)
    as (b' & -> & Hb'). fold key in Hb'.
  exists T. split; [apply Hok|]. split.
  - intros Hstand. do 2 f_equal.
    assert (b' = true ↔ in_grid s x y) as Hiff.
    { rewrite Hb'. split; [by intros [? _]|]. intros Hin.
      split_and!; [done|done|done|]. intros _ p Hp Hc. rewrite Htree in Hp.
      rewrite (Hflip p Hp), decide_True by done. by rewrite (Hstand p Hp Hc). }
    destruct b'; case_bool_decide; tauto.
  - intros (p & Hp & Hc) Hcut. do 2 f_equal.
    apply not_true_iff_false. intros (_ & _ & _ & Hcut')%Hb'.
    specialize (Hcut' eq_refl p). rewrite Htree in Hcut'. specialize (Hcut' Hp Hc).
    rewrite (Hflip p Hp), decide_True, (Hcut p Hp Hc) in Hcut' by done. done.
Qed.

Lemma toggleTree_then_isValidXY_witness :
  ready_instance PreciseShadowcasting forest ∧
  let s' := state_of (toggleTree 1 1 forest) in
  isValidXY 1 1 false false true forest = Normal false forest ∧
  isValidXY 1 1 false false true s' = Normal true s'.
Proof.
  split; [apply forest_ready|]. intros s'. split; [vm_compute; reflexivity|].
  destruct (toggleTree_then_isValidXY PreciseShadowcasting forest 1 1 (forest_ready _))
    as (T & HT & Hstand & _).
  assert (T = terrain_of forest) as ->.
  { pose proof forest_terrain as H. rewrite HT in H. by injection H. }
  apply Hstand. clear Hstand.
  apply (proj1 (Forall_forall
    (λ p, corner_of (xy2key (Int 1) (Int 1)) p.2 → standing (terrain_of forest) p.1 = true)
    (tree (terrain_of forest)))).
  apply (bool_decide_unpack _). vm_compute. exact I.
Defined.

(** X20: two [toggleTree] calls on a ready instance commute: in either
    order they leave the same tree states, and at every level and key
    tree-wall lists with the same descriptors (the order inside a list
    may differ); nothing else is assigned by either. *)
Theorem toggleTree_commute compute s x1 y1 x2 y2 :
  ready_instance compute s →
  let s12 := state_of (toggleTree x2 y2 (state_of (toggleTree x1 y1 s))) in
  let s21 := state_of (toggleTree x1 y1 (state_of (toggleTree x2 y2 s))) in
  ∃ T12 T21,
    terrain s12 = Some T12 ∧ terrain s21 = Some T21 ∧
    tree_state T12 = tree_state T21 ∧
    static_terrain T12 = static_terrain T21 ∧ query_part T12 = query_part T21 ∧
    ∀ L k, L ∈ elevationValues T12 → tree_walls_at T12 L k ≡ₚ tree_walls_at T21 L k.
Proof.
  intros (T & g & Hok)%ready_instance_ok s12 s21.
  assert (∀ xa ya xb yb,
    ∃ Tab,
      terrain (state_of (toggleTree xb yb (state_of (toggleTree xa ya s)))) = Some Tab ∧
      instance_ok (set_terrain Tab s) Tab g ∧
      static_terrain Tab = static_terrain T ∧ query_part Tab = query_part T ∧
      ∀ kC, tree_state Tab !! kC =
        let Ka := pt_key <$> default [] (tree_relations T !! xy2key (Int xa) (Int ya)) in
        let Kb := pt_key <$> default [] (tree_relations T !! xy2key (Int xb) (Int yb)) in
        match decide (kC ∈ Ka), decide (kC ∈ Kb) with
        | left _, left _ => Some (standing T kC)
        | left _, right _ | right _, left _ => Some (negb (standing T kC))
        | right _, right _ => tree_state T !! kC
        end) as Htwo.
  { intros xa ya xb yb.
    destruct (toggleTree_ok s T g xa ya Hok) as (ba & ma & sta & Hra & Hoka & _ & Hsta).
    cbv zeta in Hra, Hoka. rewrite Hra. cbn [state_of].
    destruct (toggleTree_ok _ _ g xb yb Hoka) as (bb & mb & stb & Hrb & Hokb & _ & Hstb).
    cbv zeta in Hrb, Hokb. rewrite Hrb. cbn [state_of].
    eexists. split; [done|]. split_and!; [exact Hokb|done|done|].
    intros kC. cbv zeta. cbn [tree_state set_treeWalls set_tree_state].
    rewrite Hstb. cbn [tree_relations set_treeWalls set_tree_state].
    unfold standing at 1. cbn [tree_state set_treeWalls set_tree_state].
    rewrite !Hsta. unfold standing.
    repeat case_decide; cbn; try done. by rewrite negb_involutive. }
  destruct (Htwo x1 y1 x2 y2) as (T12 & HT12 & Hok12 & Hs12 & Hq12 & Hst12).
  destruct (Htwo x2 y2 x1 y1) as (T21 & HT21 & Hok21 & Hs21 & Hq21 & Hst21).
  assert (tree_state T12 = tree_state T21) as Hst.
  { apply map_eq. intros kC. rewrite Hst12, Hst21. cbv zeta.
    repeat case_decide; done. }
  exists T12, T21. split_and!; [done|done|done|congruence|congruence|].
  intros L k HL.
  assert (elevationValues T12 = elevationValues T ∧ elevationValues T21 = elevationValues T ∧
          tree T12 = tree T ∧ tree T21 = tree T ∧
          tree_elevations T12 = tree_elevations T ∧ tree_elevations T21 = tree_elevations T)
    as (Hev12 & Hev21 & Ht12 & Ht21 & He12 & He21).
  { unfold static_terrain in Hs12, Hs21. split_and!; congruence. }
  rewrite (walls_ok_perm T12 L k) by (first [apply Hok12 | done]).
  rewrite (walls_ok_perm T21 L k) by (first [apply Hok21 | congruence]).
  unfold expected_walls. rewrite Ht12, Ht21.
  rewrite (list_filter_iff (qualifies T12 L k) (qualifies T21 L k)); [done|].
  intros p. unfold qualifies, standing. by rewrite Hst, He12, He21.
Qed.

Lemma toggleTree_commute_witness :
  ready_instance PreciseShadowcasting forest ∧
  ∃ T12 T21,
    terrain (state_of (toggleTree 5 5 (state_of (toggleTree 1 1 forest)))) = Some T12 ∧
    terrain (state_of (toggleTree 1 1 (state_of (toggleTree 5 5 forest)))) = Some T21 ∧
    tree_state T12 = tree_state T21.
Proof.
  split; [apply forest_ready|].
  destruct (toggleTree_commute PreciseShadowcasting forest 1 1 5 5 (forest_ready _))
    as (T12 & T21 & H1 & H2 & H3 & _).
  exists T12, T21. split; [exact H1|]. split; [exact H2|exact H3].
Defined.

(** ** The opacity the engine is given *)

(** X21: while [updateVisibility] runs the engine for an origin of
    elevation [E] on a ready instance, the opacity callback answers at
    every cell, and it answers "opaque" exactly when the cell is on the
    contour of threshold [E], or is a FowBlocker cell, or is a corner of a
    registered tree that stands and blocks above [E]: toggles made before
    the query are all taken into account. *)
Theorem query_opacity compute s T g gX gY E x y :
  ready_instance compute s →
  terrain s = Some T → elevationGrid T = Some g →
  elevation_at g gX gY = Some E →
  let key := xy2key (Int x) (Int y) in
  ∃ passes,
    lightPassesCallback (prepare E g T s) x y = Some passes ∧
    (passes = false ↔
     on_contour g E x y ∨ fow_blocker T key ∨ ∃ p, p ∈ tree T ∧ qualifies T E key p).
Proof.
  intros (T0 & g0 & Hok)%ready_instance_ok HT Hg HE key.
  rewrite (ok_terrain _ _ _ Hok) in HT. injection HT as ->.
  rewrite (ok_grid _ _ _ Hok) in Hg. injection Hg as ->.
  assert (E ∈ elevationValues T) as HL.
  { unfold elevation_at in HE. destruct (g !! _) as [c|] eqn:Hc; [|done].
    cbn in HE. injection HE as <-.
    by apply (ok_levels _ _ _ Hok (xy2key (Int gX) (Int gY)) c). }
  destruct (ok_maps _ _ _ Hok) as (_ & [fow Hfow] & _).
  destruct (ok_walls _ _ _ Hok) as [_ Hw]. destruct (Hw E HL) as (tw & Htw & Hk).
  destruct (lightPassesCallback_walls (prepare E g T s) (prepare_terrain E g T) E
              (generateElevationWalls g E) tw fow x y) as (p & Hp & Hiff);
    [done|done| |done|done|].
  { rewrite prepare_cache by apply Hok. apply lookup_insert_eq. }
  exists p. split; [exact Hp|]. rewrite Hiff. unfold opaque_at.
  rewrite (generateElevationWalls_contour g E x y) by apply Hok. fold key.
  assert (is_Some (fow !! key) ↔ fow_blocker T key) as ->
    by (unfold fow_blocker; by rewrite Hfow).
  assert (default [] (tw !! key) ≠ [] ↔ ∃ q, q ∈ tree T ∧ qualifies T E key q) as ->; [|tauto].
  destruct (Hk key) as (_ & _ & Hmem). split.
  - intros Hne. destruct (default [] (tw !! key)) as [|d l] eqn:Hd; [done|].
    assert (d ∈ expected_walls T E key) as Hin by (apply Hmem; left).
    apply elem_of_expected_walls in Hin as (q & Hq & Hqual & _). by exists q.
  - intros (q & Hq & Hqual) Hnil.
    assert (descriptor q.2 ∈ default [] (tw !! key)) as Hin.
    { apply Hmem, elem_of_expected_walls. by exists q. }
    rewrite Hnil in Hin. by apply elem_of_nil in Hin.
Qed.

Lemma query_opacity_witness :
  ∃ passes,
    lightPassesCallback (prepare 10 (grid_of forest) (terrain_of forest) forest) 1 1
      = Some passes ∧
    (passes = false ↔
     on_contour (grid_of forest) 10 1 1 ∨
     fow_blocker (terrain_of forest) (xy2key (Int 1) (Int 1)) ∨
     ∃ p, p ∈ tree (terrain_of forest) ∧
          qualifies (terrain_of forest) 10 (xy2key (Int 1) (Int 1)) p).
Proof.
  apply (query_opacity PreciseShadowcasting forest (terrain_of forest) (grid_of forest)
           2 0 10 1 1 (forest_ready _) forest_terrain forest_grid).
  vm_compute. reflexivity.
Defined.

(** ** The memo cache stays coherent *)

(** X22: the module's memo cache never serves a wrong point for the key
    of a cell with safe integer coordinates (below [2^53] in absolute
    value): if every such key it holds maps to the point of that cell (as
    in the empty cache), the same is true after any [key2pt] call and
    after any [initialize], and [key2pt] on the key of such a cell
    [(x, y)] returns the point [xy2pt(x, y)] whether it finds it or parses
    it. *)
Theorem key2pt_cache_coherent key load s cache :
  cache_coherent cache →
  cache_coherent (key2pt key cache).2 ∧
  cache_coherent (initialize load s cache).2 ∧
  ∀ x y, safe_integer x → safe_integer y →
    (key2pt (xy2key (Int x) (Int y)) cache).1 = xy2pt (Int x) (Int y).
Proof.
  intros Hco. split_and!.
  - intros x y pt Hx Hy.
    destruct (decide (key = xy2key (Int x) (Int y))) as [->|Hne].
    + destruct (cache !! xy2key (Int x) (Int y)) as [pt0|] eqn:Hk.
      * unfold key2pt. rewrite Hk. by apply Hco.
      * rewrite key2pt_parse by done. cbn [snd]. rewrite lookup_insert_eq. by intros [= <-].
    + unfold key2pt. destruct (cache !! key) as [pt0|]; cbn [snd]; [by apply Hco|].
      rewrite lookup_insert_ne by done. by apply Hco.
  - intros x y pt Hsx Hsy. unfold initialize. destruct load as [img|]; [|by apply Hco].
    destruct (load_terrain _ img reset_terrain) as [[] T|e T]; cbn [snd]; [|by apply Hco].
    destruct (prime_cache_lookup (gridWidth s) (gridHeight s) cache
                (xy2key (Int x) (Int y))) as (Hin & Hout & _).
    destruct (decide (0 <= x < gridWidth s ∧ 0 <= y < gridHeight s)) as [[Hx Hy]|Hno].
    + rewrite (Hin x y) by done. by intros [= <-].
    + rewrite Hout; [by apply Hco|].
      intros (i & j & Hi & Hj & Heq).
      apply (xy2key_inj (Int _) (Int _) (Int _) (Int _)) in Heq as [[= ->] [= ->]]. tauto.
  - intros x y Hx Hy.
    destruct (cache !! xy2key (Int x) (Int y)) as [pt0|] eqn:Hk.
    + unfold key2pt. rewrite Hk. by apply Hco.
    + by rewrite key2pt_parse.
Qed.

Lemma key2pt_cache_coherent_witness :
  let cache := (initialize (Some flat_image) (construct small_world None)
                  (key2pt "2,-7" ∅).2).2 in
  cache_coherent cache ∧
  ∀ x y, safe_integer x → safe_integer y →
    (key2pt (xy2key (Int x) (Int y)) cache).1 = xy2pt (Int x) (Int y).
Proof.
  intros cache.
  assert (cache_coherent ∅) as H0 by (intros x y pt _ _; by rewrite lookup_empty).
  destruct (key2pt_cache_coherent "2,-7" None (construct small_world None) ∅ H0)
    as (H1 & _ & _).
  destruct (key2pt_cache_coherent "" (Some flat_image) (construct small_world None)
              (key2pt "2,-7" ∅).2 H1) as (_ & H2 & _).
  split; [exact H2|].
  exact (proj2 (proj2 (key2pt_cache_coherent "" None (construct small_world None) cache H2))).
Defined.
